(** * A shallow embedding of the Coup rules engine (xs.js)

    The engine is an xstate machine ([GameMachine]) whose guards and
    assigners are written with Ramda and the crocks [State] monad.  The
    embedding keeps that structure: Ramda helpers, the [State] monad with
    lenses ([processing]), [Rand], [Player], [Game], [GameDef], the guards
    and assigners, the machine as a table of state nodes, and an
    interpreter for the part of xstate the machine relies on. *)

From Stdlib Require Import String ZArith QArith Qround Qpower Bool Lia Lqa List
  Permutation.
Import ListNotations.
Local Open Scope string_scope.
Local Open Scope list_scope.
Local Open Scope Z_scope.

Set Implicit Arguments.

(* ------------------------------------------------------------------ *)
(** ** Results of JavaScript computations *)

(** The five event types of the machine, and anything else. *)
Inductive EventType := ACTION | BLOCK | CHALLENGE | ALLOW | REVEAL | NULL_EVENT | UNKNOWN.

(** The texts of the [Error]s the guards and the [Player] functions throw
    are template strings; a message keeps the template and its holes. *)
Inductive Message :=
| MustSpecifyValidPlayer (t : EventType)
| MustSpecifyValidAction (t : EventType)
| NotAllowedFromPlayer (t : EventType) (p : option Z)
| MustTargetValidPlayer (t : EventType)
| CannotTargetPlayer (t : EventType) (p : option Z)
| CannotAffordAction (p : option Z) (a : option string)
| MustSpecifyValidRole (t : EventType)
| MustSpecifyHeldRole (t : EventType)
| CannotBeChallenged (a : option string)
| CannotBeBlockedBy (a : option string) (r : option string)
| PlayerDoesNotHaveRole (r : option string).

Inductive Error :=
| IllegalEvent (m : Message)   (* a guard of an event transition threw *)
| Raised (m : Message)         (* [raiseError] outside a guard *)
| NotAccepted (t : EventType)  (* strict mode: the machine has no such event *)
| Undefined (what : string)    (* a read of [undefined]: outside the model *)
| OutOfFuel.                   (* the recursion did not finish *)

Inductive Result (A : Type) :=
| Ok (a : A)
| Err (e : Error).
Arguments Err {A} e.

Definition bindR {A B} (r : Result A) (f : A -> Result B) : Result B :=
  match r with Ok a => f a | Err e => Err e end.

Definition raiseError {A} (m : Message) : Result A := Err (Raised m).

Declare Scope js_scope.
Delimit Scope js_scope with js.
Notation "x <- c ;; k" := (bindR c (fun x => k))
  (at level 61, c at next level, right associativity) : js_scope.
Notation "' pat <- c ;; k" := (bindR c (fun x => match x with pat => k end))
  (at level 61, pat pattern, c at next level, right associativity) : js_scope.
Local Open Scope js_scope.

(* ------------------------------------------------------------------ *)
(** ** Ramda on arrays *)

(** [list[i]]: [None] stands for [undefined]. *)
Definition at_ {A} (l : list A) (i : Z) : option A :=
  if i <? 0 then None else nth_error l (Z.to_nat i).

Definition isIndex {A} (l : list A) (i : Z) : bool :=
  (0 <=? i) && (i <? Z.of_nat (length l)).

(** [R.remove(start, count, list)] for a start that is an index. *)
Definition R_remove {A} (start count : nat) (l : list A) : list A :=
  firstn start l ++ skipn (start + count) l.

(** [R.findIndex(pred, list)]; [None] is -1. *)
Fixpoint R_findIndex {A} (pred : A -> bool) (l : list A) : option nat :=
  match l with
  | [] => None
  | x :: l' => if pred x then Some O else option_map S (R_findIndex pred l')
  end.

(** [R.adjust(idx, fn, list)] for an index. *)
Fixpoint R_adjust {A} (idx : nat) (fn : A -> A) (l : list A) : list A :=
  match l, idx with
  | [], _ => []
  | x :: l', O => fn x :: l'
  | x :: l', S i => x :: R_adjust i fn l'
  end.

Definition R_update {A} (idx : nat) (x : A) (l : list A) : list A :=
  R_adjust idx (fun _ => x) l.

Definition R_reject {A} (pred : A -> bool) (l : list A) : list A :=
  filter (fun x => negb (pred x)) l.

(* ------------------------------------------------------------------ *)
(** ** The crocks State monad, with the failures of the code inside *)

Definition State (S A : Type) := S -> Result (A * S).

Definition State_of {S A} (a : A) : State S A := fun s => Ok (a, s).
Definition State_get {S} : State S S := fun s => Ok (s, s).
Definition State_put {S} (s : S) : State S unit := fun _ => Ok (tt, s).
Definition State_fail {S A} (e : Error) : State S A := fun _ => Err e.

Definition chain {S A B} (m : State S A) (f : A -> State S B) : State S B :=
  fun s => match m s with
           | Ok (a, s') => f a s'
           | Err e => Err e
           end.

Definition State_map {S A B} (f : A -> B) (m : State S A) : State S B :=
  chain m (fun a => State_of (f a)).

Definition execWith {S A} (s : S) (m : State S A) : Result S :=
  match m s with Ok (_, s') => Ok s' | Err e => Err e end.

(** A lens whose getter may read [undefined]. *)
Record Lens (S T : Type) := mkLens {
  view : S -> Result T;
  set : T -> S -> S
}.

(** [processing lens m]: run [m] on the part of the state under [lens]. *)
Definition processing {S T A} (lens : Lens S T) (m : State T A) : State S A :=
  chain State_get (fun s0 =>
    match view lens s0 with
    | Err e => State_fail e
    | Ok t0 =>
      match m t0 with
      | Err e => State_fail e
      | Ok (res, s1) => State_map (fun _ => res) (State_put (set lens s1 s0))
      end
    end).

Definition R_over {S T} (lens : Lens S T) (f : T -> Result T) (s : S) : Result S :=
  t <- view lens s ;; t' <- f t ;; Ok (set lens t' s).

(* ------------------------------------------------------------------ *)
(** ** Player *)

Definition Role := string.

(** The state of the generator: four unsigned 32-bit integers. *)
Definition Seed := list Z.

Record Influence := mkInfluence { role : Role; revealed : bool }.

Record Player := mkPlayer { cash : Z; influence : list Influence }.

(** [R.equals] of an influence card and the object literal
    [{role: r, revealed: b}]; an [undefined] role equals no card's role. *)
Definition Influence_equals (r : option Role) (b : bool) (inf : Influence) : bool :=
  match r with
  | Some r' => String.eqb r' (role inf) && Bool.eqb b (revealed inf)
  | None => false
  end.

Definition Player_countInf (player : Player) : nat :=
  length (R_reject (fun inf => Bool.eqb (revealed inf) true) (influence player)).

Definition Player_hasNInf (n : nat) (player : Player) : bool :=
  Nat.eqb (Player_countInf player) n.

Definition Player_isDead (player : Player) : bool := Player_hasNInf 0 player.

Definition Player_adjustCash (dcash : Z) (player : Player) : Player :=
  mkPlayer (dcash + cash player) (influence player).

Definition Player_revealRole (r : option Role) (player : Player) : Result Player :=
  match R_findIndex (Influence_equals r false) (influence player) with
  | None => raiseError (PlayerDoesNotHaveRole r)
  | Some idx =>
    Ok (mkPlayer (cash player)
          (R_adjust idx (fun inf => mkInfluence (role inf) true) (influence player)))
  end.

Definition Player_unrevealRole (r : option Role) (player : Player) : Result Player :=
  match R_findIndex (Influence_equals r true) (influence player) with
  | None => raiseError (PlayerDoesNotHaveRole r)
  | Some idx =>
    Ok (mkPlayer (cash player)
          (R_adjust idx (fun inf => mkInfluence (role inf) false) (influence player)))
  end.

(** [undefined] when every card is revealed. *)
Definition Player_getFirstRole (player : Player) : option Role :=
  option_map role (find (fun inf => negb (revealed inf)) (influence player)).

Definition Player_swapRole_s (oldRole : option Role) (newRole : Role) : State Player unit :=
  chain State_get (fun player =>
    match R_findIndex (Influence_equals oldRole false) (influence player) with
    | None => State_fail (Raised (PlayerDoesNotHaveRole oldRole))
    | Some idx =>
      State_put (mkPlayer (cash player)
                   (R_adjust idx (fun inf => mkInfluence newRole (revealed inf))
                             (influence player)))
    end).

(* ------------------------------------------------------------------ *)
(** ** GameDef *)

(** One entry of [this.actions]; [roles] and [blockedBy] are kept as
    [R.flatten([x || []])] makes them, [targeted] as its truth value. *)
Record ActionDef := mkActionDef {
  a_cost : option Z;
  a_gain : option Z;
  a_roles : list Role;
  a_blockedBy : list Role;
  a_targeted : bool
}.

Record GameDef := mkGameDef { roles : list Role }.

Definition default_roles : list Role :=
  ["duke"; "assassin"; "captain"; "ambassador"; "contessa"].

(** [new GameDef(roles)]. *)
Definition new_GameDef (rs : option (list Role)) : GameDef :=
  mkGameDef (match rs with Some l => l | None => default_roles end).

Definition GameDef_actions : list (string * ActionDef) :=
  [ ("coup",        mkActionDef (Some 7) None     []  []  true);
    ("income",      mkActionDef None     (Some 1) []  []  false);
    ("foreign-aid", mkActionDef None     (Some 2) []  ["duke"] false);
    ("tax",         mkActionDef None     (Some 3) ["duke"] [] false);
    ("assassinate", mkActionDef (Some 3) None     ["assassin"] ["contessa"] true);
    ("steal",       mkActionDef None     None     ["captain"]
                                ["captain"; "ambassador"; "inquisitor"] true);
    ("exchange",    mkActionDef None     None     ["ambassador"; "inquisitor"] [] false);
    ("interrogate", mkActionDef None     None     ["inquisitor"] [] true) ].

(** The names [this.actions] inherits from [Object.prototype]: [in] finds
    them too, and none of them has a cost, a role or a target. *)
Definition Object_prototype_keys : list string :=
  [ "constructor"; "__defineGetter__"; "__defineSetter__"; "hasOwnProperty";
    "__lookupGetter__"; "__lookupSetter__"; "isPrototypeOf";
    "propertyIsEnumerable"; "toString"; "valueOf"; "__proto__"; "toLocaleString" ].

Fixpoint assoc {V} (k : string) (l : list (string * V)) : option V :=
  match l with
  | [] => None
  | (k', v) :: l' => if String.eqb k k' then Some v else assoc k l'
  end.

Definition R_includes (x : option string) (l : list string) : bool :=
  match x with
  | Some s => existsb (String.eqb s) l
  | None => false
  end.

(** [this.actions[action]]. *)
Definition GameDef_action (this : GameDef) (action : option string) : Result ActionDef :=
  match action with
  | None => Err (Undefined "actions[action]")
  | Some a =>
    match assoc a GameDef_actions with
    | Some d => Ok d
    | None =>
      if R_includes (Some a) Object_prototype_keys
      then Ok (mkActionDef None None [] [] false)
      else Err (Undefined "actions[action]")
    end
  end.

Definition GameDef_isValidRole (this : GameDef) (r : option Role) : bool :=
  R_includes r (roles this).

(** [action in this.actions]. *)
Definition GameDef_isValidAction (this : GameDef) (action : option string) : bool :=
  match action with
  | None => false
  | Some a =>
    match assoc a GameDef_actions with
    | Some _ => true
    | None => R_includes (Some a) Object_prototype_keys
    end
  end.

Definition GameDef_getRequiredRoles (this : GameDef) (action : option string)
  : Result (list Role) :=
  d <- GameDef_action this action ;; Ok (a_roles d).

Definition GameDef_getBlockingRoles (this : GameDef) (action : option string)
  : Result (list Role) :=
  d <- GameDef_action this action ;; Ok (a_blockedBy d).

Definition GameDef_isRoleRequired (this : GameDef) (action : option string) : Result bool :=
  l <- GameDef_getRequiredRoles this action ;; Ok (0 <? length l)%nat.

Definition GameDef_isBlockable (this : GameDef) (action : option string) : Result bool :=
  l <- GameDef_getBlockingRoles this action ;; Ok (0 <? length l)%nat.

Definition GameDef_isBlockedBy (this : GameDef) (action : option string) (r : option Role)
  : Result bool :=
  l <- GameDef_getBlockingRoles this action ;; Ok (R_includes r l).

Definition GameDef_ifRoleAllowsAction (this : GameDef) (r : option Role)
           (action : option string) : Result bool :=
  l <- GameDef_getRequiredRoles this action ;; Ok (R_includes r l).

Definition GameDef_isTargeted (this : GameDef) (action : option string) : Result bool :=
  d <- GameDef_action this action ;; Ok (a_targeted d).

Definition GameDef_getCost (this : GameDef) (action : option string) : Result Z :=
  d <- GameDef_action this action ;;
  Ok (match a_cost d with Some c => c | None => 0 end).

Definition GameDef_makeDeck (this : GameDef) : list Role :=
  flat_map (fun el => repeat el 3) (roles this).

(* ------------------------------------------------------------------ *)
(** ** The context of the machine and its events *)

Record Context := mkContext {
  def : GameDef;
  seed : Seed;
  deck : list Role;
  whoseTurn : Z;
  players : list Player;
  currentAction : option string;
  target : option Z;
  blocker : option Z;
  challenger : option Z;
  revealer : option Z;
  revealedRole : option Role
}.

Definition with_seed (x : Seed) (c : Context) : Context :=
  mkContext (def c) x (deck c) (whoseTurn c) (players c) (currentAction c)
            (target c) (blocker c) (challenger c) (revealer c) (revealedRole c).
Definition with_deck (x : list Role) (c : Context) : Context :=
  mkContext (def c) (seed c) x (whoseTurn c) (players c) (currentAction c)
            (target c) (blocker c) (challenger c) (revealer c) (revealedRole c).
Definition with_whoseTurn (x : Z) (c : Context) : Context :=
  mkContext (def c) (seed c) (deck c) x (players c) (currentAction c)
            (target c) (blocker c) (challenger c) (revealer c) (revealedRole c).
Definition with_players (x : list Player) (c : Context) : Context :=
  mkContext (def c) (seed c) (deck c) (whoseTurn c) x (currentAction c)
            (target c) (blocker c) (challenger c) (revealer c) (revealedRole c).
Definition with_currentAction (x : option string) (c : Context) : Context :=
  mkContext (def c) (seed c) (deck c) (whoseTurn c) (players c) x
            (target c) (blocker c) (challenger c) (revealer c) (revealedRole c).
Definition with_target (x : option Z) (c : Context) : Context :=
  mkContext (def c) (seed c) (deck c) (whoseTurn c) (players c) (currentAction c)
            x (blocker c) (challenger c) (revealer c) (revealedRole c).
Definition with_blocker (x : option Z) (c : Context) : Context :=
  mkContext (def c) (seed c) (deck c) (whoseTurn c) (players c) (currentAction c)
            (target c) x (challenger c) (revealer c) (revealedRole c).
Definition with_challenger (x : option Z) (c : Context) : Context :=
  mkContext (def c) (seed c) (deck c) (whoseTurn c) (players c) (currentAction c)
            (target c) (blocker c) x (revealer c) (revealedRole c).
Definition with_revealer (x : option Z) (c : Context) : Context :=
  mkContext (def c) (seed c) (deck c) (whoseTurn c) (players c) (currentAction c)
            (target c) (blocker c) (challenger c) x (revealedRole c).
Definition with_revealedRole (x : option Role) (c : Context) : Context :=
  mkContext (def c) (seed c) (deck c) (whoseTurn c) (players c) (currentAction c)
            (target c) (blocker c) (challenger c) (revealer c) x.

(** An event object: its [type], and each further field when the event has
    it with the type the guards ask for ([player] and [target] numbers,
    taken to be integers, [action] and [role] strings). *)
Record Event := mkEvent {
  e_type : EventType;
  e_player : option Z;
  e_action : option string;
  e_target : option Z;
  e_role : option string
}.

(** The event of an eventless ([always]) transition: [{type: ''}]. *)
Definition nullEvent : Event := mkEvent NULL_EVENT None None None None.

(** [context.players[idx]] and [R.update(idx, player)] on [players]. *)
Definition Player_lens (idx : option Z) : Lens Context Player :=
  mkLens
    (fun context =>
       match idx with
       | None => Err (Undefined "players[idx]")
       | Some i =>
         match at_ (players context) i with
         | Some p => Ok p
         | None => Err (Undefined "players[idx]")
         end
       end)
    (fun player context =>
       match idx with
       | None => context
       | Some i => with_players (R_update (Z.to_nat i) player (players context)) context
       end).

Definition activePlayerLens : Lens Context Player :=
  mkLens
    (fun context => view (Player_lens (Some (whoseTurn context))) context)
    (fun player context => set (Player_lens (Some (whoseTurn context))) player context).

Definition lens_seed : Lens Context Seed := mkLens (fun c => Ok (seed c)) with_seed.
Definition lens_deck : Lens Context (list Role) := mkLens (fun c => Ok (deck c)) with_deck.

(* ------------------------------------------------------------------ *)
(** ** Rand *)

Definition UINT32_MAX : Z := 2 ^ 32 - 1.

(** [Math.round]: the nearest integer, halves upwards. *)
Definition Math_round (x : Q) : Z := Qfloor (x + (1 # 2)).

(** *** Doubles

    The numbers of the code are binary64 doubles; an operation on them
    gives the exact result rounded to the nearest double, a tie going to
    the one with an even significand.  [binary64] is that rounding on the
    rationals: 53 bits of significand, exponents down to that of the
    subnormals; no result of [Rand._random] is near the overflow, which is
    left out. *)

(** The integer part of the binary logarithm of a positive rational. *)
Definition Qlog2 (x : Q) : Z :=
  let k := Z.log2 (Qnum x) - Z.log2 (Zpos (Qden x)) in
  if Qle_bool (2 ^ k) x then k else k - 1.

(** The nearest integer, a half going to the even one. *)
Definition round_half_even (q : Q) : Z :=
  let f := Qfloor q in
  match (q - inject_Z f ?= 1 # 2)%Q with
  | Lt => f
  | Eq => if Z.even f then f else f + 1
  | Gt => f + 1
  end.

(** A positive rational rounded to the nearest double. *)
Definition binary64_pos (x : Q) : Q :=
  let e := Z.max (Qlog2 x - 52) (- 1074) in
  (inject_Z (round_half_even (x / 2 ^ e)) * 2 ^ e)%Q.

Definition binary64 (x : Q) : Q :=
  match Qnum x with
  | 0 => 0%Q
  | Zpos _ => binary64_pos x
  | Zneg _ => (- binary64_pos (- x))%Q
  end.

(* ------------------------------------------------------------------ *)
(** ** Sample data *)

(** A generator to run the engine with: a linear congruence on the first
    word of the seed. *)
Definition sample_randUint (seed : Seed) : Z :=
  (nth 0 seed 0 * 1103515245 + 12345) mod 2 ^ 32.

Definition sample_seed : Seed := [1; 2; 3; 4].

Definition sample_def : GameDef := new_GameDef None.

Definition card (r : Role) : Influence := mkInfluence r false.

(** Two players, as the tests of the engine start. *)
Definition sample_game2 : Context :=
  mkContext sample_def sample_seed (GameDef_makeDeck sample_def) 0
    [ mkPlayer 2 [card "duke"; card "captain"];
      mkPlayer 2 [card "assassin"; card "duke"] ]
    None None None None None None.

(** Three players. *)
Definition sample_game3 : Context :=
  mkContext sample_def sample_seed (GameDef_makeDeck sample_def) 0
    [ mkPlayer 2 [card "duke"; card "captain"];
      mkPlayer 2 [card "assassin"; card "contessa"];
      mkPlayer 2 [card "captain"; card "ambassador"] ]
    None None None None None None.

Definition ACTION_ (a : string) (p : Z) : Event :=
  mkEvent ACTION (Some p) (Some a) None None.
Definition ACTION_on (a : string) (p t : Z) : Event :=
  mkEvent ACTION (Some p) (Some a) (Some t) None.
Definition BLOCK_ (r : Role) (p : Z) : Event :=
  mkEvent BLOCK (Some p) None None (Some r).
Definition CHALLENGE_ (p : Z) : Event := mkEvent CHALLENGE (Some p) None None None.
Definition ALLOW_ (p : Z) : Event := mkEvent ALLOW (Some p) None None None.
Definition REVEAL_ (r : Role) (p : Z) : Event :=
  mkEvent REVEAL (Some p) None None (Some r).

(** Two players, the first with the cash for a coup. *)
Definition sample_rich : Context :=
  mkContext sample_def sample_seed (GameDef_makeDeck sample_def) 0
    [ mkPlayer 7 [card "duke"; card "captain"];
      mkPlayer 2 [card "assassin"; card "duke"] ]
    None None None None None None.

(** An assassination that is challenged, proved, and then blocked at the
    last chance. *)
Definition sample_events2 : list Event :=
  [ ACTION_ "income" 0; ACTION_ "income" 1; ACTION_ "income" 0;
    ACTION_on "assassinate" 1 0; CHALLENGE_ 0; REVEAL_ "assassin" 1;
    REVEAL_ "captain" 0; BLOCK_ "contessa" 0 ].

(** A game of three in which the second player is challenged twice and
    loses both cards; the turn is then the first player's. *)
Definition sample_events3 : list Event :=
  [ ACTION_ "income" 0;
    ACTION_ "tax" 1; CHALLENGE_ 2; REVEAL_ "assassin" 1;
    ACTION_ "income" 2;
    ACTION_ "income" 0;
    ACTION_ "tax" 1; CHALLENGE_ 0;
    ACTION_ "income" 2 ].

(** A game of two in which the second player holds no duke. *)
Definition sample_game_noduke : Context :=
  with_players [ mkPlayer 2 [card "duke"; card "captain"];
                 mkPlayer 2 [card "assassin"; card "contessa"] ] sample_game2.

(** The second player claims tax twice, is challenged twice and loses both
    cards. *)
Definition sample_events_over : list Event :=
  [ ACTION_ "income" 0; ACTION_ "tax" 1; CHALLENGE_ 0; REVEAL_ "assassin" 1;
    ACTION_ "income" 0; ACTION_ "tax" 1; CHALLENGE_ 0 ].

(** The first player has claimed tax and the second has challenged. *)
Definition sample_challenged : Context :=
  with_revealer (Some 0)
    (with_challenger (Some 1) (with_currentAction (Some "tax") sample_game2)).

(** ... and the first player has shown the duke. *)
Definition sample_revealed : Context :=
  with_revealedRole (Some "duke")
    (with_players [ mkPlayer 2 [mkInfluence "duke" true; card "captain"];
                    mkPlayer 2 [card "assassin"; card "duke"] ]
                  sample_challenged).

Section Engine.

(** [pureRandom.randUint], of the pure-random package: a function of the
    seed alone whose result is an unsigned 32-bit integer. *)
Variable randUint : Seed -> Z.

Definition randUint_uint32 : Prop :=
  forall seed, 0 <= randUint seed <= UINT32_MAX.

Definition Rand__nextSeed (seed : Seed) : Seed :=
  firstn 3 (skipn 1 seed) ++ [randUint seed].

(** [Math.round(min + randUint(seed) / UINT32_MAX * (max - min))], on exact
    rationals.  For [min = 0], as [shuffle] calls it, the exact value is at
    least [1 / (2 * UINT32_MAX)] away from every half-integer (UINT32_MAX is
    odd), which is more than the doubles of the code lose while
    [max < 2 ^ 18]: there the two round to the same integer. *)
Definition Rand__random (seed : Seed) (min max : Z) : Z :=
  Math_round (inject_Z min
              + inject_Z (randUint seed) / inject_Z UINT32_MAX * inject_Z (max - min)).

Definition Rand_random (min max : Z) : State Seed Z :=
  fun seed => Ok (Rand__random seed min max, Rand__nextSeed seed).

(** [Rand.shuffle]: the recursion of the code is on a list one shorter
    each time; [fuel] bounds its depth. *)
Fixpoint Rand_shuffle_fuel {A} (fuel : nat) (l : list A) : State Seed (list A) :=
  if (length l <=? 1)%nat then State_of l else
  match fuel with
  | O => State_fail OutOfFuel
  | S fuel' =>
    chain (Rand_random 0 (Z.of_nat (length l) - 1)) (fun i =>
      match at_ l i with
      | None => State_fail (Undefined "list[i]")
      | Some x =>
        State_map (fun tail => x :: tail)
                  (Rand_shuffle_fuel fuel' (R_remove (Z.to_nat i) 1 l))
      end)
  end.

Definition Rand_shuffle {A} (l : list A) : State Seed (list A) :=
  Rand_shuffle_fuel (length l) l.


(* ------------------------------------------------------------------ *)
(** ** Game *)

Definition liftRand {A} (m : State Seed A) : State Context A := processing lens_seed m.
Definition liftDeck {A} (m : State (list Role) A) : State Context A := processing lens_deck m.
Definition liftPlayer {A} (idx : option Z) (m : State Player A) : State Context A :=
  processing (Player_lens idx) m.

Definition Game_isOver (context : Context) : bool :=
  Nat.eqb (length (R_reject Player_isDead (players context))) 1.

(** The deck holds roles; a [null] role is not put on it. *)
Definition Game_pushDeck_s (r : option Role) : State Context unit :=
  match r with
  | Some r' => liftDeck (fun deck => Ok (tt, r' :: deck))
  | None => State_fail (Undefined "role")
  end.

Definition Game_popDeck_s : State Context Role :=
  liftDeck (fun deck =>
    match deck with
    | top :: _ => Ok (top, R_remove 0 1 deck)
    | [] => Err (Undefined "deck[0]")
    end).

Definition Game_shuffleDeck_s : State Context unit :=
  chain (liftDeck State_get) (fun deck =>
    chain (liftRand (Rand_shuffle deck)) (fun deck' =>
      liftDeck (State_put deck'))).

Definition Game_applyRevealAction (context : Context) : Context :=
  with_revealer (target context) context.

Definition Game_playerHasCash (idx : option Z) (c : Z) (context : Context) : Result bool :=
  p <- view (Player_lens idx) context ;; Ok (cash p =? c).

Definition Game_playerCanAffordAction (idx : option Z) (action : option string)
           (context : Context) : Result bool :=
  cost <- GameDef_getCost (def context) action ;;
  p <- view (Player_lens idx) context ;;
  Ok (cost <=? cash p).

Definition Game_playerHasNInf (idx : option Z) (n : nat) (context : Context) : Result bool :=
  p <- view (Player_lens idx) context ;; Ok (Player_hasNInf n p).

Definition Game_playerHasRole (idx : option Z) (r : option Role) (context : Context)
  : Result bool :=
  p <- view (Player_lens idx) context ;;
  Ok (existsb (fun inf =>
                 Bool.eqb (revealed inf) false
                 && match r with
                    | Some r' => String.eqb (role inf) r'
                    | None => false
                    end)
              (influence p)).

Definition Game_actionEq (name : string) (context : Context) : bool :=
  match currentAction context with
  | Some a => String.eqb a name
  | None => false
  end.

(** [R.cond]: the first branch whose predicate holds; [undefined] ([None])
    when none does. *)
Definition Game_applyAction (context : Context) : Result (option Context) :=
  if Game_actionEq "income" context then
    c <- R_over activePlayerLens (fun p => Ok (Player_adjustCash 1 p)) context ;; Ok (Some c)
  else if Game_actionEq "foreign-aid" context then
    c <- R_over activePlayerLens (fun p => Ok (Player_adjustCash 2 p)) context ;; Ok (Some c)
  else if Game_actionEq "tax" context then
    c <- R_over activePlayerLens (fun p => Ok (Player_adjustCash 3 p)) context ;; Ok (Some c)
  else if Game_actionEq "assassinate" context then
    Ok (Some (Game_applyRevealAction context))
  else Ok None.

Definition redealPlayerRole (idx : option Z) (oldRole : option Role) (context : Context)
  : Result Context :=
  execWith context
    (chain (Game_pushDeck_s oldRole) (fun _ =>
     chain Game_shuffleDeck_s (fun _ =>
     chain Game_popDeck_s (fun newRole =>
     liftPlayer idx (Player_swapRole_s oldRole newRole))))).

(* ------------------------------------------------------------------ *)
(** ** Guards *)

Definition opt_eqb (x y : option Z) : bool :=
  match x, y with
  | Some a, Some b => a =? b
  | None, None => true
  | _, _ => false
  end.

Definition throw {A} (m : Message) : Result A := Err (Raised m).

(** [typeof idx === 'number' && idx >= 0 && idx < context.players.length],
    for a number that is an integer; [isValidPlayerIdx_number] is the test
    on any number. *)
Definition isValidPlayerIdx (context : Context) (idx : option Z) : bool :=
  match idx with
  | Some i => isIndex (players context) i
  | None => false
  end.

Definition assertValidPlayer (context : Context) (event : Event) : Result bool :=
  if negb (isValidPlayerIdx context (e_player event))
  then throw (MustSpecifyValidPlayer (e_type event))
  else Ok true.

Definition assertCanStartAction (context : Context) (event : Event) : Result bool :=
  _ <- assertValidPlayer context event ;;
  if negb (GameDef_isValidAction (def context) (e_action event))
  then throw (MustSpecifyValidAction (e_type event)) else
  if negb (opt_eqb (e_player event) (Some (whoseTurn context)))
  then throw (NotAllowedFromPlayer (e_type event) (e_player event)) else
  targeted <- GameDef_isTargeted (def context) (e_action event) ;;
  _ <- (if targeted then
          if negb (isValidPlayerIdx context (e_target event))
          then throw (MustTargetValidPlayer (e_type event)) else
          if opt_eqb (e_target event) (Some (whoseTurn context))
          then throw (CannotTargetPlayer (e_type event) (e_target event))
          else Ok true
        else Ok true) ;;
  afford <- Game_playerCanAffordAction (e_player event) (e_action event) context ;;
  if negb afford
  then throw (CannotAffordAction (e_player event) (e_action event))
  else Ok true.

Definition assertCanReveal (context : Context) (event : Event) : Result bool :=
  _ <- assertValidPlayer context event ;;
  if negb (opt_eqb (e_player event) (revealer context))
  then throw (NotAllowedFromPlayer (e_type event) (e_player event)) else
  if negb (GameDef_isValidRole (def context) (e_role event))
  then throw (MustSpecifyValidRole (e_type event)) else
  held <- Game_playerHasRole (e_player event) (e_role event) context ;;
  if negb held then throw (MustSpecifyHeldRole (e_type event)) else Ok true.

Definition assertValidOpponent (context : Context) (event : Event) : Result bool :=
  _ <- assertValidPlayer context event ;;
  if opt_eqb (e_player event) (Some (whoseTurn context))
  then throw (NotAllowedFromPlayer (e_type event) (e_player event))
  else Ok true.

Definition assertCurrentPlayer (context : Context) (event : Event) : Result bool :=
  _ <- assertValidPlayer context event ;;
  if negb (opt_eqb (e_player event) (Some (whoseTurn context)))
  then throw (NotAllowedFromPlayer (e_type event) (e_player event))
  else Ok true.

Definition ifActionWasBlocked (context : Context) : bool :=
  match blocker context with Some _ => true | None => false end.

Definition assertCanChallenge (context : Context) (event : Event) : Result bool :=
  if ifActionWasBlocked context then
    _ <- assertValidPlayer context event ;;
    if opt_eqb (e_player event) (blocker context)
    then throw (NotAllowedFromPlayer (e_type event) (e_player event))
    else Ok true
  else
    _ <- assertValidOpponent context event ;;
    required <- GameDef_isRoleRequired (def context) (currentAction context) ;;
    if negb required then throw (CannotBeChallenged (currentAction context)) else Ok true.

Definition assertCanBlock (context : Context) (event : Event) : Result bool :=
  _ <- assertValidOpponent context event ;;
  match e_role event with
  | None => throw (MustSpecifyValidRole (e_type event))
  | Some _ =>
    blocked <- GameDef_isBlockedBy (def context) (currentAction context) (e_role event) ;;
    if negb blocked
    then throw (CannotBeBlockedBy (currentAction context) (e_role event))
    else Ok true
  end.

Definition ifActionHasResponse (context : Context) : Result bool :=
  required <- GameDef_isRoleRequired (def context) (currentAction context) ;;
  if required then Ok true else GameDef_isBlockable (def context) (currentAction context).

Definition ifActionHasNoResponse (context : Context) : Result bool :=
  b <- ifActionHasResponse context ;; Ok (negb b).

Definition ifChallengeIncorrect (context : Context) : Result bool :=
  match blocker context with
  | Some _ => GameDef_isBlockedBy (def context) (currentAction context) (revealedRole context)
  | None => GameDef_ifRoleAllowsAction (def context) (revealedRole context)
                                       (currentAction context)
  end.

Definition ifPendingReveal (context : Context) : bool :=
  match revealer context, revealedRole context with
  | Some _, None => true
  | _, _ => false
  end.

Definition ifBlockableAction (context : Context) : Result bool :=
  GameDef_isBlockable (def context) (currentAction context).

Definition ifAutoReveal (context : Context) : Result bool :=
  Game_playerHasNInf (revealer context) 1 context.

(* ------------------------------------------------------------------ *)
(** ** Assigners *)

Definition setCurrentAction (context : Context) (event : Event) : Context :=
  with_target (e_target event) (with_currentAction (e_action event) context).

Definition setChallenger (context : Context) (event : Event) : Context :=
  with_challenger (e_player event) context.

Definition setBlocker (context : Context) (event : Event) : Context :=
  with_blocker (e_player event) context.

Definition setRevealer (valueGetter : Context -> option Z) (context : Context) : Context :=
  with_revealedRole None (with_revealer (valueGetter context) context).

Definition clearRevealer (context : Context) : Context :=
  with_revealedRole None (with_revealer None context).

(** [%] of JavaScript is the remainder of the truncated division; with no
    player it is [NaN]. *)
Definition advanceTurn (context : Context) : Result Context :=
  match players context with
  | [] => Err (Undefined "NaN")
  | _ => Ok (with_whoseTurn (Z.rem (whoseTurn context + 1)
                                   (Z.of_nat (length (players context)))) context)
  end.

(** [assign(f)]: xstate takes what [f] returns as a partial update and
    makes the next context [Object.assign({}, context, update)]; every
    function of this file that returns a context returns all its fields, and
    merging [undefined] adds nothing. *)
Definition assign (f : Context -> Result (option Context)) (context : Context)
  : Result Context :=
  u <- f context ;;
  Ok (match u with Some c => c | None => context end).

Definition applyAction (context : Context) : Result Context :=
  assign Game_applyAction context.

(** [event.role || ...]: the empty string is falsy as [undefined] is. *)
Definition revealInfluence (context : Context) (event : Event) : Result Context :=
  let first :=
    (p <- view (Player_lens (revealer context)) context ;; Ok (Player_getFirstRole p)) in
  r <- match e_role event with
       | Some r => if String.eqb r "" then first else Ok (Some r)
       | None => first
       end ;;
  c <- R_over (Player_lens (revealer context)) (Player_revealRole r) context ;;
  Ok (with_revealedRole r c).

Definition replaceInfluence (context : Context) : Result Context :=
  c <- R_over (Player_lens (revealer context))
              (Player_unrevealRole (revealedRole context)) context ;;
  redealPlayerRole (revealer context) (revealedRole context) c.

Definition payActionCost (context : Context) : Result Context :=
  cost <- GameDef_getCost (def context) (currentAction context) ;;
  R_over activePlayerLens (fun p => Ok (Player_adjustCash (- cost) p)) context.

Definition resetContext (context : Context) : Context :=
  with_revealedRole None (with_revealer None (with_challenger None
    (with_blocker None (with_target None (with_currentAction None context))))).


(* ------------------------------------------------------------------ *)
(** ** GameMachine *)

Inductive StateName :=
| StartOfTurn | WaitForResponse | Block | Challenge | ExecRevealOnChallenge
| ChallengeIncorrect | ExecCounterReveal | WaitForBlock | FinishAction
| RevealOnAction | EndOfTurn | GameOver.

(** The guards ([cond]) and the actions the machine names. *)
Inductive Guard :=
| AssertCanStartAction | AssertCanBlock | AssertCanChallenge | AssertValidOpponent
| AssertCurrentPlayer | AssertCanReveal
| IfActionHasNoResponse | IfAutoReveal | IfChallengeIncorrect | IfActionWasBlocked
| IfBlockableAction | IfPendingReveal | GameIsOver.

Inductive ActionName :=
| ResetContext | SetCurrentAction | SetChallenger | SetBlocker
| SetRevealerOfChallenge     (* setRevealer(c => ifActionWasBlocked(c) ? c.blocker : c.whoseTurn) *)
| SetRevealerChallenger      (* setRevealer(c => c.challenger) *)
| ClearRevealer | AdvanceTurn | ApplyAction | RevealInfluence | ReplaceInfluence
| PayActionCost.

Record Transition := mkTransition {
  t_target : StateName;
  cond : option Guard;
  actions : list ActionName
}.

Record StateNode := mkStateNode {
  entry : list ActionName;
  always : list Transition;
  on : list (EventType * Transition)
}.

Definition GameMachine (s : StateName) : StateNode :=
  match s with
  | StartOfTurn =>
    mkStateNode [ResetContext] []
      [(ACTION, mkTransition WaitForResponse (Some AssertCanStartAction) [])]
  | WaitForResponse =>
    mkStateNode [SetCurrentAction]
      [mkTransition FinishAction (Some IfActionHasNoResponse) []]
      [(BLOCK, mkTransition Block (Some AssertCanBlock) [PayActionCost]);
       (CHALLENGE, mkTransition Challenge (Some AssertCanChallenge) []);
       (ALLOW, mkTransition FinishAction (Some AssertValidOpponent) [PayActionCost])]
  | Block =>
    mkStateNode [SetBlocker] []
      [(CHALLENGE, mkTransition Challenge (Some AssertCanChallenge) []);
       (ALLOW, mkTransition EndOfTurn (Some AssertCurrentPlayer) [])]
  | Challenge =>
    mkStateNode [SetChallenger; SetRevealerOfChallenge]
      [mkTransition ExecRevealOnChallenge (Some IfAutoReveal) []]
      [(REVEAL, mkTransition ExecRevealOnChallenge (Some AssertCanReveal) [])]
  | ExecRevealOnChallenge =>
    mkStateNode [RevealInfluence]
      [mkTransition ChallengeIncorrect (Some IfChallengeIncorrect) [];
       mkTransition FinishAction (Some IfActionWasBlocked) [];
       mkTransition EndOfTurn None []]
      []
  | ChallengeIncorrect =>
    mkStateNode [ReplaceInfluence; SetRevealerChallenger]
      [mkTransition ExecCounterReveal (Some IfAutoReveal) []]
      [(REVEAL, mkTransition ExecCounterReveal (Some AssertCanReveal) [])]
  | ExecCounterReveal =>
    mkStateNode [RevealInfluence]
      [mkTransition EndOfTurn (Some IfActionWasBlocked) [];
       mkTransition WaitForBlock (Some IfBlockableAction) [];
       mkTransition FinishAction None []]
      []
  | WaitForBlock =>
    mkStateNode [ClearRevealer; PayActionCost] []
      [(BLOCK, mkTransition Block (Some AssertCanBlock) []);
       (ALLOW, mkTransition FinishAction (Some AssertValidOpponent) [])]
  | FinishAction =>
    mkStateNode [ClearRevealer; ApplyAction]
      [mkTransition RevealOnAction (Some IfPendingReveal) [];
       mkTransition EndOfTurn None []]
      []
  | RevealOnAction =>
    mkStateNode []
      [mkTransition EndOfTurn (Some IfAutoReveal) [RevealInfluence]]
      [(REVEAL, mkTransition EndOfTurn (Some AssertCanReveal) [RevealInfluence])]
  | EndOfTurn =>
    mkStateNode []
      [mkTransition GameOver (Some GameIsOver) [];
       mkTransition StartOfTurn None [AdvanceTurn]]
      []
  | GameOver => mkStateNode [] [] []
  end.

(* ------------------------------------------------------------------ *)
(** ** The part of xstate the machine runs on

    [GameMachine.transition(state, event)] of xstate 4, for a machine of
    atomic states whose actions are all [assign]s:
    - in strict mode an event type the machine does not know is refused;
      a known type the state has no transition for changes nothing;
    - the guard of the transition is called with the context and the
      event; what it throws, [transition] throws;
    - the transition's actions run, then the entry actions of its target,
      each on the context the one before left, with the event;
    - then, as long as the state has an enabled eventless ([always])
      transition, the first one is taken, its guards and actions called
      with the null event [{type: ''}]. *)

Definition evalGuard (g : Guard) (context : Context) (event : Event) : Result bool :=
  match g with
  | AssertCanStartAction => assertCanStartAction context event
  | AssertCanBlock => assertCanBlock context event
  | AssertCanChallenge => assertCanChallenge context event
  | AssertValidOpponent => assertValidOpponent context event
  | AssertCurrentPlayer => assertCurrentPlayer context event
  | AssertCanReveal => assertCanReveal context event
  | IfActionHasNoResponse => ifActionHasNoResponse context
  | IfAutoReveal => ifAutoReveal context
  | IfChallengeIncorrect => ifChallengeIncorrect context
  | IfActionWasBlocked => Ok (ifActionWasBlocked context)
  | IfBlockableAction => ifBlockableAction context
  | IfPendingReveal => Ok (ifPendingReveal context)
  | GameIsOver => Ok (Game_isOver context)
  end.

(** xstate evaluates a guard inside [try]: what the guard throws is thrown
    again with the name of the guard, the event and the state before its
    message. *)
Definition evaluateGuard (c : option Guard) (context : Context) (event : Event)
  : Result bool :=
  match c with
  | None => Ok true
  | Some g =>
    match evalGuard g context event with
    | Err (Raised m) => Err (IllegalEvent m)
    | r => r
    end
  end.

Definition execAction (a : ActionName) (context : Context) (event : Event)
  : Result Context :=
  match a with
  | ResetContext => Ok (resetContext context)
  | SetCurrentAction => Ok (setCurrentAction context event)
  | SetChallenger => Ok (setChallenger context event)
  | SetBlocker => Ok (setBlocker context event)
  | SetRevealerOfChallenge =>
    Ok (setRevealer (fun c => if ifActionWasBlocked c then blocker c
                              else Some (whoseTurn c)) context)
  | SetRevealerChallenger => Ok (setRevealer challenger context)
  | ClearRevealer => Ok (clearRevealer context)
  | AdvanceTurn => advanceTurn context
  | ApplyAction => applyAction context
  | RevealInfluence => revealInfluence context event
  | ReplaceInfluence => replaceInfluence context
  | PayActionCost => payActionCost context
  end.

(** [updateContext]: the assign actions of a step, one after the other. *)
Fixpoint updateContext (acts : list ActionName) (context : Context) (event : Event)
  : Result Context :=
  match acts with
  | [] => Ok context
  | a :: acts' => c <- execAction a context event ;; updateContext acts' c event
  end.

Record MachineState := mkState { value : StateName; context : Context }.

(** What a step did: the actions it ran and the states it entered. *)
Inductive LogItem := Ran (a : ActionName) | Entered (s : StateName).

(** The first transition of the list whose guard holds. *)
Fixpoint selectTransition (ts : list Transition) (context : Context) (event : Event)
  : Result (option Transition) :=
  match ts with
  | [] => Ok None
  | t :: ts' =>
    b <- evaluateGuard (cond t) context event ;;
    if b then Ok (Some t) else selectTransition ts' context event
  end.

Definition EventType_eqb (a b : EventType) : bool :=
  match a, b with
  | ACTION, ACTION | BLOCK, BLOCK | CHALLENGE, CHALLENGE | ALLOW, ALLOW
  | REVEAL, REVEAL | NULL_EVENT, NULL_EVENT | UNKNOWN, UNKNOWN => true
  | _, _ => false
  end.

(** The transitions of a state node for an event type. *)
Definition candidates (node : StateNode) (t : EventType) : list Transition :=
  map snd (filter (fun p => EventType_eqb (fst p) t) (on node)).

(** One microstep: the actions of the transition, then the entry actions
    of its target (the states are atomic and have no exit actions). *)
Definition microstep (t : Transition) (context : Context) (event : Event)
  : Result (MachineState * list LogItem) :=
  c <- updateContext (actions t ++ entry (GameMachine (t_target t))) context event ;;
  Ok (mkState (t_target t) c,
      map Ran (actions t) ++ Entered (t_target t)
          :: map Ran (entry (GameMachine (t_target t)))).

(** The eventless transitions are taken, with the null event, until none
    is enabled. *)
Fixpoint resolveTransient (fuel : nat) (st : MachineState)
  : Result (MachineState * list LogItem) :=
  match fuel with
  | O => Err OutOfFuel
  | S fuel' =>
    sel <- selectTransition (always (GameMachine (value st))) (context st) nullEvent ;;
    match sel with
    | None => Ok (st, [])
    | Some t =>
      ' (st1, log1) <- microstep t (context st) nullEvent ;;
      ' (st2, log2) <- resolveTransient fuel' st1 ;;
      Ok (st2, log1 ++ log2)
    end
  end.

(** No chain of eventless transitions of [GameMachine] is longer than the
    number of its states. *)
Definition transient_fuel : nat := 12.

(** [GameMachine.transition(state, event)], with what it did. *)
Definition transitionLog (st : MachineState) (event : Event)
  : Result (MachineState * list LogItem) :=
  match e_type event with
  | UNKNOWN => Err (NotAccepted UNKNOWN)
  | ty =>
    sel <- selectTransition (candidates (GameMachine (value st)) ty) (context st) event ;;
    match sel with
    | None => resolveTransient transient_fuel st
    | Some t =>
      ' (st1, log1) <- microstep t (context st) event ;;
      ' (st2, log2) <- resolveTransient transient_fuel st1 ;;
      Ok (st2, log1 ++ log2)
    end
  end.

Definition transition (st : MachineState) (event : Event) : Result MachineState :=
  ' (st', _) <- transitionLog st event ;; Ok st'.

(** [GameMachine.withContext(context).initialState]. *)
Definition initialState (context : Context) : MachineState :=
  mkState StartOfTurn (resetContext context).

(** A caller that feeds the events one by one and stops at the first
    error. *)
Fixpoint run (st : MachineState) (events : list Event) : Result MachineState :=
  match events with
  | [] => Ok st
  | e :: es => st' <- transition st e ;; run st' es
  end.

Inductive reachable (c0 : Context) : MachineState -> Prop :=
| reach_init : reachable c0 (initialState c0)
| reach_step st e st' :
    reachable c0 st -> transition st e = Ok st' -> reachable c0 st'.


(* ------------------------------------------------------------------ *)
(** ** Quantities of the game *)

Definition sum_nat {A} (f : A -> nat) (l : list A) : nat :=
  fold_right (fun x acc => (f x + acc)%nat) O l.

(** The unrevealed influence cards of all players. *)
Definition unrevealedCount (context : Context) : nat :=
  sum_nat Player_countInf (players context).

(** All influence cards of all players, face up or down. *)
Definition influenceCount (context : Context) : nat :=
  sum_nat (fun p => length (influence p)) (players context).

(** Deck length plus unrevealed influence. *)
Definition deckPlusUnrevealed (context : Context) : nat :=
  (length (deck context) + unrevealedCount context)%nat.

(** Deck length plus all influence cards: the roles of the closed system. *)
Definition deckPlusInfluence (context : Context) : nat :=
  (length (deck context) + influenceCount context)%nat.


(** The challenge-incorrect predicate in the words of the specification:
    in the block branch the blocker proved the claim, in the action branch
    the actor did. *)
Definition is_blocked_by (c : Context) (action : option string) (r : option Role)
  : Result bool :=
  d <- GameDef_action (def c) action ;; Ok (R_includes r (a_blockedBy d)).

Definition role_allows_action (c : Context) (r : option Role) (action : option string)
  : Result bool :=
  d <- GameDef_action (def c) action ;; Ok (R_includes r (a_roles d)).

Definition challenge_incorrect (c : Context) : Result bool :=
  match blocker c with
  | Some _ => is_blocked_by c (currentAction c) (revealedRole c)
  | None => role_allows_action c (revealedRole c) (currentAction c)
  end.

(** A card that lies face up. *)
Definition faceUp (inf : Influence) : bool := Bool.eqb (revealed inf) true.

(** The actions [Game.applyAction] has no branch for. *)
Definition unapplied_actions : list string :=
  ["coup"; "steal"; "exchange"; "interrogate"].

(** The state a caller holds after sending an event, when it keeps its
    state value on an error. *)
Definition send (st : MachineState) (ev : Event) : MachineState :=
  match transition st ev with
  | Ok st' => st'
  | Err _ => st
  end.

(** Two contexts that start the same game. *)
Definition same_game (c1 c2 : Context) : Prop :=
  def c1 = def c2 /\ seed c1 = seed c2 /\ deck c1 = deck c2
  /\ players c1 = players c2 /\ whoseTurn c1 = whoseTurn c2.


(** The transition [t] is the one the machine takes in state [s]: the
    first enabled eventless one, or the one for the event. *)
Definition selected (s : StateName) (c : Context) (ev : Event) (t : Transition) : Prop :=
  (ev = nullEvent
   /\ selectTransition (always (GameMachine s)) c nullEvent = Ok (Some t))
  \/ (e_type ev <> UNKNOWN
      /\ selectTransition (candidates (GameMachine s) (e_type ev)) c ev = Ok (Some t)).

(** *** Staying inside the model

    The part of the context that decides which reads are defined: the
    rulebook, the turn, the number of players, the action and the player
    indices. *)
Record Control := mkControl {
  k_def : GameDef;
  k_whoseTurn : Z;
  k_size : nat;
  k_currentAction : option string;
  k_target : option Z;
  k_blocker : option Z;
  k_challenger : option Z;
  k_revealer : option Z
}.

Definition control (c : Context) : Control :=
  mkControl (def c) (whoseTurn c) (length (players c)) (currentAction c)
            (target c) (blocker c) (challenger c) (revealer c).

(** What an action makes of it. *)
Definition controlStep (ev : Event) (k : Control) (a : ActionName) : Control :=
  match a with
  | ResetContext =>
    mkControl (k_def k) (k_whoseTurn k) (k_size k) None None None None None
  | SetCurrentAction =>
    mkControl (k_def k) (k_whoseTurn k) (k_size k) (e_action ev) (e_target ev)
              (k_blocker k) (k_challenger k) (k_revealer k)
  | SetChallenger =>
    mkControl (k_def k) (k_whoseTurn k) (k_size k) (k_currentAction k) (k_target k)
              (k_blocker k) (e_player ev) (k_revealer k)
  | SetBlocker =>
    mkControl (k_def k) (k_whoseTurn k) (k_size k) (k_currentAction k) (k_target k)
              (e_player ev) (k_challenger k) (k_revealer k)
  | SetRevealerOfChallenge =>
    mkControl (k_def k) (k_whoseTurn k) (k_size k) (k_currentAction k) (k_target k)
              (k_blocker k) (k_challenger k)
              (match k_blocker k with
               | Some b => Some b
               | None => Some (k_whoseTurn k)
               end)
  | SetRevealerChallenger =>
    mkControl (k_def k) (k_whoseTurn k) (k_size k) (k_currentAction k) (k_target k)
              (k_blocker k) (k_challenger k) (k_challenger k)
  | ClearRevealer =>
    mkControl (k_def k) (k_whoseTurn k) (k_size k) (k_currentAction k) (k_target k)
              (k_blocker k) (k_challenger k) None
  | AdvanceTurn =>
    mkControl (k_def k) (Z.rem (k_whoseTurn k + 1) (Z.of_nat (k_size k))) (k_size k)
              (k_currentAction k) (k_target k) (k_blocker k) (k_challenger k)
              (k_revealer k)
  | ApplyAction =>
    mkControl (k_def k) (k_whoseTurn k) (k_size k) (k_currentAction k) (k_target k)
              (k_blocker k) (k_challenger k)
              (match k_currentAction k with
               | Some a => if String.eqb a "assassinate" then k_target k
                           else k_revealer k
               | None => k_revealer k
               end)
  | RevealInfluence | ReplaceInfluence | PayActionCost => k
  end.

Definition validIdx (k : Control) (o : option Z) : Prop :=
  exists i, o = Some i /\ 0 <= i < Z.of_nat (k_size k).

Definition optValid (k : Control) (o : option Z) : Prop :=
  o = None \/ validIdx k o.

Definition validAction (k : Control) : Prop :=
  GameDef_isValidAction (k_def k) (k_currentAction k) = true
  /\ (k_currentAction k = Some "assassinate" -> validIdx k (k_target k)).

(** What an action and a guard read. *)
Definition preK (a : ActionName) (k : Control) : Prop :=
  match a with
  | AdvanceTurn | ApplyAction => validIdx k (Some (k_whoseTurn k))
  | RevealInfluence | ReplaceInfluence => validIdx k (k_revealer k)
  | PayActionCost => validAction k /\ validIdx k (Some (k_whoseTurn k))
  | _ => True
  end.

Fixpoint allPre (ev : Event) (acts : list ActionName) (k : Control) : Prop :=
  match acts with
  | [] => True
  | a :: acts' => preK a k /\ allPre ev acts' (controlStep ev k a)
  end.

Definition preG (g : option Guard) (k : Control) : Prop :=
  match g with
  | Some AssertCanBlock | Some AssertCanChallenge | Some IfActionHasNoResponse
  | Some IfChallengeIncorrect | Some IfBlockableAction => validAction k
  | Some IfAutoReveal => validIdx k (k_revealer k)
  | _ => True
  end.

(** What holds of the control part in each state. *)
Definition WFK (s : StateName) (k : Control) : Prop :=
  validIdx k (Some (k_whoseTurn k))
  /\ optValid k (k_blocker k)
  /\ match s with
     | StartOfTurn | EndOfTurn | GameOver => True
     | WaitForResponse | Block | ExecCounterReveal | WaitForBlock => validAction k
     | Challenge | ExecRevealOnChallenge =>
       validAction k /\ validIdx k (k_revealer k) /\ validIdx k (k_challenger k)
     | ChallengeIncorrect => validAction k /\ validIdx k (k_revealer k)
     | FinishAction => optValid k (k_revealer k)
     | RevealOnAction => validIdx k (k_revealer k)
     end.

(** A result that is a value or an error the code throws. *)
Definition defined {A} (r : Result A) : Prop :=
  match r with
  | Err (Undefined _) | Err OutOfFuel => False
  | _ => True
  end.

(** The length of the longest chain of eventless transitions from a
    state. *)
Definition rank (s : StateName) : nat :=
  match s with
  | StartOfTurn | Block | WaitForBlock | GameOver => 0
  | EndOfTurn => 1
  | RevealOnAction => 2
  | FinishAction => 3
  | WaitForResponse | ExecCounterReveal => 4
  | ChallengeIncorrect => 5
  | ExecRevealOnChallenge => 6
  | Challenge => 7
  end%nat.

(** [run] with the log of what the machine did. *)
Fixpoint runLog (st : MachineState) (events : list Event)
  : Result (MachineState * list LogItem) :=
  match events with
  | [] => Ok (st, [])
  | e :: es =>
    ' (st1, lg1) <- transitionLog st e ;;
    ' (st2, lg2) <- runLog st1 es ;;
    Ok (st2, lg1 ++ lg2)
  end.

(** The machine with the log of all it did since it was started. *)
Inductive trace (c0 : Context) : MachineState -> list LogItem -> Prop :=
| trace_init :
    trace c0 (initialState c0) [Entered StartOfTurn; Ran ResetContext]
| trace_step st lg ev st' lg' :
    trace c0 st lg -> transitionLog st ev = Ok (st', lg') ->
    trace c0 st' (lg ++ lg').

(** Reading a log: whether the cost of the action of the current turn has
    been paid; [None] once [payActionCost] has run a second time before
    the next turn started. *)
Definition payStep (s : option bool) (i : LogItem) : option bool :=
  match s with
  | None => None
  | Some paid =>
    match i with
    | Entered StartOfTurn => Some false
    | Ran PayActionCost => if paid then None else Some true
    | _ => Some paid
    end
  end.

Definition paidAtMostOnce (lg : list LogItem) : Prop :=
  fold_left payStep lg (Some false) <> None.

(** What the actions of a step make of [blocker]. *)
Definition blockerStep (ev : Event) (b : option Z) (a : ActionName) : option Z :=
  match a with
  | SetBlocker => e_player ev
  | ResetContext => None
  | _ => b
  end.

(** What holds of [blocker] and of the payment in each state. *)
Definition PayInv (s : StateName) (c : Context) (g : option bool) : Prop :=
  exists paid,
    g = Some paid
    /\ match s with
       | StartOfTurn | WaitForResponse => paid = false /\ blocker c = None
       | Block => blocker c <> None
       | Challenge | ExecRevealOnChallenge | ChallengeIncorrect | ExecCounterReveal =>
         paid = true -> blocker c <> None
       | WaitForBlock | FinishAction | RevealOnAction | EndOfTurn | GameOver => True
       end.

(** *** More of the code: seeds, players, the living *)

Definition PRIMES : list Z := [160481183; 179424673; 198491317; 217645177].

(** [R.reduceRight(R.compose, R.identity, R.repeat(f, n))]: [f] composed
    [n] times. *)
Fixpoint compose_n {A} (n : nat) (f : A -> A) (x : A) : A :=
  match n with
  | O => x
  | S n' => f (compose_n n' f x)
  end.

(** [Rand.makeSeed(iseed, n)] for a truthy [iseed] (a number other than 0);
    for a falsy one the code asks [pureRandom.genSeed()] for a seed, which
    is outside the model.  [n || 10]: no [n], or 0, is 10. *)
Definition Rand_makeSeed (iseed : Z) (n : option nat) : Seed :=
  compose_n (match n with
             | Some (S k) => S k
             | _ => 10%nat
             end)
            Rand__nextSeed
            (map (fun p => p * iseed) PRIMES).

(** [Rand._random] with the result of each of its four operations rounded
    by [rnd], in the order of the code,
    [min + ((randUint(seed) / UINT32_MAX) * (max - min))]; [Math.round] of a
    double is exact.  With [binary64] it is the computation of the code;
    with no rounding it is [Rand__random]. *)
Definition Rand__random_rounded (rnd : Q -> Q) (seed : Seed) (min max : Z) : Z :=
  Math_round
    (rnd (inject_Z min
          + rnd (rnd (inject_Z (randUint seed) / inject_Z UINT32_MAX)
                 * rnd (inject_Z max - inject_Z min))))%Q.

Definition Rand_random_rounded (rnd : Q -> Q) (min max : Z) : State Seed Z :=
  fun seed => Ok (Rand__random_rounded rnd seed min max, Rand__nextSeed seed).

(** What the range of [Rand._random] needs of the rounding: it keeps the
    order, and it leaves an integer of at most 53 bits, which is a double,
    as it is. *)
Definition rounding_monotone (rnd : Q -> Q) : Prop :=
  forall x y : Q, (x <= y)%Q -> (rnd x <= rnd y)%Q.

Definition rounding_exact (rnd : Q -> Q) : Prop :=
  forall n : Z, - 2 ^ 53 <= n <= 2 ^ 53 -> (rnd (inject_Z n) == inject_Z n)%Q.

(** The words of a seed are unsigned 32-bit integers. *)
Definition uint32_seed (seed : Seed) : Prop :=
  length seed = 4%nat /\ Forall (fun w => 0 <= w <= UINT32_MAX) seed.

Definition Player_kill (player : Player) : Player :=
  mkPlayer (cash player) (map (fun inf => mkInfluence (role inf) true) (influence player)).

(** [R.addIndex(R.map)(R.pair)]: each element with its index. *)
Fixpoint R_mapIndexed_pair {A} (from : Z) (l : list A) : list (A * Z) :=
  match l with
  | [] => []
  | x :: l' => (x, from) :: R_mapIndexed_pair (from + 1) l'
  end.

(** [Game.opponents]: the indices of the living players other than the one
    whose turn it is. *)
Definition Game_opponents (game : Context) : list Z :=
  map snd
      (filter (fun pair => negb (Player_isDead (fst pair))
                           && negb (snd pair =? whoseTurn game))
              (R_mapIndexed_pair 0 (players game))).

(** All roles of the closed system: the deck and every influence card. *)
Definition rolesInPlay (c : Context) : list Role :=
  deck c ++ flat_map (fun p => map role (influence p)) (players c).

(** The states the machine passes through without resting. *)
Definition transientState (s : StateName) : bool :=
  match s with
  | ExecRevealOnChallenge | ExecCounterReveal | FinishAction | EndOfTurn => true
  | _ => false
  end.

(** No player is in debt. *)
Definition cashNonNegative (c : Context) : Prop :=
  Forall (fun p => 0 <= cash p) (players c).

(** The active player can pay for the current action. *)
Definition canAfford (c : Context) : Prop :=
  exists cost p,
    GameDef_getCost (def c) (currentAction c) = Ok cost
    /\ at_ (players c) (whoseTurn c) = Some p
    /\ cost <= cash p.

(** Cash in each state: nobody is in debt, and until the action is paid
    for (no blocker set, before WaitForBlock) the active player still has
    its cost. *)
Definition CashInv (s : StateName) (c : Context) : Prop :=
  cashNonNegative c
  /\ match s with
     | WaitForResponse => canAfford c
     | Block => blocker c <> None
     | Challenge | ExecRevealOnChallenge | ChallengeIncorrect | ExecCounterReveal =>
       blocker c = None -> canAfford c
     | _ => True
     end.

(** The actions that leave every player's cash as it is. *)
Definition quiet (acts : list ActionName) : bool :=
  forallb (fun a => match a with
                    | ApplyAction | PayActionCost => false
                    | _ => true
                    end) acts.

(** How often a list of actions reveals, and replaces, an influence. *)
Definition revealsOf (acts : list ActionName) : nat :=
  length (filter (fun a => match a with RevealInfluence => true | _ => false end) acts).

Definition replacesOf (acts : list ActionName) : nat :=
  length (filter (fun a => match a with ReplaceInfluence => true | _ => false end) acts).



(* ================================================================== *)
(** * Properties *)

(** ** Rand.shuffle *)

Lemma Math_round_between (x : Q) (lo hi : Z) :
  (inject_Z lo <= x)%Q -> (x <= inject_Z hi)%Q -> lo <= Math_round x <= hi.
Proof.
  intros Hlo Hhi. unfold Math_round. split.
  - rewrite <- (Qfloor_Z lo). apply Qfloor_resp_le.
    apply Qle_trans with (1 := Hlo).
    rewrite <- (Qplus_0_r x) at 1. apply Qplus_le_r. discriminate.
  - assert (H : (inject_Z (Qfloor (x + (1 # 2))) < inject_Z (hi + 1))%Q).
    { apply Qle_lt_trans with (x + (1 # 2))%Q; [apply Qfloor_le|].
      rewrite inject_Z_plus.
      apply Qle_lt_trans with (inject_Z hi + (1 # 2))%Q.
      - apply Qplus_le_l. exact Hhi.
      - apply Qplus_lt_r. reflexivity. }
    rewrite <- Zlt_Qlt in H. lia.
Qed.

Lemma Rand__random_range (seed : Seed) (min max : Z) :
  randUint_uint32 -> min <= max -> min <= Rand__random seed min max <= max.
Proof.
  intros Hr Hmm. unfold Rand__random. specialize (Hr seed).
  set (r := randUint seed) in *.
  assert (HM : (0 < inject_Z UINT32_MAX)%Q) by reflexivity.
  assert (Hd : (0 <= inject_Z (max - min))%Q).
  { change 0%Q with (inject_Z 0). rewrite <- Zle_Qle. lia. }
  assert (Hq0 : (0 <= inject_Z r / inject_Z UINT32_MAX)%Q).
  { apply Qle_shift_div_l; [exact HM|]. rewrite Qmult_0_l.
    change 0%Q with (inject_Z 0). rewrite <- Zle_Qle. lia. }
  assert (Hq1 : (inject_Z r / inject_Z UINT32_MAX <= 1)%Q).
  { apply Qle_shift_div_r; [exact HM|]. rewrite Qmult_1_l.
    rewrite <- Zle_Qle. lia. }
  apply Math_round_between.
  - rewrite <- (Qplus_0_r (inject_Z min)) at 1. apply Qplus_le_r.
    apply Qmult_le_0_compat; assumption.
  - replace max with (min + (max - min)) at 2 by lia.
    rewrite inject_Z_plus. apply Qplus_le_r.
    rewrite <- (Qmult_1_l (inject_Z (max - min))) at 2.
    apply Qmult_le_compat_r; assumption.
Qed.

Lemma at_Some_split {A} (l : list A) (i : Z) (x : A) :
  at_ l i = Some x ->
  exists l1 l2, l = l1 ++ x :: l2 /\ length l1 = Z.to_nat i.
Proof.
  unfold at_. destruct (i <? 0); [discriminate|]. intros H.
  apply nth_error_split in H. exact H.
Qed.

Lemma R_remove_middle {A} (l1 l2 : list A) (x : A) :
  R_remove (length l1) 1 (l1 ++ x :: l2) = l1 ++ l2.
Proof.
  unfold R_remove. rewrite firstn_app, Nat.sub_diag, firstn_all. simpl.
  rewrite app_nil_r. f_equal.
  rewrite skipn_app. rewrite skipn_all2 by lia. simpl.
  replace (length l1 + 1 - length l1)%nat with 1%nat by lia. reflexivity.
Qed.

Lemma at_Some_remove {A} (l : list A) (i : Z) (x : A) :
  at_ l i = Some x ->
  Permutation l (x :: R_remove (Z.to_nat i) 1 l)
  /\ S (length (R_remove (Z.to_nat i) 1 l)) = length l.
Proof.
  intros H. destruct (at_Some_split _ _ H) as (l1 & l2 & -> & Hlen).
  rewrite <- Hlen, R_remove_middle. split.
  - symmetry. apply Permutation_middle.
  - rewrite !length_app. simpl. lia.
Qed.

Lemma at_in_range {A} (l : list A) (i : Z) :
  0 <= i < Z.of_nat (length l) -> exists x, at_ l i = Some x.
Proof.
  intros Hi. unfold at_. destruct (Z.ltb_spec i 0); [lia|].
  destruct (nth_error l (Z.to_nat i)) eqn:E; [eauto|].
  apply nth_error_None in E. lia.
Qed.

(** Whatever the generator, a shuffle that returns returns a permutation. *)
Lemma Rand_shuffle_fuel_Permutation {A} (fuel : nat) :
  forall (l l' : list A) (seed seed' : Seed),
    Rand_shuffle_fuel fuel l seed = Ok (l', seed') -> Permutation l l'.
Proof.
  induction fuel as [|fuel IH]; intros l l' seed seed'; simpl.
  - destruct (length l <=? 1)%nat; [|discriminate].
    unfold State_of. intros [= -> _]. reflexivity.
  - destruct (length l <=? 1)%nat.
    + unfold State_of. intros [= -> _]. reflexivity.
    + unfold chain, Rand_random.
      destruct (at_ l _) as [x|] eqn:Hat; [|discriminate].
      unfold State_map, chain.
      destruct (Rand_shuffle_fuel fuel _ _) as [[tail s1]|] eqn:Hrec; [|discriminate].
      unfold State_of. intros [= <- _].
      apply at_Some_remove in Hat. destruct Hat as [Hp _].
      rewrite Hp. constructor. eapply IH. exact Hrec.
Qed.

(** With a generator of unsigned 32-bit integers the recursion ends, and
    fuel beyond the length of the list changes nothing. *)
Lemma Rand_shuffle_fuel_total {A} (Hr : randUint_uint32) (fuel : nat) :
  forall (l : list A) (seed : Seed),
    (length l <= fuel)%nat ->
    exists l' seed',
      Rand_shuffle_fuel fuel l seed = Ok (l', seed')
      /\ Rand_shuffle l seed = Ok (l', seed').
Proof.
  unfold Rand_shuffle.
  induction fuel as [|fuel IH]; intros l seed Hlen.
  - destruct l; [|simpl in Hlen; lia]. simpl. eexists _, _. split; reflexivity.
  - destruct (length l) as [|n] eqn:En.
    { destruct l; [|discriminate]. simpl. eexists _, _. split; reflexivity. }
    cbn [Rand_shuffle_fuel]. rewrite En.
    destruct (S n <=? 1)%nat eqn:E1.
    { eexists _, _. split; reflexivity. }
    apply Nat.leb_gt in E1.
    unfold chain, Rand_random.
    set (i := Rand__random seed 0 (Z.of_nat (S n) - 1)).
    assert (Hi : 0 <= i <= Z.of_nat (S n) - 1)
      by (apply Rand__random_range; [exact Hr | lia]).
    destruct (@at_in_range _ l i) as [x Hx]; [lia|]. rewrite Hx.
    destruct (at_Some_remove _ _ Hx) as [_ Hl].
    assert (Hn : length (R_remove (Z.to_nat i) 1 l) = n) by lia.
    destruct (IH (R_remove (Z.to_nat i) 1 l) (Rand__nextSeed seed)) as (t & s1 & H1 & H2);
      [lia|].
    rewrite Hn in H2.
    unfold State_map, chain in *. rewrite H1, H2.
    eexists _, _. split; reflexivity.
Qed.

(** ** Invariants of the machine

    A property of the state, the context and a ghost value folded over the
    log holds after every transition as soon as every microstep the
    machine can select keeps it. *)
Section Invariant.

Variable G : Type.
Variable gstep : G -> LogItem -> G.
Variable Inv : StateName -> Context -> G -> Prop.

Hypothesis Inv_microstep :
  forall s c g ev t st' lg,
    Inv s c g -> selected s c ev t -> microstep t c ev = Ok (st', lg) ->
    Inv (value st') (context st') (fold_left gstep lg g).

Lemma resolveTransient_invariant (fuel : nat) :
  forall st g st' lg,
    Inv (value st) (context st) g ->
    resolveTransient fuel st = Ok (st', lg) ->
    Inv (value st') (context st') (fold_left gstep lg g).
Proof.
  induction fuel as [|fuel IH]; intros st g st' lg HI; simpl; [discriminate|].
  destruct (selectTransition _ _ _) as [[t|]|] eqn:Hsel; simpl; try discriminate.
  - destruct (microstep t (context st) nullEvent) as [[st1 log1]|] eqn:Hm;
      simpl; [|discriminate].
    destruct (resolveTransient fuel st1) as [[st2 log2]|] eqn:Hr; simpl; [|discriminate].
    intros [= <- <-]. rewrite fold_left_app.
    eapply IH; [|exact Hr].
    eapply Inv_microstep; [exact HI| |exact Hm]. left. auto.
  - intros [= <- <-]. exact HI.
Qed.

Lemma transitionLog_invariant :
  forall st ev g st' lg,
    Inv (value st) (context st) g ->
    transitionLog st ev = Ok (st', lg) ->
    Inv (value st') (context st') (fold_left gstep lg g).
Proof.
  intros st ev g st' lg HI. unfold transitionLog.
  assert (Hgen : e_type ev <> UNKNOWN ->
    (sel <- selectTransition (candidates (GameMachine (value st)) (e_type ev))
                             (context st) ev ;;
     match sel with
     | None => resolveTransient transient_fuel st
     | Some t =>
       ' (st1, log1) <- microstep t (context st) ev ;;
       ' (st2, log2) <- resolveTransient transient_fuel st1 ;;
       Ok (st2, log1 ++ log2)
     end) = Ok (st', lg) ->
    Inv (value st') (context st') (fold_left gstep lg g)).
  { intros Hty.
    destruct (selectTransition _ _ _) as [[t|]|] eqn:Hsel; cbn [bindR]; try discriminate.
    - destruct (microstep t (context st) ev) as [[st1 log1]|] eqn:Hm;
        cbn [bindR]; [|discriminate].
      destruct (resolveTransient transient_fuel st1) as [[st2 log2]|] eqn:Hr;
        cbn [bindR]; [|discriminate].
      intros [= <- <-]. rewrite fold_left_app.
      eapply resolveTransient_invariant; [|exact Hr].
      eapply Inv_microstep; [exact HI| |exact Hm]. right. auto.
    - apply resolveTransient_invariant. exact HI. }
  destruct (e_type ev) eqn:Ety; try (apply Hgen; discriminate). discriminate.
Qed.

End Invariant.

(** ** What the lenses and the deck operations do *)

Lemma R_over_Player_lens_inv (idx : option Z) (f : Player -> Result Player)
      (c c' : Context) :
  R_over (Player_lens idx) f c = Ok c' ->
  exists i p p',
    idx = Some i /\ at_ (players c) i = Some p /\ f p = Ok p'
    /\ c' = with_players (R_update (Z.to_nat i) p' (players c)) c.
Proof.
  unfold R_over, Player_lens; simpl.
  destruct idx as [i|]; simpl; [|discriminate].
  destruct (at_ (players c) i) as [p|] eqn:Hat; simpl; [|discriminate].
  destruct (f p) as [p'|] eqn:Hf; simpl; [|discriminate].
  intros [= <-]. exists i, p, p'. auto.
Qed.

Lemma R_over_activePlayerLens_inv (f : Player -> Result Player) (c c' : Context) :
  R_over activePlayerLens f c = Ok c' ->
  exists p p',
    at_ (players c) (whoseTurn c) = Some p /\ f p = Ok p'
    /\ c' = with_players (R_update (Z.to_nat (whoseTurn c)) p' (players c)) c.
Proof.
  intros H.
  destruct (@R_over_Player_lens_inv (Some (whoseTurn c)) f c c' H)
    as (i & p & p' & [= <-] & H1 & H2 & H3).
  exists p, p'. auto.
Qed.

Lemma redealPlayerRole_inv (idx : option Z) (oldRole : option Role) (c c' : Context) :
  redealPlayerRole idx oldRole c = Ok c' ->
  exists r i p top rest s' k,
    oldRole = Some r /\ idx = Some i /\ at_ (players c) i = Some p
    /\ Rand_shuffle (r :: deck c) (seed c) = Ok (top :: rest, s')
    /\ R_findIndex (Influence_equals (Some r) false) (influence p) = Some k
    /\ c' = mkContext (def c) s' rest (whoseTurn c)
              (R_update (Z.to_nat i)
                 (mkPlayer (cash p)
                    (R_adjust k (fun inf => mkInfluence top (revealed inf)) (influence p)))
                 (players c))
              (currentAction c) (target c) (blocker c) (challenger c)
              (revealer c) (revealedRole c).
Proof.
  unfold redealPlayerRole, execWith, Game_pushDeck_s.
  destruct oldRole as [r|]; [|discriminate].
  unfold Game_shuffleDeck_s, Game_popDeck_s, liftDeck, liftRand, liftPlayer,
    processing, chain, State_map, State_get, State_put, State_of, State_fail,
    chain; simpl.
  destruct (Rand_shuffle (r :: deck c) (seed c)) as [[d' s']|] eqn:Hsh; simpl;
    [|discriminate].
  destruct d' as [|top rest]; simpl; [discriminate|].
  destruct idx as [i|]; simpl; [|discriminate].
  destruct (at_ (players c) i) as [p|] eqn:Hat; simpl; [|discriminate].
  unfold Player_swapRole_s, chain, State_get, State_put, State_fail; simpl.
  destruct (R_findIndex _ (influence p)) as [k|] eqn:Hk; simpl; [|discriminate].
  intros [= <-]. exists r, i, p, top, rest, s', k. repeat split; auto.
Qed.

(** ** The closed system of roles *)

Lemma length_R_adjust {A} (fn : A -> A) (l : list A) :
  forall idx, length (R_adjust idx fn l) = length l.
Proof.
  induction l as [|x l IH]; intros [|i]; simpl; auto.
Qed.

Lemma sum_nat_R_adjust {A} (f : A -> nat) (fn : A -> A) (l : list A) :
  forall idx,
    (forall x, nth_error l idx = Some x -> f (fn x) = f x) ->
    sum_nat f (R_adjust idx fn l) = sum_nat f l.
Proof.
  induction l as [|x l IH]; intros [|i] H; simpl; auto.
Qed.

Lemma at_nth_error {A} (l : list A) (i : Z) (x : A) :
  at_ l i = Some x -> nth_error l (Z.to_nat i) = Some x.
Proof.
  unfold at_. destruct (i <? 0); [discriminate|auto].
Qed.

Lemma sum_nat_R_update {A} (f : A -> nat) (l : list A) (i : Z) (x x' : A) :
  at_ l i = Some x -> f x' = f x ->
  sum_nat f (R_update (Z.to_nat i) x' l) = sum_nat f l.
Proof.
  intros Hat Hf. unfold R_update. apply sum_nat_R_adjust.
  intros y Hy. apply at_nth_error in Hat. congruence.
Qed.

Lemma Player_revealRole_influence (r : option Role) (p p' : Player) :
  Player_revealRole r p = Ok p' -> length (influence p') = length (influence p).
Proof.
  unfold Player_revealRole. destruct (R_findIndex _ _); [|discriminate].
  intros [= <-]. simpl. apply length_R_adjust.
Qed.

Lemma Player_unrevealRole_influence (r : option Role) (p p' : Player) :
  Player_unrevealRole r p = Ok p' -> length (influence p') = length (influence p).
Proof.
  unfold Player_unrevealRole. destruct (R_findIndex _ _); [|discriminate].
  intros [= <-]. simpl. apply length_R_adjust.
Qed.

Lemma R_over_Player_lens_cards (idx : option Z) (f : Player -> Result Player)
      (c c' : Context) :
  (forall p p', f p = Ok p' -> length (influence p') = length (influence p)) ->
  R_over (Player_lens idx) f c = Ok c' ->
  deckPlusInfluence c' = deckPlusInfluence c.
Proof.
  intros Hf H. apply R_over_Player_lens_inv in H.
  destruct H as (i & p & p' & -> & Hat & Hfp & ->).
  unfold deckPlusInfluence, influenceCount. simpl.
  erewrite sum_nat_R_update; eauto.
Qed.

Lemma redealPlayerRole_cards (idx : option Z) (oldRole : option Role) (c c' : Context) :
  redealPlayerRole idx oldRole c = Ok c' ->
  deckPlusInfluence c' = deckPlusInfluence c.
Proof.
  intros H. apply redealPlayerRole_inv in H.
  destruct H as (r & i & p & top & rest & s' & k & -> & -> & Hat & Hsh & Hk & ->).
  unfold deckPlusInfluence, influenceCount. simpl.
  erewrite sum_nat_R_update; [|exact Hat|simpl; apply length_R_adjust].
  apply Rand_shuffle_fuel_Permutation in Hsh. apply Permutation_length in Hsh.
  simpl in Hsh. lia.
Qed.

(** Every action of the machine keeps the number of roles in the deck and
    on the players' influence cards. *)
Lemma execAction_cards (a : ActionName) (c c' : Context) (ev : Event) :
  execAction a c ev = Ok c' -> deckPlusInfluence c' = deckPlusInfluence c.
Proof.
  destruct a; simpl; try (intros [= <-]; reflexivity).
  - (* advanceTurn *)
    unfold advanceTurn. destruct (players c) eqn:E; [discriminate|].
    intros [= <-]. unfold deckPlusInfluence, influenceCount. simpl. reflexivity.
  - (* applyAction *)
    unfold applyAction, assign, Game_applyAction.
    repeat match goal with
           | |- context [if ?b then _ else _] => destruct b
           end;
      try (destruct (R_over activePlayerLens _ c) as [c1|] eqn:Hover; simpl;
           [|discriminate]; intros [= <-];
           eapply R_over_Player_lens_cards; [|exact Hover];
           intros p p' [= <-]; reflexivity);
      simpl; intros [= <-]; reflexivity.
  - (* revealInfluence *)
    unfold revealInfluence.
    match goal with |- (r <- ?m ;; _) = _ -> _ => destruct m as [r|]; simpl; [|discriminate] end.
    destruct (R_over _ _ c) as [c1|] eqn:Hover; simpl; [|discriminate].
    intros [= <-].
    apply R_over_Player_lens_cards in Hover; [|apply Player_revealRole_influence].
    exact Hover.
  - (* replaceInfluence *)
    unfold replaceInfluence.
    destruct (R_over _ _ c) as [c1|] eqn:Hover; simpl; [|discriminate].
    intros Hre. apply redealPlayerRole_cards in Hre.
    apply R_over_Player_lens_cards in Hover; [|apply Player_unrevealRole_influence].
    congruence.
  - (* payActionCost *)
    unfold payActionCost.
    destruct (GameDef_getCost _ _) as [cost|]; simpl; [|discriminate].
    intros Hover. eapply R_over_Player_lens_cards; [|exact Hover].
    intros p p' [= <-]. reflexivity.
Qed.

Lemma updateContext_cards (acts : list ActionName) (ev : Event) :
  forall c c', updateContext acts c ev = Ok c' ->
               deckPlusInfluence c' = deckPlusInfluence c.
Proof.
  induction acts as [|a acts IH]; intros c c'; simpl.
  - intros [= <-]. reflexivity.
  - destruct (execAction a c ev) as [c1|] eqn:Ha; simpl; [|discriminate].
    intros H. apply IH in H. apply execAction_cards in Ha. congruence.
Qed.

Lemma transition_cards (st st' : MachineState) (ev : Event) :
  transition st ev = Ok st' ->
  deckPlusInfluence (context st') = deckPlusInfluence (context st).
Proof.
  unfold transition.
  destruct (transitionLog st ev) as [[st1 lg]|] eqn:Ht; simpl; [|discriminate].
  intros [= <-].
  apply (@transitionLog_invariant unit (fun g _ => g)
           (fun _ c _ => deckPlusInfluence c = deckPlusInfluence (context st)))
    with (g := tt) in Ht; auto.
  intros s c g e t st2 lg2 HI _. unfold microstep.
  destruct (updateContext _ c e) as [c1|] eqn:Hu; simpl; [|discriminate].
  intros [= <- _]. simpl. apply updateContext_cards in Hu. congruence.
Qed.

(** C6: for every seed and every list, [Rand.shuffle] returns, and what it
    returns is a permutation of the list (no element lost, none
    duplicated); the list and the seed it returns are determined by the
    seed and the list alone: every run, with whatever recursion depth is
    allowed beyond the length of the list, returns them. *)
Theorem Rand_shuffle_permutation {A} (Hr : randUint_uint32) (seed : Seed) (l : list A) :
  exists l' seed',
    Rand_shuffle l seed = Ok (l', seed')
    /\ Permutation l l'
    /\ length l' = length l
    /\ (forall fuel, (length l <= fuel)%nat ->
                     Rand_shuffle_fuel fuel l seed = Ok (l', seed'))
    /\ (forall r, Rand_shuffle l seed = Ok r -> r = (l', seed')).
Proof.
  destruct (Rand_shuffle_fuel_total Hr l seed (Nat.le_refl _)) as (l' & seed' & H1 & H2).
  exists l', seed'.
  assert (Hp : Permutation l l') by (eapply Rand_shuffle_fuel_Permutation; exact H1).
  repeat split.
  - exact H2.
  - exact Hp.
  - symmetry. apply Permutation_length. exact Hp.
  - intros fuel Hfuel.
    destruct (Rand_shuffle_fuel_total Hr l seed Hfuel) as (l2 & seed2 & H3 & H4).
    rewrite H3. rewrite H2 in H4. symmetry. exact H4.
  - intros r Hrun. rewrite H2 in Hrun. injection Hrun as <-. reflexivity.
Qed.

Lemma run_reachable (c0 : Context) (events : list Event) :
  forall st st', reachable c0 st -> run st events = Ok st' -> reachable c0 st'.
Proof.
  induction events as [|e es IH]; intros st st' Hr; simpl.
  - intros [= <-]. exact Hr.
  - destruct (transition st e) as [st1|] eqn:Ht; simpl; [|discriminate].
    apply IH. eapply reach_step; eauto.
Qed.

(** C1, as the code has it: in every reachable state the deck length plus
    the number of influence cards of all players, revealed or not, is what
    it was in the initial context, and every transition keeps that sum.  (A
    reveal turns a card face up and leaves it with its player, so the sum
    over the unrevealed cards alone goes down.) *)
Theorem deckPlusInfluence_constant (c0 : Context) (st : MachineState) :
  reachable c0 st ->
  deckPlusInfluence (context st) = deckPlusInfluence c0
  /\ forall ev st', transition st ev = Ok st' ->
                    deckPlusInfluence (context st') = deckPlusInfluence (context st).
Proof.
  intros Hr. split; [|intros ev st'; apply transition_cards].
  induction Hr as [|st e st' Hr IH Ht].
  - reflexivity.
  - apply transition_cards in Ht. congruence.
Qed.

(** ** The branches of ExecRevealOnChallenge *)

Lemma ifChallengeIncorrect_spec (c : Context) :
  ifChallengeIncorrect c = challenge_incorrect c.
Proof.
  unfold ifChallengeIncorrect, challenge_incorrect, is_blocked_by, role_allows_action,
    GameDef_isBlockedBy, GameDef_ifRoleAllowsAction, GameDef_getBlockingRoles,
    GameDef_getRequiredRoles.
  destruct (blocker c); destruct (GameDef_action (def c) (currentAction c)); reflexivity.
Qed.

(** C4: on entry to ExecRevealOnChallenge the machine branches in the
    order listed: to ChallengeIncorrect when the challenge was incorrect
    (the revealed role blocks the action when a blocker is set, allows the
    action otherwise); else to FinishAction when a blocker is set; else to
    EndOfTurn.  The eventless transition to that state is the one selected;
    the machine takes it: resolving the eventless transitions from
    ExecRevealOnChallenge is entering that state and going on from there,
    and so is a transition whose event enters ExecRevealOnChallenge; the
    state entered next in the log is that state. *)
Theorem ExecRevealOnChallenge_branches (c : Context) (incorrect : bool) :
  challenge_incorrect c = Ok incorrect ->
  exists t,
    selectTransition (always (GameMachine ExecRevealOnChallenge)) c nullEvent = Ok (Some t)
    /\ t_target t = (if incorrect then ChallengeIncorrect
                     else match blocker c with
                          | Some _ => FinishAction
                          | None => EndOfTurn
                          end)
    /\ actions t = []
    /\ (forall st' lg, microstep t c nullEvent = Ok (st', lg) ->
                       value st' = t_target t
                       /\ exists lg', lg = Entered (t_target t) :: lg')
    /\ (forall fuel,
           resolveTransient (S fuel) (mkState ExecRevealOnChallenge c)
           = (' (st1, log1) <- microstep t c nullEvent ;;
              ' (st2, log2) <- resolveTransient fuel st1 ;;
              Ok (st2, log1 ++ log2)))
    /\ (forall fuel st' lg,
           resolveTransient (S fuel) (mkState ExecRevealOnChallenge c) = Ok (st', lg) ->
           exists lg', lg = Entered (t_target t) :: lg')
    /\ (forall st ev t0 log0,
           e_type ev <> UNKNOWN ->
           selectTransition (candidates (GameMachine (value st)) (e_type ev))
                            (context st) ev = Ok (Some t0) ->
           microstep t0 (context st) ev = Ok (mkState ExecRevealOnChallenge c, log0) ->
           transitionLog st ev
           = (' (st1, log1) <- microstep t c nullEvent ;;
              ' (st2, log2) <- resolveTransient (pred transient_fuel) st1 ;;
              Ok (st2, log0 ++ log1 ++ log2))
           /\ forall st' lg, transitionLog st ev = Ok (st', lg) ->
                             exists lg', lg = log0 ++ Entered (t_target t) :: lg').
Proof.
  intros H. rewrite <- ifChallengeIncorrect_spec in H.
  assert (Hsel : exists t,
             selectTransition (always (GameMachine ExecRevealOnChallenge)) c nullEvent
             = Ok (Some t)
             /\ t_target t = (if incorrect then ChallengeIncorrect
                              else match blocker c with
                                   | Some _ => FinishAction
                                   | None => EndOfTurn
                                   end)
             /\ actions t = []).
  { simpl. rewrite H. simpl. destruct incorrect; simpl.
    - eexists. repeat split.
    - unfold ifActionWasBlocked. destruct (blocker c); simpl; eexists; repeat split. }
  destruct Hsel as (t & Hsel & Htgt & Hact). exists t.
  assert (Hmicro : forall st' lg, microstep t c nullEvent = Ok (st', lg) ->
                                  value st' = t_target t
                                  /\ exists lg', lg = Entered (t_target t) :: lg').
  { intros st' lg. unfold microstep.
    destruct (updateContext _ _ _); cbn [bindR]; [|intros Hx; discriminate Hx].
    intros [= <- <-]. split; [reflexivity|]. rewrite Hact. simpl. eauto. }
  assert (Hres : forall fuel,
             resolveTransient (S fuel) (mkState ExecRevealOnChallenge c)
             = (' (st1, log1) <- microstep t c nullEvent ;;
                ' (st2, log2) <- resolveTransient fuel st1 ;;
                Ok (st2, log1 ++ log2))).
  { intros fuel. cbn [resolveTransient value context]. rewrite Hsel. reflexivity. }
  assert (Hlog : forall fuel st' lg,
             resolveTransient (S fuel) (mkState ExecRevealOnChallenge c) = Ok (st', lg) ->
             exists lg', lg = Entered (t_target t) :: lg').
  { intros fuel st' lg. rewrite Hres.
    destruct (microstep t c nullEvent) as [[st1 log1]|] eqn:Hm; cbn [bindR];
      [|intros Hx; discriminate Hx].
    destruct (resolveTransient fuel st1) as [[st2 log2]|]; cbn [bindR];
      [|intros Hx; discriminate Hx].
    intros [= _ <-]. destruct (Hmicro _ _ eq_refl) as [_ [lg' ->]]. simpl. eauto. }
  repeat (split; [assumption|]).
  intros st ev t0 log0 Hty Hsel0 Hm0.
  assert (Heq : transitionLog st ev
                = (' (st1, log1) <- microstep t c nullEvent ;;
                   ' (st2, log2) <- resolveTransient (pred transient_fuel) st1 ;;
                   Ok (st2, log0 ++ log1 ++ log2))).
  { unfold transitionLog.
    assert (Hgen :
      (sel <- selectTransition (candidates (GameMachine (value st)) (e_type ev))
                               (context st) ev ;;
       match sel with
       | None => resolveTransient transient_fuel st
       | Some t =>
         ' (st1, log1) <- microstep t (context st) ev ;;
         ' (st2, log2) <- resolveTransient transient_fuel st1 ;;
         Ok (st2, log1 ++ log2)
       end)
      = (' (st1, log1) <- microstep t c nullEvent ;;
         ' (st2, log2) <- resolveTransient (pred transient_fuel) st1 ;;
         Ok (st2, log0 ++ log1 ++ log2))).
    { rewrite Hsel0. cbn [bindR]. rewrite Hm0. cbn [bindR].
      change transient_fuel with (S (pred transient_fuel)) at 1. rewrite Hres.
      destruct (microstep t c nullEvent) as [[st1 log1]|]; cbn [bindR]; [|reflexivity].
      destruct (resolveTransient (pred transient_fuel) st1) as [[st2 log2]|];
        cbn [bindR]; reflexivity. }
    destruct (e_type ev); try exact Hgen. congruence. }
  split; [exact Heq|].
  intros st' lg. rewrite Heq.
  destruct (microstep t c nullEvent) as [[st1 log1]|] eqn:Hm; cbn [bindR];
    [|intros Hx; discriminate Hx].
  destruct (resolveTransient (pred transient_fuel) st1) as [[st2 log2]|]; cbn [bindR];
    [|intros Hx; discriminate Hx].
  intros [= _ <-]. destruct (Hmicro _ _ eq_refl) as [_ [lg' ->]]. simpl. eauto.
Qed.

(** ** Rejected events *)

Lemma candidates_single (s : StateName) (ty : EventType) (t : Transition) :
  In t (candidates (GameMachine s) ty) -> candidates (GameMachine s) ty = [t].
Proof.
  destruct s, ty; simpl; intros H;
    repeat match goal with
           | H : _ \/ _ |- _ => destruct H as [H|H]
           | H : False |- _ => destruct H
           end; subst; reflexivity.
Qed.

Lemma candidates_known (s : StateName) (ty : EventType) (t : Transition) :
  In t (candidates (GameMachine s) ty) -> ty <> UNKNOWN /\ ty <> NULL_EVENT.
Proof.
  destruct s, ty; simpl; intros H; try (destruct H; fail);
    split; discriminate.
Qed.

(** C7: when the guard of the transition a state has for an event throws,
    [transition] throws in turn, with the message of the guard, whatever
    the state and the event; no action runs, the caller's state value is
    what it was, and the event is not taken as a no-op. *)
Theorem guard_rejection (st : MachineState) (ev : Event) (t : Transition) (g : Guard)
        (m : Message) :
  In t (candidates (GameMachine (value st)) (e_type ev)) ->
  cond t = Some g ->
  evalGuard g (context st) ev = Err (Raised m) ->
  transitionLog st ev = Err (IllegalEvent m)
  /\ transition st ev = Err (IllegalEvent m)
  /\ send st ev = st.
Proof.
  intros Hin Hc Hg.
  assert (Hlog : transitionLog st ev = Err (IllegalEvent m)).
  { unfold transitionLog.
    destruct (candidates_known _ _ _ Hin) as [Hk _].
    pose proof (candidates_single _ _ _ Hin) as Hs.
    destruct (e_type ev) eqn:Ety; try congruence;
      rewrite Hs; cbn [selectTransition]; unfold evaluateGuard;
      rewrite Hc, Hg; reflexivity. }
  unfold send, transition. rewrite Hlog. simpl. auto.
Qed.

(** ** Determinism *)

Lemma initialState_same_game (c1 c2 : Context) :
  same_game c1 c2 -> initialState c1 = initialState c2.
Proof.
  intros (H1 & H2 & H3 & H4 & H5). destruct c1, c2; simpl in *; subst.
  reflexivity.
Qed.

(** C8: two runs that start the same game (same GameDef, seed, deck,
    players and turn) and receive the same events end in the same state,
    deck order and seed included, or fail alike; [transition] has one
    result for a state and an event. *)
Theorem run_deterministic (c1 c2 : Context) (events : list Event) :
  same_game c1 c2 ->
  run (initialState c1) events = run (initialState c2) events
  /\ (forall st1 st2,
         run (initialState c1) events = Ok st1 ->
         run (initialState c2) events = Ok st2 ->
         st1 = st2 /\ deck (context st1) = deck (context st2))
  /\ (forall st ev r1 r2,
         transition st ev = r1 -> transition st ev = r2 -> r1 = r2).
Proof.
  intros Hs. rewrite (initialState_same_game Hs).
  split; [reflexivity|]. split.
  - intros st1 st2 H1 H2. rewrite H1 in H2. injection H2 as <-. auto.
  - intros st ev r1 r2 <- <-. reflexivity.
Qed.

(** ** Where the machine rests *)

Lemma resolveTransient_rest (fuel : nat) :
  forall st st' lg,
    resolveTransient fuel st = Ok (st', lg) ->
    selectTransition (always (GameMachine (value st'))) (context st') nullEvent = Ok None.
Proof.
  induction fuel as [|fuel IH]; intros st st' lg; simpl; [discriminate|].
  destruct (selectTransition _ _ _) as [[t|]|] eqn:Hsel; simpl; try discriminate.
  - destruct (microstep t (context st) nullEvent) as [[st1 log1]|]; simpl; [|discriminate].
    destruct (resolveTransient fuel st1) as [[st2 log2]|] eqn:Hr; simpl; [|discriminate].
    intros [= <- _]. eapply IH. exact Hr.
  - intros [= <- _]. exact Hsel.
Qed.

Lemma transition_rest (st st' : MachineState) (ev : Event) :
  transition st ev = Ok st' ->
  selectTransition (always (GameMachine (value st'))) (context st') nullEvent = Ok None.
Proof.
  unfold transition, transitionLog.
  destruct (e_type ev);
    try (destruct (selectTransition _ _ ev) as [[t|]|]; cbn [bindR]; try discriminate;
         [ destruct (microstep t (context st) ev) as [[st1 log1]|];
           cbn [bindR]; [|discriminate]
         | ];
         match goal with
         | |- context [resolveTransient ?f ?s] =>
           destruct (resolveTransient f s) as [[st2 log2]|] eqn:Hr;
           cbn [bindR]; [|discriminate]
         end;
         intros [= <-]; eapply resolveTransient_rest; exact Hr).
  discriminate.
Qed.

(** ** Auto-reveal *)




Lemma at_R_update_same {A} (l : list A) (i : Z) (x y : A) :
  at_ l i = Some x -> at_ (R_update (Z.to_nat i) y l) i = Some y.
Proof.
  unfold at_. destruct (i <? 0); [discriminate|].
  unfold R_update. generalize (Z.to_nat i). clear i.
  induction l as [|a l IH]; intros [|n]; simpl; try discriminate; auto.
Qed.



(** ** Actions without a branch in Game.applyAction *)

Lemma assertValidPlayer_inv (c : Context) (ev : Event) (b : bool) :
  assertValidPlayer c ev = Ok b ->
  exists i, e_player ev = Some i /\ 0 <= i < Z.of_nat (length (players c)).
Proof.
  unfold assertValidPlayer, isValidPlayerIdx, isIndex, throw.
  destruct (e_player ev) as [i|]; simpl; [|discriminate].
  destruct (0 <=? i) eqn:E1; destruct (i <? Z.of_nat (length (players c))) eqn:E2;
    simpl; try discriminate.
  intros _. exists i. split; [reflexivity|]. lia.
Qed.

Lemma assertCanStartAction_players (c : Context) (ev : Event) (b : bool) :
  assertCanStartAction c ev = Ok b -> players c <> [].
Proof.
  unfold assertCanStartAction.
  destruct (assertValidPlayer c ev) as [b0|] eqn:Hv; simpl; [|discriminate].
  intros _. apply assertValidPlayer_inv in Hv. destruct Hv as (i & _ & Hi).
  intros E. rewrite E in Hi. simpl in Hi. lia.
Qed.

Lemma Game_applyAction_unapplied (c : Context) (a : string) :
  currentAction c = Some a -> In a unapplied_actions ->
  Game_applyAction c = Ok None.
Proof.
  intros Hc Hin. unfold Game_applyAction, Game_actionEq. rewrite Hc.
  simpl in Hin.
  repeat match goal with
         | H : _ \/ _ |- _ => destruct H as [H|H]
         | H : False |- _ => destruct H
         end; subst a; reflexivity.
Qed.

(** C9, as the code has it: [Game.applyAction] has no branch for coup,
    steal, exchange and interrogate and returns [undefined] for them; an
    ACTION coup that passes the guard of StartOfTurn reaches that call (coup
    has no role and no block, so FinishAction is entered at once).  The
    [assign] merges the [undefined] as no change: the machine goes on with
    the context it had, nobody pays or reveals, and the turn ends. *)
Theorem applyAction_unapplied (st : MachineState) (ev : Event) :
  value st = StartOfTurn -> e_type ev = ACTION -> e_action ev = Some "coup" ->
  assertCanStartAction (context st) ev = Ok true ->
  (forall c a, currentAction c = Some a -> In a unapplied_actions ->
               Game_applyAction c = Ok None /\ applyAction c = Ok c)
  /\ exists st' lg,
      transitionLog st ev = Ok (st', lg)
      /\ In (Ran ApplyAction) lg
      /\ ~ In (Ran PayActionCost) lg
      /\ players (context st') = players (context st)
      /\ deck (context st') = deck (context st)
      /\ (value st' = StartOfTurn \/ value st' = GameOver).
Proof.
  intros Hv Hty Ha Hg. split.
  { intros c a Hc Hin. pose proof (Game_applyAction_unapplied c Hc Hin) as H.
    unfold applyAction, assign. rewrite H. auto. }
  destruct st as [v c]. simpl in *. subst v.
  pose proof (assertCanStartAction_players _ _ Hg) as Hne.
  unfold transitionLog. rewrite Hty.
  cbn [value context candidates GameMachine on filter map fst snd EventType_eqb
       selectTransition cond evaluateGuard evalGuard].
  rewrite Hg. cbn [bindR].
  unfold microstep.
  cbn [actions t_target entry GameMachine app updateContext execAction bindR map].
  unfold transient_fuel, setCurrentAction. rewrite Ha.
  cbn.
  destruct (_ =? 1)%nat; cbn.
  - eexists _, _. split; [reflexivity|]. cbn.
    repeat split; auto 10.
    intros H. repeat (destruct H as [H|H]; [discriminate|]). exact H.
  - unfold microstep. cbn. unfold advanceTurn. cbn.
    destruct (players c) eqn:E; [congruence|]. cbn.
    eexists _, _. split; [reflexivity|]. cbn. rewrite E.
    repeat split; auto 12.
    intros H. repeat (destruct H as [H|H]; [discriminate|]). exact H.
Qed.

(** ** Who may send an event *)

Lemma assertValidPlayer_iff (c : Context) (ev : Event) :
  assertValidPlayer c ev = Ok true
  <-> exists i, e_player ev = Some i /\ 0 <= i < Z.of_nat (length (players c)).
Proof.
  split; [apply assertValidPlayer_inv|].
  intros (i & Hp & Hi). unfold assertValidPlayer, isValidPlayerIdx, isIndex.
  rewrite Hp.
  destruct (Z.leb_spec 0 i); [|lia].
  destruct (Z.ltb_spec i (Z.of_nat (length (players c)))); [|lia]. reflexivity.
Qed.

(** ** Paying for an action *)

Lemma execAction_blocker (a : ActionName) (c c' : Context) (ev : Event) :
  execAction a c ev = Ok c' -> blocker c' = blockerStep ev (blocker c) a.
Proof.
  destruct a; simpl; try (intros [= <-]; reflexivity).
  - unfold advanceTurn. destruct (players c); [discriminate|].
    intros [= <-]. reflexivity.
  - unfold applyAction, assign, Game_applyAction.
    repeat match goal with
           | |- context [if ?b then _ else _] => destruct b
           end;
      try (destruct (R_over activePlayerLens _ c) as [c1|] eqn:Hover; simpl;
           [|discriminate]; intros [= <-];
           apply R_over_activePlayerLens_inv in Hover;
           destruct Hover as (p & p' & _ & _ & ->); reflexivity);
      simpl; intros [= <-]; reflexivity.
  - unfold revealInfluence.
    match goal with |- (r <- ?m ;; _) = _ -> _ => destruct m as [r|]; simpl; [|discriminate] end.
    destruct (R_over _ _ c) as [c1|] eqn:Hover; simpl; [|discriminate].
    intros [= <-]. apply R_over_Player_lens_inv in Hover.
    destruct Hover as (i & p & p' & _ & _ & _ & ->). reflexivity.
  - unfold replaceInfluence.
    destruct (R_over _ _ c) as [c1|] eqn:Hover; simpl; [|discriminate].
    intros Hre. apply redealPlayerRole_inv in Hre.
    destruct Hre as (r & i & p & top & rest & s' & k & _ & _ & _ & _ & _ & ->).
    apply R_over_Player_lens_inv in Hover.
    destruct Hover as (i' & p1 & p1' & _ & _ & _ & ->). reflexivity.
  - unfold payActionCost.
    destruct (GameDef_getCost _ _) as [cost|]; simpl; [|discriminate].
    intros Hover. apply R_over_activePlayerLens_inv in Hover.
    destruct Hover as (p & p' & _ & _ & ->). reflexivity.
Qed.

Lemma updateContext_blocker (acts : list ActionName) (ev : Event) :
  forall c c', updateContext acts c ev = Ok c' ->
               blocker c' = fold_left (blockerStep ev) acts (blocker c).
Proof.
  induction acts as [|a acts IH]; intros c c'; simpl.
  - intros [= <-]. reflexivity.
  - destruct (execAction a c ev) as [c1|] eqn:Ha; simpl; [|discriminate].
    intros H. apply IH in H. apply execAction_blocker in Ha. congruence.
Qed.

Lemma microstep_inv (t : Transition) (c : Context) (ev : Event)
      (st' : MachineState) (lg : list LogItem) :
  microstep t c ev = Ok (st', lg) ->
  value st' = t_target t
  /\ lg = map Ran (actions t) ++ Entered (t_target t)
              :: map Ran (entry (GameMachine (t_target t)))
  /\ updateContext (actions t ++ entry (GameMachine (t_target t))) c ev
     = Ok (context st').
Proof.
  unfold microstep. destruct (updateContext _ c ev) as [c1|]; simpl; [|discriminate].
  intros [= <- <-]. auto.
Qed.

Lemma assertCanBlock_player (c : Context) (ev : Event) (b : bool) :
  assertCanBlock c ev = Ok b -> e_player ev <> None.
Proof.
  unfold assertCanBlock, assertValidOpponent.
  destruct (assertValidPlayer c ev) as [b0|] eqn:Hv; simpl; [|discriminate].
  intros _. apply assertValidPlayer_inv in Hv. destruct Hv as (i & -> & _).
  discriminate.
Qed.

Lemma evaluateGuard_Ok (g : Guard) (c : Context) (ev : Event) (b : bool) :
  evaluateGuard (Some g) c ev = Ok b -> evalGuard g c ev = Ok b.
Proof.
  unfold evaluateGuard. destruct (evalGuard g c ev) as [b'|[]]; auto; discriminate.
Qed.

Ltac split_guards H :=
  repeat match type of H with
         | context [evaluateGuard ?g ?c ?e] =>
           let E := fresh "Eg" in
           destruct (evaluateGuard g c e) as [[|]|] eqn:E;
           cbn [bindR] in H; try discriminate H
         end.

Lemma PayInv_microstep :
  forall s c g ev t st' lg,
    PayInv s c g -> selected s c ev t -> microstep t c ev = Ok (st', lg) ->
    PayInv (value st') (context st') (fold_left payStep lg g).
Proof.
  intros s c g ev t st' lg (paid & -> & HI) Hsel Hm.
  apply microstep_inv in Hm. destruct Hm as (Hv & -> & Hu).
  apply updateContext_blocker in Hu. rewrite Hv. unfold PayInv.
  destruct Hsel as [[-> Hsel] | [Hty Hsel]].
  - (* eventless transitions *)
    destruct s; cbn [GameMachine always selectTransition cond] in Hsel;
      split_guards Hsel; try discriminate Hsel;
      injection Hsel as <-; cbn in Hu |- *;
      try (exists paid; split; [reflexivity|]; try rewrite Hu; tauto).
    + (* ExecCounterReveal to WaitForBlock: no blocker, so nothing paid yet *)
      apply evaluateGuard_Ok in Eg. simpl in Eg. injection Eg as Eg.
      unfold ifActionWasBlocked in Eg.
      destruct (blocker c) eqn:Eb; [discriminate|].
      destruct paid; [exfalso; apply HI; reflexivity|].
      exists true. auto.
    + (* EndOfTurn to StartOfTurn *)
      exists false. rewrite Hu. destruct paid; auto.
  - (* transitions on an event *)
    destruct s; destruct (e_type ev);
      cbn [GameMachine on candidates filter map fst snd EventType_eqb
           selectTransition cond] in Hsel;
      try discriminate Hsel; try congruence;
      split_guards Hsel; try discriminate Hsel;
      injection Hsel as <-; cbn in Hu |- *;
      try (exists paid; split; [reflexivity|]; try rewrite Hu; tauto).
    + (* WaitForResponse, BLOCK *)
      destruct HI as [-> _]. exists true. split; [reflexivity|].
      rewrite Hu. apply evaluateGuard_Ok in Eg. simpl in Eg.
      eapply assertCanBlock_player; eauto.
    + (* WaitForResponse, CHALLENGE *)
      destruct HI as [-> _]. exists false. split; [reflexivity|]. discriminate.
    + (* WaitForResponse, ALLOW *)
      destruct HI as [-> _]. exists true. auto.
    + (* WaitForBlock, BLOCK *)
      exists paid. split; [reflexivity|].
      rewrite Hu. apply evaluateGuard_Ok in Eg. simpl in Eg.
      eapply assertCanBlock_player; eauto.
Qed.

Ltac break_cases :=
  repeat match goal with
         | H : _ \/ _ |- _ => destruct H as [H|H]
         | H : _ /\ _ |- _ => destruct H
         | H : False |- _ => destruct H
         | H : (_, _) = (_, _) |- _ => injection H as <- <-
         | H : mkTransition _ _ _ = ?t |- _ => subst t
         | H : _ = _ |- _ => discriminate H
         end.

Lemma PayActionCost_sites (s : StateName) :
  (In PayActionCost (entry (GameMachine s)) <-> s = WaitForBlock)
  /\ (forall t, In t (always (GameMachine s)) -> ~ In PayActionCost (actions t))
  /\ (forall ty t, In (ty, t) (on (GameMachine s)) ->
                   (In PayActionCost (actions t)
                    <-> s = WaitForResponse /\ (ty = BLOCK \/ ty = ALLOW))).
Proof.
  destruct s; cbn [GameMachine entry always on]; (split; [|split]).
  all: try (split; intros H; simpl in H; break_cases; simpl; auto; fail).
  all: try (intros t H; simpl in H; break_cases; simpl; intros H'; break_cases; fail).
  all: intros ty t H; simpl in H; break_cases; simpl;
    (split; intros H'; break_cases; simpl; auto).
Qed.

(** C2: in everything the machine does from its start, over any events it
    accepts (rejected events change nothing), [payActionCost] runs at most
    once between two entries of StartOfTurn, that is at most once for the
    action of a turn: it is an action of the BLOCK and ALLOW transitions
    out of WaitForResponse and an entry action of WaitForBlock, of nothing
    else, and no turn runs two of these. *)
Theorem payActionCost_at_most_once (c0 : Context) (st : MachineState)
        (lg : list LogItem) :
  trace c0 st lg ->
  paidAtMostOnce lg
  /\ forall s,
      (In PayActionCost (entry (GameMachine s)) <-> s = WaitForBlock)
      /\ (forall t, In t (always (GameMachine s)) -> ~ In PayActionCost (actions t))
      /\ (forall ty t, In (ty, t) (on (GameMachine s)) ->
                       (In PayActionCost (actions t)
                        <-> s = WaitForResponse /\ (ty = BLOCK \/ ty = ALLOW))).
Proof.
  intros Htr. split; [|apply PayActionCost_sites].
  assert (H : PayInv (value st) (context st) (fold_left payStep lg (Some false))).
  { induction Htr as [|st lg ev st' lg' Htr IH Ht].
    - simpl. exists false. auto.
    - rewrite fold_left_app.
      eapply transitionLog_invariant; [exact PayInv_microstep|exact IH|exact Ht]. }
  destruct H as (paid & H & _). unfold paidAtMostOnce. rewrite H. discriminate.
Qed.

Lemma runLog_trace (c0 : Context) (events : list Event) :
  forall st lg st' lg',
    trace c0 st lg -> runLog st events = Ok (st', lg') -> trace c0 st' (lg ++ lg').
Proof.
  induction events as [|e es IH]; intros st lg st' lg' Htr; simpl.
  - intros [= <- <-]. rewrite app_nil_r. exact Htr.
  - destruct (transitionLog st e) as [[st1 lg1]|] eqn:Ht; simpl; [|discriminate].
    destruct (runLog st1 es) as [[st2 lg2]|] eqn:Hr; simpl; [|discriminate].
    intros [= <- <-]. rewrite app_assoc. eapply IH; [|exact Hr].
    eapply trace_step; eauto.
Qed.

(** ** Staying inside the model *)

Lemma length_R_update {A} (idx : nat) (x : A) (l : list A) :
  length (R_update idx x l) = length l.
Proof. apply length_R_adjust. Qed.

Lemma execAction_control (a : ActionName) (c c' : Context) (ev : Event) :
  execAction a c ev = Ok c' -> control c' = controlStep ev (control c) a.
Proof.
  destruct a; simpl; try (intros [= <-]; reflexivity).
  - (* setRevealer of Challenge *)
    intros [= <-]. unfold control, setRevealer, ifActionWasBlocked. simpl.
    destruct (blocker c); reflexivity.
  - unfold advanceTurn. destruct (players c) eqn:E; [discriminate|].
    intros [= <-]. unfold control. simpl. rewrite E. reflexivity.
  - unfold applyAction, assign, Game_applyAction, Game_actionEq, control. simpl.
    destruct (currentAction c) as [a|] eqn:Ea; [|intros [= <-]; rewrite Ea; reflexivity].
    destruct (String.eqb_spec a "income") as [->|_].
    { destruct (R_over activePlayerLens _ c) as [c1|] eqn:Hover; simpl; [|discriminate].
      intros [= <-]. apply R_over_activePlayerLens_inv in Hover.
      destruct Hover as (p & p' & _ & _ & ->). simpl.
      rewrite length_R_update, Ea. reflexivity. }
    destruct (String.eqb_spec a "foreign-aid") as [->|_].
    { destruct (R_over activePlayerLens _ c) as [c1|] eqn:Hover; simpl; [|discriminate].
      intros [= <-]. apply R_over_activePlayerLens_inv in Hover.
      destruct Hover as (p & p' & _ & _ & ->). simpl.
      rewrite length_R_update, Ea. reflexivity. }
    destruct (String.eqb_spec a "tax") as [->|_].
    { destruct (R_over activePlayerLens _ c) as [c1|] eqn:Hover; simpl; [|discriminate].
      intros [= <-]. apply R_over_activePlayerLens_inv in Hover.
      destruct Hover as (p & p' & _ & _ & ->). simpl.
      rewrite length_R_update, Ea. reflexivity. }
    destruct (String.eqb a "assassinate"); simpl; intros [= <-]; simpl;
      rewrite ?Ea; reflexivity.
  - unfold revealInfluence.
    match goal with |- (r <- ?m ;; _) = _ -> _ => destruct m as [r|]; simpl; [|discriminate] end.
    destruct (R_over _ _ c) as [c1|] eqn:Hover; simpl; [|discriminate].
    intros [= <-]. apply R_over_Player_lens_inv in Hover.
    destruct Hover as (i & p & p' & _ & _ & _ & ->). unfold control. simpl.
    rewrite length_R_update. reflexivity.
  - unfold replaceInfluence.
    destruct (R_over _ _ c) as [c1|] eqn:Hover; simpl; [|discriminate].
    intros Hre. apply redealPlayerRole_inv in Hre.
    destruct Hre as (r & i & p & top & rest & s' & k & _ & _ & _ & _ & _ & ->).
    apply R_over_Player_lens_inv in Hover.
    destruct Hover as (i' & p1 & p1' & _ & _ & _ & ->). unfold control. simpl.
    rewrite !length_R_update. reflexivity.
  - unfold payActionCost.
    destruct (GameDef_getCost _ _) as [cost|]; simpl; [|discriminate].
    intros Hover. apply R_over_activePlayerLens_inv in Hover.
    destruct Hover as (p & p' & _ & _ & ->). unfold control. simpl.
    rewrite length_R_update. reflexivity.
Qed.

Lemma updateContext_control (acts : list ActionName) (ev : Event) :
  forall c c', updateContext acts c ev = Ok c' ->
               control c' = fold_left (controlStep ev) acts (control c).
Proof.
  induction acts as [|a acts IH]; intros c c'; simpl.
  - intros [= <-]. reflexivity.
  - destruct (execAction a c ev) as [c1|] eqn:Ha; simpl; [|discriminate].
    intros H. apply IH in H. apply execAction_control in Ha. congruence.
Qed.

Lemma defined_bind {A B} (r : Result A) (f : A -> Result B) :
  defined r -> (forall a, r = Ok a -> defined (f a)) -> defined (bindR r f).
Proof.
  destruct r as [a|e]; simpl; auto.
Qed.

Lemma validIdx_view (c : Context) (o : option Z) :
  validIdx (control c) o ->
  exists i p, o = Some i /\ at_ (players c) i = Some p
              /\ view (Player_lens o) c = Ok p.
Proof.
  intros (i & -> & Hi). simpl in Hi.
  destruct (@at_in_range _ (players c) i Hi) as [p Hp].
  exists i, p. simpl. rewrite Hp. auto.
Qed.

Lemma R_over_defined (c : Context) (o : option Z) (f : Player -> Result Player) :
  validIdx (control c) o -> (forall p, defined (f p)) ->
  defined (R_over (Player_lens o) f c).
Proof.
  intros Hv Hf. destruct (validIdx_view Hv) as (i & p & -> & _ & Hview).
  unfold R_over. rewrite Hview. simpl. specialize (Hf p).
  destruct (f p); simpl; auto.
Qed.

Lemma GameDef_action_valid (d : GameDef) (a : option string) :
  GameDef_isValidAction d a = true -> exists ad, GameDef_action d a = Ok ad.
Proof.
  unfold GameDef_isValidAction, GameDef_action. destruct a as [a|]; [|discriminate].
  destruct (assoc a GameDef_actions); [eauto|]. intros ->. eauto.
Qed.

Lemma R_findIndex_undefined (b : bool) (l : list Influence) :
  R_findIndex (Influence_equals None b) l = None.
Proof.
  induction l as [|x l IH]; simpl; [reflexivity|]. rewrite IH. reflexivity.
Qed.

Lemma Player_revealRole_defined (r : option Role) (p : Player) :
  defined (Player_revealRole r p).
Proof.
  unfold Player_revealRole. destruct (R_findIndex _ _); simpl; auto.
Qed.

Lemma Player_unrevealRole_defined (r : option Role) (p : Player) :
  defined (Player_unrevealRole r p).
Proof.
  unfold Player_unrevealRole. destruct (R_findIndex _ _); simpl; auto.
Qed.

Lemma redealPlayerRole_defined (Hr : randUint_uint32) (c : Context) (i : Z) (r : Role) :
  validIdx (control c) (Some i) ->
  defined (redealPlayerRole (Some i) (Some r) c).
Proof.
  intros Hv. destruct (validIdx_view Hv) as (i' & p & [= <-] & Hat & _).
  unfold redealPlayerRole, execWith, Game_pushDeck_s.
  unfold Game_shuffleDeck_s, Game_popDeck_s, liftDeck, liftRand, liftPlayer,
    processing, chain, State_map, State_get, State_put, State_of, State_fail,
    chain; simpl.
  destruct (Rand_shuffle_fuel_total Hr (r :: deck c) (seed c) (Nat.le_refl _))
    as (d' & s' & H1 & H2).
  rewrite H2. simpl.
  apply Rand_shuffle_fuel_Permutation in H1.
  destruct d' as [|top rest]; [apply Permutation_length in H1; discriminate|].
  simpl. rewrite Hat. simpl.
  unfold Player_swapRole_s, chain, State_get, State_put, State_fail; simpl.
  destruct (R_findIndex _ _); simpl; auto.
Qed.

Lemma execAction_defined (Hr : randUint_uint32) (a : ActionName) (c : Context)
      (ev : Event) :
  preK a (control c) -> defined (execAction a c ev).
Proof.
  destruct a; simpl; auto.
  - (* advanceTurn *)
    intros (i & _ & Hi). unfold advanceTurn. simpl in Hi.
    destruct (players c); simpl in *; [lia|auto].
  - (* applyAction *)
    intros Hv. unfold applyAction, assign, Game_applyAction.
    repeat match goal with
           | |- context [if ?b then _ else _] => destruct b
           end; simpl; auto;
      (apply defined_bind; [|simpl; auto]);
      (apply defined_bind; [|simpl; auto]);
      apply (@R_over_defined c (Some (whoseTurn c))); simpl; auto.
  - (* revealInfluence *)
    intros Hv. unfold revealInfluence.
    destruct (validIdx_view Hv) as (i & p & Hrev & _ & Hview).
    rewrite Hview. simpl.
    apply defined_bind.
    { destruct (e_role ev) as [r|]; [destruct (String.eqb r "")|]; simpl; auto. }
    intros r _. apply defined_bind; [|simpl; auto].
    apply R_over_defined; [exact Hv|]. apply Player_revealRole_defined.
  - (* replaceInfluence *)
    intros Hv. unfold replaceInfluence.
    apply defined_bind.
    { apply R_over_defined; [exact Hv|]. apply Player_unrevealRole_defined. }
    intros c1 Hover. apply R_over_Player_lens_inv in Hover.
    destruct Hover as (i & p & p' & Hrev & Hat & Hun & ->).
    rewrite Hrev.
    destruct (revealedRole c) as [r|].
    + apply redealPlayerRole_defined; [exact Hr|].
      exists i. split; [reflexivity|]. simpl. rewrite length_R_update.
      destruct Hv as (i' & Hi' & Hrange). simpl in Hrange. congruence.
    + unfold Player_unrevealRole in Hun. rewrite R_findIndex_undefined in Hun.
      discriminate.
  - (* payActionCost *)
    intros [[Hva _] Hv]. unfold payActionCost, GameDef_getCost.
    destruct (GameDef_action_valid _ _ Hva) as (ad & Had).
    simpl in Had. rewrite Had. simpl.
    apply (@R_over_defined c (Some (whoseTurn c))); simpl; auto.
Qed.

Lemma updateContext_defined (Hr : randUint_uint32) (ev : Event) (acts : list ActionName) :
  forall c, allPre ev acts (control c) -> defined (updateContext acts c ev).
Proof.
  induction acts as [|a acts IH]; intros c; simpl; auto.
  intros [Hp Hall]. apply defined_bind.
  - apply execAction_defined; assumption.
  - intros c1 Ha. apply IH. apply execAction_control in Ha. rewrite Ha. exact Hall.
Qed.

Lemma assertValidPlayer_cases (c : Context) (ev : Event) :
  (assertValidPlayer c ev = Ok true /\ validIdx (control c) (e_player ev))
  \/ assertValidPlayer c ev = Err (Raised (MustSpecifyValidPlayer (e_type ev))).
Proof.
  destruct (assertValidPlayer c ev) as [b|e] eqn:E.
  - left. pose proof (assertValidPlayer_inv _ _ E) as (i & Hp & Hi).
    unfold assertValidPlayer in E.
    destruct (negb _); [discriminate|]. injection E as <-.
    split; [reflexivity|]. exists i. auto.
  - right. unfold assertValidPlayer, throw in E. destruct (negb _); [|discriminate].
    symmetry. exact E.
Qed.

Lemma defined_valid_action (d : GameDef) (a : option string) {A}
      (f : ActionDef -> Result A) :
  GameDef_isValidAction d a = true -> (forall ad, defined (f ad)) ->
  defined (bindR (GameDef_action d a) f).
Proof.
  intros Hv Hf. destruct (GameDef_action_valid _ _ Hv) as (ad & ->). simpl. apply Hf.
Qed.

Lemma evalGuard_defined (g : Guard) (c : Context) (ev : Event) :
  preG (Some g) (control c) -> defined (evalGuard g c ev).
Proof.
  destruct g; simpl; auto.
  - (* assertCanStartAction *)
    intros _. unfold assertCanStartAction.
    destruct (assertValidPlayer_cases c ev) as [[-> Hv]| ->]; simpl; auto.
    destruct (GameDef_isValidAction (def c) (e_action ev)) eqn:Hva; simpl; auto.
    destruct (opt_eqb (e_player ev) (Some (whoseTurn c))); simpl; auto.
    unfold GameDef_isTargeted, Game_playerCanAffordAction, GameDef_getCost.
    destruct (GameDef_action_valid _ _ Hva) as (ad & ->). simpl.
    destruct (validIdx_view Hv) as (i & p & Hp & Hat & _).
    rewrite Hp. simpl. rewrite Hat. simpl.
    destruct (a_targeted ad); simpl;
      repeat match goal with
             | |- context [if ?b then _ else _] => destruct b; simpl; auto
             end.
  - (* assertCanBlock *)
    intros [Hva _]. unfold assertCanBlock, assertValidOpponent.
    destruct (assertValidPlayer_cases c ev) as [[-> Hv]| ->]; simpl; auto.
    destruct (opt_eqb _ _); simpl; auto.
    destruct (e_role ev); simpl; auto.
    unfold GameDef_isBlockedBy, GameDef_getBlockingRoles.
    destruct (GameDef_action_valid _ _ Hva) as (ad & Had). simpl in Had.
    rewrite Had. simpl. destruct (negb _); simpl; auto.
  - (* assertCanChallenge *)
    intros [Hva _]. unfold assertCanChallenge, assertValidOpponent.
    destruct (ifActionWasBlocked c);
      (destruct (assertValidPlayer_cases c ev) as [[-> Hv]| ->]; simpl; auto);
      (destruct (opt_eqb _ _); simpl; auto).
    unfold GameDef_isRoleRequired, GameDef_getRequiredRoles.
    destruct (GameDef_action_valid _ _ Hva) as (ad & Had). simpl in Had.
    rewrite Had. simpl. destruct (negb _); simpl; auto.
  - (* assertValidOpponent *)
    intros _. unfold assertValidOpponent.
    destruct (assertValidPlayer_cases c ev) as [[-> Hv]| ->]; simpl; auto.
    destruct (opt_eqb _ _); simpl; auto.
  - (* assertCurrentPlayer *)
    intros _. unfold assertCurrentPlayer.
    destruct (assertValidPlayer_cases c ev) as [[-> Hv]| ->]; simpl; auto.
    destruct (negb _); simpl; auto.
  - (* assertCanReveal *)
    intros _. unfold assertCanReveal.
    destruct (assertValidPlayer_cases c ev) as [[-> Hv]| ->]; simpl; auto.
    destruct (negb (opt_eqb _ _)); simpl; auto.
    destruct (negb (GameDef_isValidRole _ _)); simpl; auto.
    unfold Game_playerHasRole.
    destruct (validIdx_view Hv) as (i & p & Hp & Hat & _).
    rewrite Hp. simpl. rewrite Hat. simpl.
    destruct (negb _); simpl; auto.
  - (* ifActionHasNoResponse *)
    intros [Hva _]. unfold ifActionHasNoResponse, ifActionHasResponse,
      GameDef_isRoleRequired, GameDef_isBlockable, GameDef_getRequiredRoles,
      GameDef_getBlockingRoles.
    destruct (GameDef_action_valid _ _ Hva) as (ad & Had). simpl in Had.
    rewrite Had. simpl. destruct (0 <? _)%nat; simpl; auto.
  - (* ifAutoReveal *)
    intros Hv. unfold ifAutoReveal, Game_playerHasNInf.
    destruct (validIdx_view Hv) as (i & p & Hp & Hat & _). simpl in Hp.
    rewrite Hp. simpl. rewrite Hat. simpl. auto.
  - (* ifChallengeIncorrect *)
    intros [Hva _]. unfold ifChallengeIncorrect, GameDef_isBlockedBy,
      GameDef_ifRoleAllowsAction, GameDef_getRequiredRoles, GameDef_getBlockingRoles.
    destruct (GameDef_action_valid _ _ Hva) as (ad & Had). simpl in Had.
    rewrite Had. destruct (blocker c); simpl; auto.
  - (* ifBlockableAction *)
    intros [Hva _]. unfold ifBlockableAction, GameDef_isBlockable,
      GameDef_getBlockingRoles.
    destruct (GameDef_action_valid _ _ Hva) as (ad & Had). simpl in Had.
    rewrite Had. simpl. auto.
Qed.

Lemma evaluateGuard_defined (g : option Guard) (c : Context) (ev : Event) :
  preG g (control c) -> defined (evaluateGuard g c ev).
Proof.
  destruct g as [g|]; simpl; auto.
  intros H. change (preG (Some g) (control c)) in H.
  apply evalGuard_defined with (ev := ev) in H.
  destruct (evalGuard g c ev) as [b|[]]; simpl in *; auto.
Qed.

Lemma selectTransition_defined (ts : list Transition) (c : Context) (ev : Event) :
  (forall t, In t ts -> preG (cond t) (control c)) ->
  defined (selectTransition ts c ev).
Proof.
  induction ts as [|t ts IH]; simpl; auto.
  intros H. apply defined_bind.
  - apply evaluateGuard_defined. apply H. left. reflexivity.
  - intros [|] _; simpl; auto.
Qed.

Lemma selectTransition_In (ts : list Transition) (c : Context) (ev : Event)
      (t : Transition) :
  selectTransition ts c ev = Ok (Some t) -> In t ts.
Proof.
  induction ts as [|t' ts IH]; simpl; [discriminate|].
  destruct (evaluateGuard _ _ _) as [[|]|]; simpl; try discriminate.
  - intros [= ->]. left. reflexivity.
  - intros H. right. auto.
Qed.

Lemma always_preG (s : StateName) (k : Control) (t : Transition) :
  WFK s k -> In t (always (GameMachine s)) -> preG (cond t) k.
Proof.
  intros (_ & _ & H) Hin.
  destruct s; simpl in Hin; break_cases; simpl; tauto.
Qed.

Lemma candidates_preG (s : StateName) (k : Control) (ty : EventType) (t : Transition) :
  WFK s k -> In t (candidates (GameMachine s) ty) -> preG (cond t) k.
Proof.
  intros (_ & _ & H) Hin.
  destruct s, ty; simpl in Hin; break_cases; simpl; tauto.
Qed.

Lemma always_rank (s : StateName) (t : Transition) :
  In t (always (GameMachine s)) -> (rank (t_target t) < rank s)%nat.
Proof.
  destruct s; simpl; intros Hin; break_cases; simpl; lia.
Qed.

Lemma assertValidOpponent_player (c : Context) (ev : Event) (b : bool) :
  assertValidOpponent c ev = Ok b -> validIdx (control c) (e_player ev).
Proof.
  unfold assertValidOpponent.
  destruct (assertValidPlayer_cases c ev) as [[-> Hv]| ->]; simpl; auto. discriminate.
Qed.

Lemma assertCanBlock_valid (c : Context) (ev : Event) (b : bool) :
  assertCanBlock c ev = Ok b -> validIdx (control c) (e_player ev).
Proof.
  unfold assertCanBlock.
  destruct (assertValidOpponent c ev) as [b0|] eqn:E; simpl; [|discriminate].
  intros _. eapply assertValidOpponent_player. exact E.
Qed.

Lemma assertCanChallenge_valid (c : Context) (ev : Event) (b : bool) :
  assertCanChallenge c ev = Ok b -> validIdx (control c) (e_player ev).
Proof.
  unfold assertCanChallenge. destruct (ifActionWasBlocked c).
  - destruct (assertValidPlayer_cases c ev) as [[-> Hv]| ->]; simpl; auto. discriminate.
  - destruct (assertValidOpponent c ev) as [b0|] eqn:E; simpl; [|discriminate].
    intros _. eapply assertValidOpponent_player. exact E.
Qed.

Lemma assertCanStartAction_valid (c : Context) (ev : Event) (b : bool) :
  assertCanStartAction c ev = Ok b ->
  GameDef_isValidAction (def c) (e_action ev) = true
  /\ (e_action ev = Some "assassinate" -> validIdx (control c) (e_target ev)).
Proof.
  unfold assertCanStartAction.
  destruct (assertValidPlayer c ev) as [b0|]; simpl; [|discriminate].
  destruct (GameDef_isValidAction (def c) (e_action ev)) eqn:Hva; simpl; [|discriminate].
  destruct (opt_eqb (e_player ev) (Some (whoseTurn c))); simpl; [|discriminate].
  intros H. split; [reflexivity|]. intros Ha. rewrite Ha in H. simpl in H.
  unfold isValidPlayerIdx, isIndex in H.
  destruct (e_target ev) as [i|]; simpl in H; [|discriminate].
  destruct (Z.leb_spec 0 i); simpl in H; [|discriminate].
  destruct (Z.ltb_spec i (Z.of_nat (length (players c)))); simpl in H; [|discriminate].
  exists i. split; [reflexivity|]. simpl. lia.
Qed.

Lemma validIdx_size (k k' : Control) (o : option Z) :
  k_size k' = k_size k -> validIdx k o -> validIdx k' o.
Proof.
  intros Hs (i & Ho & Hi). exists i. rewrite Hs. auto.
Qed.

Lemma optValid_size (k k' : Control) (o : option Z) :
  k_size k' = k_size k -> optValid k o -> optValid k' o.
Proof.
  intros Hs [H|H]; [left; exact H|right; eapply validIdx_size; eauto].
Qed.

Lemma validIdx_advance (k : Control) :
  validIdx k (Some (k_whoseTurn k)) ->
  validIdx k (Some (Z.rem (k_whoseTurn k + 1) (Z.of_nat (k_size k)))).
Proof.
  intros (i & [= <-] & Hi). eexists. split; [reflexivity|].
  apply Z.rem_bound_pos; lia.
Qed.

Ltac wf_facts :=
  repeat match goal with
         | H : evaluateGuard (Some _) _ _ = Ok _ |- _ =>
           apply evaluateGuard_Ok in H; simpl in H
         | H : assertCanBlock _ _ = Ok _ |- _ => apply assertCanBlock_valid in H
         | H : assertCanChallenge _ _ = Ok _ |- _ => apply assertCanChallenge_valid in H
         | H : assertValidOpponent _ _ = Ok _ |- _ => apply assertValidOpponent_player in H
         | H : assertCurrentPlayer _ _ = Ok _ |- _ => clear H
         | H : assertCanReveal _ _ = Ok _ |- _ => clear H
         | H : assertCanStartAction _ _ = Ok _ |- _ =>
           apply assertCanStartAction_valid in H; destruct H
         | H : Ok (ifPendingReveal ?c) = Ok true |- _ =>
           injection H as H; unfold ifPendingReveal in H
         end.

Ltac wf_split :=
  cbn in *; unfold validAction, optValid, validIdx in *; cbn in *;
  repeat match goal with
         | |- _ /\ _ => split
         | |- True => exact I
         end; try tauto.

Lemma WFK_edge (s : StateName) (c : Context) (ev : Event) (t : Transition) :
  WFK s (control c) -> selected s c ev t ->
  allPre ev (actions t ++ entry (GameMachine (t_target t))) (control c)
  /\ WFK (t_target t)
         (fold_left (controlStep ev) (actions t ++ entry (GameMachine (t_target t)))
                    (control c)).
Proof.
  intros (Hturn & Hblk & HI) Hsel.
  destruct Hsel as [[-> Hsel] | [Hty Hsel]].
  - destruct s; cbn [GameMachine always selectTransition cond] in Hsel;
      split_guards Hsel; try discriminate Hsel;
      injection Hsel as <-; wf_facts; unfold WFK; wf_split.
    all: try (destruct (currentAction c) as [a|] eqn:Ea;
              [destruct (String.eqb_spec a "assassinate") as [->|]|];
              tauto).
    all: try (destruct (revealer c); [|discriminate];
              destruct HI as [HI|HI]; [discriminate|exact HI]).
    all: try (destruct Hturn as (i & [= <-] & Hi); eexists; split; [reflexivity|];
              apply Z.rem_bound_pos; lia).
  - destruct s; destruct (e_type ev);
      cbn [GameMachine on candidates filter map fst snd EventType_eqb
           selectTransition cond] in Hsel;
      try discriminate Hsel; try congruence;
      split_guards Hsel; try discriminate Hsel;
      injection Hsel as <-; wf_facts; unfold WFK; wf_split.
    all: try (destruct (currentAction c) as [a|] eqn:Ea;
              [destruct (String.eqb_spec a "assassinate") as [->|]|];
              tauto).
    all: destruct (blocker c) as [b|];
      [destruct Hblk as [Hblk|Hblk]; [discriminate|exact Hblk]|exact Hturn].
Qed.

(** In every reachable state the control part is as its state needs it. *)
Lemma WFK_microstep :
  forall s c (g : unit) ev t st' lg,
    WFK s (control c) -> selected s c ev t -> microstep t c ev = Ok (st', lg) ->
    WFK (value st') (control (context st')).
Proof.
  intros s c g ev t st' lg HW Hsel Hm.
  apply microstep_inv in Hm. destruct Hm as (Hv & _ & Hu).
  apply updateContext_control in Hu. rewrite Hv, Hu.
  destruct (WFK_edge HW Hsel) as [_ H]. exact H.
Qed.

Lemma WFK_reachable (c0 : Context) (st : MachineState) :
  0 <= whoseTurn c0 < Z.of_nat (length (players c0)) ->
  reachable c0 st -> WFK (value st) (control (context st)).
Proof.
  intros H0 Hr. induction Hr as [|st e st' Hr IH Ht].
  - simpl. unfold WFK, optValid, validIdx. simpl.
    split; [eauto|]. split; auto.
  - unfold transition in Ht.
    destruct (transitionLog st e) as [[st1 lg]|] eqn:Hl; simpl in Ht; [|discriminate].
    injection Ht as <-.
    apply (@transitionLog_invariant unit (fun g _ => g)
             (fun s c _ => WFK s (control c))) with (g := tt) in Hl; auto.
    intros s c g ev t st2 lg2. apply WFK_microstep. exact g.
Qed.

Lemma microstep_defined (Hr : randUint_uint32) (s : StateName) (c : Context)
      (ev : Event) (t : Transition) :
  WFK s (control c) -> selected s c ev t -> defined (microstep t c ev).
Proof.
  intros HW Hsel. destruct (WFK_edge HW Hsel) as [Hpre _].
  unfold microstep. apply defined_bind; [|simpl; auto].
  apply updateContext_defined; assumption.
Qed.

Lemma resolveTransient_defined (Hr : randUint_uint32) (fuel : nat) :
  forall st,
    (rank (value st) < fuel)%nat -> WFK (value st) (control (context st)) ->
    defined (resolveTransient fuel st).
Proof.
  induction fuel as [|fuel IH]; intros st Hrank HW; [lia|].
  cbn [resolveTransient]. apply defined_bind.
  - apply selectTransition_defined. intros t Hin. eapply always_preG; eauto.
  - intros [t|] Hsel; [|simpl; auto].
    assert (Hs : selected (value st) (context st) nullEvent t) by (left; auto).
    apply defined_bind; [eapply microstep_defined; eauto|].
    intros [st1 log1] Hm. apply defined_bind; [|intros [st2 log2] _; simpl; auto].
    apply IH.
    + apply microstep_inv in Hm. destruct Hm as (Hv & _). rewrite Hv.
      apply selectTransition_In in Hsel. apply always_rank in Hsel. lia.
    + eapply WFK_microstep; eauto. exact tt.
Qed.

Lemma rank_fuel (s : StateName) : (rank s < transient_fuel)%nat.
Proof. destruct s; unfold transient_fuel; simpl; lia. Qed.

(** X1: for events whose [player] and [target] are integers, which are the
    events of [Event]: from a context whose turn is a player's, with a
    generator of 32-bit integers, every transition in every reachable state
    returns a state or throws what the code throws: it reads nothing
    undefined, and the bound on the eventless transitions is never met.
    (The test of [isValidPlayerIdx] in the code, [idx >= 0 && idx <
    players.length], also lets a number through that is no integer and
    indexes no player, as [isValidPlayerIdx_number] shows; the statement
    says nothing of such events.) *)
Theorem transition_defined (Hr : randUint_uint32) (c0 : Context) (st : MachineState)
        (ev : Event) :
  0 <= whoseTurn c0 < Z.of_nat (length (players c0)) ->
  reachable c0 st ->
  defined (transitionLog st ev) /\ defined (transition st ev).
Proof.
  intros H0 Hreach. pose proof (WFK_reachable H0 Hreach) as HW.
  assert (Hlog : defined (transitionLog st ev)).
  { unfold transitionLog.
    assert (Hgen : e_type ev <> UNKNOWN ->
      defined
        (sel <- selectTransition (candidates (GameMachine (value st)) (e_type ev))
                                 (context st) ev ;;
         match sel with
         | None => resolveTransient transient_fuel st
         | Some t =>
           ' (st1, log1) <- microstep t (context st) ev ;;
           ' (st2, log2) <- resolveTransient transient_fuel st1 ;;
           Ok (st2, log1 ++ log2)
         end)).
    { intros Hty. apply defined_bind.
      - apply selectTransition_defined. intros t Hin. eapply candidates_preG; eauto.
      - intros [t|] Hsel.
        + assert (Hs : selected (value st) (context st) ev t) by (right; auto).
          apply defined_bind; [eapply microstep_defined; eauto|].
          intros [st1 log1] Hm.
          apply defined_bind; [|intros [st2 log2] _; simpl; auto].
          apply resolveTransient_defined; [exact Hr|apply rank_fuel|].
          eapply WFK_microstep; eauto. exact tt.
        + apply resolveTransient_defined; [exact Hr|apply rank_fuel|exact HW]. }
    destruct (e_type ev) eqn:Ety; try (apply Hgen; discriminate). simpl. exact I. }
  split; [exact Hlog|]. unfold transition.
  destruct (transitionLog st ev) as [[st1 lg]|e]; simpl in *; auto.
Qed.

(* ================================================================== *)
(** * More properties of the code *)

(** ** Rand: seeds and draws *)

Lemma compose_n_shift {A} (n : nat) (f : A -> A) (x : A) :
  compose_n n f (f x) = f (compose_n n f x).
Proof.
  induction n as [|n IH]; simpl; [reflexivity|]. rewrite IH. reflexivity.
Qed.

Lemma compose_n_add {A} (m n : nat) (f : A -> A) (x : A) :
  compose_n (m + n) f x = compose_n m f (compose_n n f x).
Proof.
  induction m as [|m IH]; simpl; [reflexivity|]. rewrite IH. reflexivity.
Qed.

Lemma Rand__nextSeed_uint32 (Hr : randUint_uint32) (seed : Seed) :
  uint32_seed seed -> uint32_seed (Rand__nextSeed seed).
Proof.
  intros [Hlen Hall].
  destruct seed as [|a [|b [|c [|d [|e seed]]]]]; try discriminate.
  unfold Rand__nextSeed. simpl. split; [reflexivity|].
  inversion Hall as [|? ? _ Hall1]; subst.
  inversion Hall1 as [|? ? Hb Hall2]; subst.
  inversion Hall2 as [|? ? Hc Hall3]; subst.
  inversion Hall3 as [|? ? Hd _]; subst.
  repeat (apply Forall_cons; [first [assumption | apply Hr]|]). apply Forall_nil.
Qed.

Lemma Rand__nextSeed_four (Hr : randUint_uint32) (seed : Seed) :
  length seed = 4%nat -> uint32_seed (compose_n 4 Rand__nextSeed seed).
Proof.
  intros Hlen.
  destruct seed as [|a [|b [|c [|d [|e seed]]]]]; try discriminate.
  unfold Rand__nextSeed. simpl. split; [reflexivity|].
  repeat (apply Forall_cons; [apply Hr|]). apply Forall_nil.
Qed.

Lemma compose_n_uint32 (Hr : randUint_uint32) (n : nat) (seed : Seed) :
  uint32_seed seed -> uint32_seed (compose_n n Rand__nextSeed seed).
Proof.
  intros H. induction n as [|n IH]; simpl; [exact H|].
  apply Rand__nextSeed_uint32; assumption.
Qed.

(** X12: [Rand.makeSeed(iseed)], for a number [iseed] other than 0 and with
    no [n], [n = 0] (both mean 10) or [n >= 4], is four unsigned 32-bit
    words, although the words it starts from, the primes times [iseed], are
    not: every word has been replaced by a [randUint]. *)
Theorem Rand_makeSeed_uint32 (Hr : randUint_uint32) (iseed : Z) (n : option nat) :
  iseed <> 0 ->
  (forall k, n = Some k -> k = 0%nat \/ (4 <= k)%nat) ->
  uint32_seed (Rand_makeSeed iseed n).
Proof.
  intros _ Hn. unfold Rand_makeSeed.
  set (k := match n with Some (S k) => S k | _ => 10%nat end).
  assert (Hk : (4 <= k)%nat).
  { subst k. destruct n as [[|j]|]; try lia.
    destruct (Hn (S j) eq_refl); [discriminate|assumption]. }
  replace k with ((k - 4) + 4)%nat by lia.
  rewrite compose_n_add. apply compose_n_uint32; [exact Hr|].
  apply Rand__nextSeed_four; [exact Hr|reflexivity].
Qed.

(** ** Doubles *)

Lemma round_half_even_bounds (q : Q) :
  Qfloor q <= round_half_even q <= Qfloor q + 1.
Proof.
  unfold round_half_even. destruct (_ ?= _)%Q; try destruct (Z.even _); lia.
Qed.

Ltac compare_prop H :=
  first [apply Qeq_alt in H | rewrite <- Qlt_alt in H | rewrite <- Qgt_alt in H].

Lemma round_half_even_le (q q' : Q) :
  (q <= q')%Q -> round_half_even q <= round_half_even q'.
Proof.
  intros H. pose proof (Qfloor_resp_le _ _ H) as Hf.
  destruct (Z.eq_dec (Qfloor q) (Qfloor q')) as [E|E].
  - unfold round_half_even. rewrite <- E.
    destruct (q - inject_Z (Qfloor q) ?= 1 # 2)%Q eqn:C1;
      destruct (q' - inject_Z (Qfloor q) ?= 1 # 2)%Q eqn:C2;
      compare_prop C1; compare_prop C2;
      try destruct (Z.even (Qfloor q)); try lia; exfalso; lra.
  - pose proof (round_half_even_bounds q). pose proof (round_half_even_bounds q'). lia.
Qed.

Lemma round_half_even_Z (n : Z) : round_half_even (inject_Z n) = n.
Proof.
  unfold round_half_even. rewrite Qfloor_Z.
  assert (H : (inject_Z n - inject_Z n ?= 1 # 2)%Q = Lt).
  { rewrite <- Qlt_alt. assert (E : (inject_Z n - inject_Z n == 0)%Q) by ring.
    rewrite E. reflexivity. }
  rewrite H. reflexivity.
Qed.

Lemma round_half_even_comp (q q' : Q) :
  (q == q')%Q -> round_half_even q = round_half_even q'.
Proof.
  intros H. apply Z.le_antisymm; apply round_half_even_le; rewrite H; apply Qle_refl.
Qed.

Lemma two_power_pos (k : Z) : (0 < 2 ^ k)%Q.
Proof. apply Qpower_0_lt. reflexivity. Qed.

Lemma two_power_Z (n : Z) : 0 <= n -> (inject_Z (2 ^ n) == 2 ^ n)%Q.
Proof. intros H. apply (Zpower_Qpower 2 n H). Qed.

Lemma two_power_plus (n m : Z) : (2 ^ (n + m) == 2 ^ n * 2 ^ m)%Q.
Proof. apply Qpower_plus. discriminate. Qed.

Lemma two_power_le (n m : Z) : n <= m -> (2 ^ n <= 2 ^ m)%Q.
Proof. intros H. apply Qpower_le_compat_l; [exact H|discriminate]. Qed.

Lemma two_power_lt_inv (n m : Z) : (2 ^ n < 2 ^ m)%Q -> n < m.
Proof. intros H. eapply Qpower_lt_compat_l_inv; [exact H|reflexivity]. Qed.

Lemma Qlog2_spec (x : Q) :
  (0 < x)%Q -> (2 ^ Qlog2 x <= x)%Q /\ (x < 2 ^ (Qlog2 x + 1))%Q.
Proof.
  intros Hx. unfold Qlog2.
  set (a := Z.log2 (Qnum x)). set (b := Z.log2 (Zpos (Qden x))).
  assert (Hn : 0 < Qnum x).
  { destruct x as [n d]. unfold Qlt in Hx. simpl in *. lia. }
  destruct (Z.log2_spec _ Hn) as [Ha1 Ha2]. fold a in Ha1, Ha2.
  destruct (Z.log2_spec (Zpos (Qden x)) eq_refl) as [Hb1 Hb2]. fold b in Hb1, Hb2.
  pose proof (Z.log2_nonneg (Qnum x)) as Ha0. fold a in Ha0.
  pose proof (Z.log2_nonneg (Zpos (Qden x))) as Hb0. fold b in Hb0.
  assert (Ex : (x == inject_Z (Qnum x) / inject_Z (Zpos (Qden x)))%Q).
  { destruct x as [n d]. simpl. apply Qmake_Qdiv. }
  assert (Hd : (0 < inject_Z (Zpos (Qden x)))%Q) by reflexivity.
  rewrite Zle_Qle, two_power_Z in Ha1 by lia.
  rewrite Zlt_Qlt, two_power_Z in Ha2 by lia.
  rewrite Zle_Qle, two_power_Z in Hb1 by lia.
  rewrite Zlt_Qlt, two_power_Z in Hb2 by lia.
  set (n := inject_Z (Qnum x)) in *. set (d := inject_Z (Zpos (Qden x))) in *.
  assert (U : (x < 2 ^ (a - b + 1))%Q).
  { rewrite Ex. apply Qlt_shift_div_r; [exact Hd|].
    apply Qlt_le_trans with (2 ^ (a + 1))%Q; [exact Ha2|].
    replace (a + 1) with ((a - b + 1) + b) by lia. rewrite two_power_plus.
    apply Qmult_le_l; [apply two_power_pos|exact Hb1]. }
  assert (L : (2 ^ (a - b - 1) < x)%Q).
  { rewrite Ex. apply Qlt_shift_div_l; [exact Hd|].
    apply Qlt_le_trans with (2 ^ a)%Q; [|exact Ha1].
    replace a with ((a - b - 1) + (b + 1)) at 2 by lia. rewrite two_power_plus.
    apply Qmult_lt_l; [apply two_power_pos|exact Hb2]. }
  destruct (Qle_bool (2 ^ (a - b)) x) eqn:C.
  - apply Qle_bool_iff in C. split; assumption.
  - assert (C' : (x < 2 ^ (a - b))%Q).
    { apply Qnot_le_lt. intros H. apply Qle_bool_iff in H. congruence. }
    split; [apply Qlt_le_weak; exact L|].
    replace (a - b - 1 + 1) with (a - b) by lia. exact C'.
Qed.

Lemma Qlog2_le (x y : Q) : (0 < x)%Q -> (x <= y)%Q -> Qlog2 x <= Qlog2 y.
Proof.
  intros Hx Hxy.
  assert (Hy : (0 < y)%Q) by (eapply Qlt_le_trans; eassumption).
  destruct (Qlog2_spec Hx) as [H1 _]. destruct (Qlog2_spec Hy) as [_ H2].
  assert (H : (2 ^ Qlog2 x < 2 ^ (Qlog2 y + 1))%Q).
  { eapply Qle_lt_trans; [exact H1|]. eapply Qle_lt_trans; eassumption. }
  apply two_power_lt_inv in H. lia.
Qed.

Lemma Qlog2_unique (x : Q) (k : Z) :
  (2 ^ k <= x)%Q -> (x < 2 ^ (k + 1))%Q -> Qlog2 x = k.
Proof.
  intros H1 H2.
  assert (Hx : (0 < x)%Q) by (eapply Qlt_le_trans; [apply two_power_pos|exact H1]).
  destruct (Qlog2_spec Hx) as [G1 G2].
  assert (A : (2 ^ k < 2 ^ (Qlog2 x + 1))%Q) by (eapply Qle_lt_trans; eassumption).
  assert (B : (2 ^ Qlog2 x < 2 ^ (k + 1))%Q) by (eapply Qle_lt_trans; eassumption).
  apply two_power_lt_inv in A, B. lia.
Qed.

Lemma round_half_even_lower (q : Q) (lo : Z) :
  (inject_Z lo <= q)%Q -> lo <= round_half_even q.
Proof.
  intros H. rewrite <- (round_half_even_Z lo). apply round_half_even_le. exact H.
Qed.

Lemma round_half_even_upper (q : Q) (hi : Z) :
  (q <= inject_Z hi)%Q -> round_half_even q <= hi.
Proof.
  intros H. rewrite <- (round_half_even_Z hi). apply round_half_even_le. exact H.
Qed.

Lemma binary64_pos_nonneg (x : Q) : (0 < x)%Q -> (0 <= binary64_pos x)%Q.
Proof.
  intros Hx. unfold binary64_pos.
  set (e := Z.max (Qlog2 x - 52) (- 1074)).
  apply Qmult_le_0_compat; [|apply Qlt_le_weak, two_power_pos].
  change 0%Q with (inject_Z 0). rewrite <- Zle_Qle.
  apply round_half_even_lower. simpl.
  apply Qle_shift_div_l; [apply two_power_pos|]. rewrite Qmult_0_l.
  apply Qlt_le_weak. exact Hx.
Qed.

Lemma binary64_pos_le (x y : Q) :
  (0 < x)%Q -> (x <= y)%Q -> (binary64_pos x <= binary64_pos y)%Q.
Proof.
  intros Hx Hxy.
  assert (Hy : (0 < y)%Q) by (eapply Qlt_le_trans; eassumption).
  pose proof (Qlog2_le Hx Hxy) as Hk.
  destruct (Qlog2_spec Hx) as [_ Hx2]. destruct (Qlog2_spec Hy) as [Hy1 _].
  unfold binary64_pos.
  set (ex := Z.max (Qlog2 x - 52) (- 1074)).
  set (ey := Z.max (Qlog2 y - 52) (- 1074)).
  assert (Hex : ex <= ey) by (unfold ex, ey; lia).
  destruct (Z.eq_dec ex ey) as [E|E].
  - rewrite <- E. apply Qmult_le_compat_r; [|apply Qlt_le_weak, two_power_pos].
    rewrite <- Zle_Qle. apply round_half_even_le.
    apply Qmult_le_compat_r; [exact Hxy|].
    apply Qlt_le_weak, Qinv_lt_0_compat, two_power_pos.
  - assert (Eey : ey = Qlog2 y - 52) by (unfold ex, ey in *; lia).
    assert (Eex : Qlog2 x + 1 <= ex + 53) by (unfold ex; lia).
    apply Qle_trans with (2 ^ (ex + 53))%Q.
    + rewrite Z.add_comm, two_power_plus.
      apply Qmult_le_compat_r; [|apply Qlt_le_weak, two_power_pos].
      rewrite <- (@two_power_Z 53) by lia. rewrite <- Zle_Qle.
      apply round_half_even_upper. rewrite two_power_Z by lia.
      apply Qle_shift_div_r; [apply two_power_pos|].
      rewrite <- two_power_plus. apply Qlt_le_weak.
      eapply Qlt_le_trans; [exact Hx2|]. apply two_power_le. lia.
    + apply Qle_trans with (2 ^ (52 + ey))%Q; [apply two_power_le; lia|].
      rewrite two_power_plus.
      apply Qmult_le_compat_r; [|apply Qlt_le_weak, two_power_pos].
      rewrite <- (@two_power_Z 52) by lia. rewrite <- Zle_Qle.
      apply round_half_even_lower. rewrite two_power_Z by lia.
      apply Qle_shift_div_l; [apply two_power_pos|].
      rewrite <- two_power_plus. eapply Qle_trans; [|exact Hy1].
      apply two_power_le. lia.
Qed.

Lemma Qnum_sign (x : Q) :
  match Qnum x with
  | 0 => (x == 0)%Q
  | Zpos _ => (0 < x)%Q
  | Zneg _ => (0 < - x)%Q
  end.
Proof.
  destruct x as [[|p|p] d]; unfold Qeq, Qlt; simpl; lia.
Qed.

(** Rounding to the nearest double keeps the order. *)
Lemma binary64_le (x y : Q) : (x <= y)%Q -> (binary64 x <= binary64 y)%Q.
Proof.
  intros H. unfold binary64.
  pose proof (Qnum_sign x) as Sx. pose proof (Qnum_sign y) as Sy.
  destruct (Qnum x) as [|px|px]; destruct (Qnum y) as [|py|py].
  - apply Qle_refl.
  - apply binary64_pos_nonneg. exact Sy.
  - exfalso. lra.
  - exfalso. lra.
  - apply binary64_pos_le; assumption.
  - exfalso. lra.
  - pose proof (binary64_pos_nonneg Sx). lra.
  - pose proof (binary64_pos_nonneg Sx). pose proof (binary64_pos_nonneg Sy). lra.
  - assert (H' : (- y <= - x)%Q) by lra.
    pose proof (binary64_pos_le Sy H'). lra.
Qed.

Lemma binary64_pos_Z (n : Z) :
  0 < n <= 2 ^ 53 -> (binary64_pos (inject_Z n) == inject_Z n)%Q.
Proof.
  intros Hn. destruct (Z.log2_spec n (proj1 Hn)) as [H1 H2].
  pose proof (Z.log2_nonneg n) as H0.
  set (k := Z.log2 n) in *.
  assert (Hk : Qlog2 (inject_Z n) = k).
  { apply Qlog2_unique.
    - rewrite <- two_power_Z by lia. rewrite <- Zle_Qle. exact H1.
    - rewrite <- two_power_Z by lia. rewrite <- Zlt_Qlt. exact H2. }
  assert (Hk53 : k <= 53).
  { destruct (Z_le_gt_dec k 53) as [L|G]; [exact L|].
    assert (2 ^ 54 <= 2 ^ k) by (apply Z.pow_le_mono_r; lia).
    assert (2 ^ 53 < 2 ^ 54) by reflexivity. lia. }
  unfold binary64_pos. rewrite Hk.
  replace (Z.max (k - 52) (- 1074)) with (k - 52) by lia.
  destruct (Z.eq_dec k 53) as [E|E].
  - assert (En : n = 2 ^ 53) by (rewrite E in H1; lia).
    rewrite E, En. vm_compute. reflexivity.
  - set (j := 52 - k).
    assert (Hj : 0 <= j) by (unfold j; lia).
    assert (P : (2 ^ (k - 52) == / 2 ^ j)%Q).
    { replace (k - 52) with (- j) by (unfold j; lia). apply Qpower_opp. }
    assert (Pj : ~ (2 ^ j == 0)%Q).
    { intros Z0. pose proof (two_power_pos j) as Hp. rewrite Z0 in Hp.
      exact (Qlt_irrefl 0 Hp). }
    assert (Q1 : (inject_Z n / 2 ^ (k - 52) == inject_Z (n * 2 ^ j))%Q).
    { rewrite P, inject_Z_mult, two_power_Z by exact Hj. field. exact Pj. }
    rewrite (round_half_even_comp Q1), round_half_even_Z.
    rewrite P, inject_Z_mult, two_power_Z by exact Hj. field. exact Pj.
Qed.

(** An integer of at most 53 bits is a double. *)
Lemma binary64_Z (n : Z) :
  - 2 ^ 53 <= n <= 2 ^ 53 -> (binary64 (inject_Z n) == inject_Z n)%Q.
Proof.
  intros Hn. unfold binary64. simpl Qnum.
  destruct n as [|p|p].
  - reflexivity.
  - apply binary64_pos_Z. lia.
  - change (- inject_Z (Zneg p))%Q with (inject_Z (Zpos p)).
    rewrite binary64_pos_Z by lia. reflexivity.
Qed.

Lemma rounding_compat (rnd : Q -> Q) (x y : Q) :
  rounding_monotone rnd -> (x == y)%Q -> (rnd x == rnd y)%Q.
Proof.
  intros Hm Hxy. apply Qle_antisym; apply Hm; rewrite Hxy; apply Qle_refl.
Qed.

Lemma Rand__random_rounded_range (rnd : Q -> Q) (seed : Seed) (min max : Z) :
  randUint_uint32 -> rounding_monotone rnd -> rounding_exact rnd ->
  - 2 ^ 52 <= min -> min <= max -> max <= 2 ^ 52 ->
  min <= Rand__random_rounded rnd seed min max <= max.
Proof.
  intros Hr Hm He Hlo Hmm Hhi. unfold Rand__random_rounded. specialize (Hr seed).
  unfold rounding_exact in He.
  set (r := randUint seed) in *.
  assert (P2 : 2 ^ 52 = 4503599627370496) by reflexivity.
  assert (P3 : 2 ^ 53 = 9007199254740992) by reflexivity.
  assert (HM : (0 < inject_Z UINT32_MAX)%Q) by reflexivity.
  assert (E0 : (rnd 0 == 0)%Q) by (apply (He 0); lia).
  assert (E1 : (rnd 1 == 1)%Q) by (apply (He 1); lia).
  (* the quotient, rounded, is between 0 and 1 *)
  set (q := rnd (inject_Z r / inject_Z UINT32_MAX)%Q).
  assert (Hq0 : (0 <= q)%Q).
  { rewrite <- E0. apply Hm. apply Qle_shift_div_l; [exact HM|]. rewrite Qmult_0_l.
    change 0%Q with (inject_Z 0). rewrite <- Zle_Qle. lia. }
  assert (Hq1 : (q <= 1)%Q).
  { rewrite <- E1. apply Hm. apply Qle_shift_div_r; [exact HM|]. rewrite Qmult_1_l.
    rewrite <- Zle_Qle. lia. }
  (* the difference is a double *)
  set (d := rnd (inject_Z max - inject_Z min)%Q).
  assert (Hd : (d == inject_Z (max - min))%Q).
  { unfold d. rewrite <- (He (max - min)) by lia.
    apply rounding_compat; [exact Hm|].
    unfold Z.sub. rewrite inject_Z_plus, inject_Z_opp. reflexivity. }
  assert (Hd0 : (0 <= d)%Q).
  { rewrite Hd. change 0%Q with (inject_Z 0). rewrite <- Zle_Qle. lia. }
  (* the product, rounded, is between 0 and the difference *)
  set (p := rnd (q * d)%Q).
  assert (Hp0 : (0 <= p)%Q).
  { rewrite <- E0. apply Hm. apply Qmult_le_0_compat; assumption. }
  assert (Hp1 : (p <= inject_Z (max - min))%Q).
  { rewrite <- (He (max - min)) by lia. apply Hm.
    rewrite <- Hd. rewrite <- (Qmult_1_l d) at 2.
    apply Qmult_le_compat_r; assumption. }
  (* the sum, rounded, is between [min] and [max] *)
  apply Math_round_between.
  - apply Qle_trans with (rnd (inject_Z min)).
    + rewrite (He min) by lia. apply Qle_refl.
    + apply Hm. rewrite <- (Qplus_0_r (inject_Z min)) at 1.
      apply Qplus_le_r. exact Hp0.
  - apply Qle_trans with (rnd (inject_Z max)).
    + apply Hm. replace max with (min + (max - min)) by lia.
      rewrite inject_Z_plus. apply Qplus_le_r. exact Hp1.
    + rewrite (He max) by lia. apply Qle_refl.
Qed.

(** With no rounding the computation is the one on exact rationals. *)
Lemma Rand__random_rounded_exact (seed : Seed) (min max : Z) :
  Rand__random_rounded (fun x => x) seed min max = Rand__random seed min max.
Proof.
  unfold Rand__random_rounded, Rand__random, Math_round. apply Qfloor_comp.
  unfold Z.sub. rewrite inject_Z_plus, inject_Z_opp. reflexivity.
Qed.

(** X13: [Rand.random(min, max)], computed in doubles as the code does,
    for integers [min <= max] between [- 2 ^ 52] and [2 ^ 52], returns an
    integer between [min] and [max], both included, and the next seed; a
    seed of four unsigned 32-bit words stays one.  (From [2 ^ 53] on the
    difference [max - min] need not be a double and the result can leave
    the range.) *)
Theorem Rand_random_in_range (Hr : randUint_uint32) (min max : Z) (seed : Seed) :
  - 2 ^ 52 <= min -> min <= max -> max <= 2 ^ 52 ->
  exists i,
    Rand_random_rounded binary64 min max seed = Ok (i, Rand__nextSeed seed)
    /\ min <= i <= max
    /\ (uint32_seed seed -> uint32_seed (Rand__nextSeed seed)).
Proof.
  intros Hlo Hmm Hhi. exists (Rand__random_rounded binary64 seed min max).
  split; [reflexivity|]. split.
  - apply Rand__random_rounded_range; try assumption.
    + intros x y. apply binary64_le.
    + intros n. apply binary64_Z.
  - apply Rand__nextSeed_uint32. exact Hr.
Qed.

Lemma Rand_shuffle_fuel_seed {A} (fuel : nat) :
  forall (l l' : list A) (seed seed' : Seed),
    Rand_shuffle_fuel fuel l seed = Ok (l', seed') ->
    seed' = compose_n (pred (length l)) Rand__nextSeed seed.
Proof.
  induction fuel as [|fuel IH]; intros l l' seed seed'; simpl.
  - destruct (length l <=? 1)%nat eqn:E; [|discriminate].
    apply Nat.leb_le in E. unfold State_of. intros [= _ <-].
    destruct (length l) as [|[|n]]; try lia; reflexivity.
  - destruct (length l <=? 1)%nat eqn:E.
    + apply Nat.leb_le in E. unfold State_of. intros [= _ <-].
      destruct (length l) as [|[|n]]; try lia; reflexivity.
    + apply Nat.leb_gt in E. unfold chain, Rand_random.
      destruct (at_ l _) as [x|] eqn:Hat; [|discriminate].
      unfold State_map, chain.
      destruct (Rand_shuffle_fuel fuel _ _) as [[tail s1]|] eqn:Hrec; [|discriminate].
      unfold State_of. intros [= _ <-].
      apply IH in Hrec. apply at_Some_remove in Hat. destruct Hat as [_ Hlen].
      rewrite Hrec. rewrite compose_n_shift.
      set (n := length (R_remove _ 1 l)) in *.
      rewrite <- Hlen in E |- *. destruct n as [|n]; [lia|]. reflexivity.
Qed.

(** X14: a shuffle that returns has drawn once for each element but the
    last: the seed it returns is the seed advanced [length - 1] times.  The
    empty list and a list of one element come back as they are, with the
    seed untouched. *)
Theorem Rand_shuffle_seed {A} (l l' : list A) (seed seed' : Seed) :
  Rand_shuffle l seed = Ok (l', seed') ->
  seed' = compose_n (pred (length l)) Rand__nextSeed seed
  /\ ((length l <= 1)%nat -> l' = l /\ seed' = seed).
Proof.
  intros H. split.
  - eapply Rand_shuffle_fuel_seed. exact H.
  - intros Hlen. unfold Rand_shuffle in H.
    destruct l as [|x [|y l]]; simpl in *; try lia;
      unfold State_of in H; injection H as <- <-; auto.
Qed.

(** ** Player: revealing, unrevealing, killing *)

Lemma reveal_count (r : option Role) (l : list Influence) :
  forall k,
    R_findIndex (Influence_equals r false) l = Some k ->
    S (length (R_reject faceUp (R_adjust k (fun inf => mkInfluence (role inf) true) l)))
    = length (R_reject faceUp l)
    /\ map role (R_adjust k (fun inf => mkInfluence (role inf) true) l) = map role l.
Proof.
  induction l as [|[r' b] l IH]; intros k; simpl; [discriminate|].
  destruct (Influence_equals r false (mkInfluence r' b)) eqn:E.
  - intros [= <-]. unfold Influence_equals in E. destruct r as [r0|]; [|discriminate].
    simpl in E. apply andb_prop in E. destruct E as [_ E].
    destruct b; [discriminate|]. simpl. auto.
  - destruct (R_findIndex _ l) as [j|]; [|discriminate]. intros [= <-].
    destruct (IH j eq_refl) as [H1 H2]. simpl. rewrite H2.
    destruct b; simpl; rewrite <- H1; auto.
Qed.

Lemma unreveal_count (r : option Role) (l : list Influence) :
  forall k,
    R_findIndex (Influence_equals r true) l = Some k ->
    length (R_reject faceUp (R_adjust k (fun inf => mkInfluence (role inf) false) l))
    = S (length (R_reject faceUp l))
    /\ map role (R_adjust k (fun inf => mkInfluence (role inf) false) l) = map role l.
Proof.
  induction l as [|[r' b] l IH]; intros k; simpl; [discriminate|].
  destruct (Influence_equals r true (mkInfluence r' b)) eqn:E.
  - intros [= <-]. unfold Influence_equals in E. destruct r as [r0|]; [|discriminate].
    simpl in E. apply andb_prop in E. destruct E as [_ E].
    destruct b; [|discriminate]. simpl. auto.
  - destruct (R_findIndex _ l) as [j|]; [|discriminate]. intros [= <-].
    destruct (IH j eq_refl) as [H1 H2]. simpl. rewrite H2.
    destruct b; simpl; rewrite H1; auto.
Qed.

Lemma revealed_findIndex (r : option Role) (l : list Influence) :
  forall k,
    R_findIndex (Influence_equals r false) l = Some k ->
    exists j,
      R_findIndex (Influence_equals r true)
                  (R_adjust k (fun inf => mkInfluence (role inf) true) l) = Some j
      /\ (R_findIndex (Influence_equals r true) l = None ->
          j = k
          /\ R_adjust k (fun inf => mkInfluence (role inf) false)
                      (R_adjust k (fun inf => mkInfluence (role inf) true) l) = l).
Proof.
  induction l as [|[r' b] l IH]; intros k; simpl; [discriminate|].
  destruct (Influence_equals r false (mkInfluence r' b)) eqn:E.
  - intros [= <-]. unfold Influence_equals in E |- *. destruct r as [r0|]; [|discriminate].
    simpl in E |- *. apply andb_prop in E. destruct E as [E1 E2].
    destruct b; [discriminate|]. rewrite E1. simpl. exists O.
    split; [reflexivity|]. intros _. auto.
  - destruct (R_findIndex (Influence_equals r false) l) as [j|] eqn:Ej; [|discriminate].
    intros [= <-]. simpl. destruct (IH j eq_refl) as (i & Hi & Hrt).
    destruct (Influence_equals r true (mkInfluence r' b)) eqn:E'.
    + exists O. split; [reflexivity|]. discriminate.
    + rewrite Hi. simpl. exists (S i). split; [reflexivity|].
      destruct (R_findIndex (Influence_equals r true) l) as [x|] eqn:Ex;
        [discriminate|].
      intros _. destruct (Hrt eq_refl) as [-> Hl]. rewrite Hl. auto.
Qed.

(** X10: after [Player.revealRole] of a role, [Player.unrevealRole] of the
    same role succeeds and gives back the cash, the roles in their order and
    the count of unrevealed cards; it gives back the very player when the
    player had no revealed card of that role before (otherwise the card it
    turns face down may be another one of that role). *)
Theorem reveal_unreveal_round_trip (r : option Role) (p p' : Player) :
  Player_revealRole r p = Ok p' ->
  S (Player_countInf p') = Player_countInf p
  /\ exists p'',
      Player_unrevealRole r p' = Ok p''
      /\ cash p'' = cash p
      /\ map role (influence p'') = map role (influence p)
      /\ Player_countInf p'' = Player_countInf p
      /\ (R_findIndex (Influence_equals r true) (influence p) = None -> p'' = p).
Proof.
  unfold Player_revealRole.
  destruct (R_findIndex (Influence_equals r false) (influence p)) as [k|] eqn:Hk;
    [|discriminate].
  intros [= <-].
  destruct (reveal_count _ _ Hk) as [Hc Hroles].
  split; [exact Hc|].
  destruct (revealed_findIndex _ _ Hk) as (j & Hj & Hrt).
  unfold Player_unrevealRole. simpl. rewrite Hj.
  eexists. split; [reflexivity|]. simpl.
  destruct (unreveal_count _ _ Hj) as [Hc' Hroles'].
  split; [reflexivity|]. split; [congruence|]. split.
  - unfold Player_countInf in *. simpl in *. fold faceUp in *. lia.
  - intros Hnone. destruct (Hrt Hnone) as [-> Hl]. rewrite Hl.
    destruct p; reflexivity.
Qed.

(** X16: [Player.kill] leaves a player with no unrevealed card, hence dead,
    with the same cash and the same roles; killing twice is killing
    once. *)
Theorem Player_kill_dead (p : Player) :
  Player_countInf (Player_kill p) = 0%nat
  /\ Player_isDead (Player_kill p) = true
  /\ cash (Player_kill p) = cash p
  /\ map role (influence (Player_kill p)) = map role (influence p)
  /\ Player_kill (Player_kill p) = Player_kill p.
Proof.
  assert (H0 : Player_countInf (Player_kill p) = 0%nat).
  { unfold Player_countInf, Player_kill. simpl.
    induction (influence p) as [|x l IH]; simpl; auto. }
  split; [exact H0|]. split.
  { unfold Player_isDead, Player_hasNInf. rewrite H0. reflexivity. }
  split; [reflexivity|]. unfold Player_kill. simpl. split.
  - rewrite map_map. reflexivity.
  - rewrite map_map. reflexivity.
Qed.

(** ** Game.opponents *)

Lemma R_mapIndexed_pair_In {A} (l : list A) :
  forall (from i : Z) (x : A),
    In (x, i) (R_mapIndexed_pair from l)
    <-> from <= i /\ nth_error l (Z.to_nat (i - from)) = Some x.
Proof.
  induction l as [|y l IH]; intros from i x; simpl.
  - split; [tauto|]. intros [_ H]. destruct (Z.to_nat (i - from)); discriminate.
  - rewrite IH. split.
    + intros [[= -> ->]| [Hle Hn]].
      * split; [lia|]. rewrite Z.sub_diag. reflexivity.
      * split; [lia|].
        replace (Z.to_nat (i - from)) with (S (Z.to_nat (i - (from + 1)))) by lia.
        exact Hn.
    + intros [Hle Hn]. destruct (Z.eq_dec i from) as [->|Hne].
      * left. rewrite Z.sub_diag in Hn. simpl in Hn. congruence.
      * right. split; [lia|].
        replace (Z.to_nat (i - from)) with (S (Z.to_nat (i - (from + 1)))) in Hn by lia.
        exact Hn.
Qed.

Lemma R_mapIndexed_pair_NoDup {A} (l : list A) :
  forall from, NoDup (map snd (R_mapIndexed_pair from l))
               /\ forall i, In i (map snd (R_mapIndexed_pair from l)) -> from <= i.
Proof.
  induction l as [|y l IH]; intros from; simpl.
  - split; [constructor|tauto].
  - destruct (IH (from + 1)) as [Hnd Hge]. split.
    + constructor; [|exact Hnd]. intros Hin. apply Hge in Hin. lia.
    + intros i [<-|Hin]; [lia|]. apply Hge in Hin. lia.
Qed.

Lemma NoDup_map_filter {A B} (f : A -> B) (keep : A -> bool) (l : list A) :
  NoDup (map f l) -> NoDup (map f (filter keep l)).
Proof.
  induction l as [|x l IH]; simpl; [auto|]. intros H.
  inversion H as [|? ? Hnin Hnd]; subst.
  destruct (keep x); simpl; [|auto].
  constructor; [|auto]. intros Hin. apply Hnin.
  apply in_map_iff in Hin. destruct Hin as (y & Hy & Hin).
  apply filter_In in Hin. destruct Hin as [Hin _].
  apply in_map_iff. exists y. auto.
Qed.

(** X15: [Game.opponents] lists exactly the indices of the players that
    are alive and are not the one whose turn it is, each once. *)
Theorem Game_opponents_spec (game : Context) :
  (forall i,
      In i (Game_opponents game)
      <-> exists p, at_ (players game) i = Some p
                    /\ Player_isDead p = false /\ i <> whoseTurn game)
  /\ NoDup (Game_opponents game).
Proof.
  split.
  - intros i. unfold Game_opponents. rewrite in_map_iff. split.
    + intros ([p j] & Hj & Hin). simpl in Hj. subst j.
      apply filter_In in Hin. destruct Hin as [Hin Hkeep].
      apply R_mapIndexed_pair_In in Hin. destruct Hin as [Hle Hn].
      simpl in Hkeep. apply andb_prop in Hkeep. destruct Hkeep as [Hd Ht].
      exists p. rewrite Z.sub_0_r in Hn. unfold at_.
      destruct (Z.ltb_spec i 0); [lia|].
      split; [exact Hn|]. split.
      * destruct (Player_isDead p); [discriminate|reflexivity].
      * intros ->. rewrite Z.eqb_refl in Ht. discriminate.
    + intros (p & Hat & Hd & Hne). exists (p, i). split; [reflexivity|].
      apply filter_In. split.
      * apply R_mapIndexed_pair_In. unfold at_ in Hat.
        destruct (Z.ltb_spec i 0); [discriminate|].
        split; [lia|]. rewrite Z.sub_0_r. exact Hat.
      * simpl. rewrite Hd. simpl. destruct (Z.eqb_spec i (whoseTurn game)); [tauto|].
        reflexivity.
  - unfold Game_opponents. apply NoDup_map_filter.
    apply R_mapIndexed_pair_NoDup.
Qed.

(** ** GameDef.makeDeck *)

(** X18: the deck [makeDeck] builds holds each role three times for each
    time [roles] names it, and nothing else: three cards per role. *)
Theorem GameDef_makeDeck_three (this : GameDef) (r : Role) :
  count_occ string_dec (GameDef_makeDeck this) r
  = (3 * count_occ string_dec (roles this) r)%nat
  /\ length (GameDef_makeDeck this) = (3 * length (roles this))%nat
  /\ (In r (GameDef_makeDeck this) <-> GameDef_isValidRole this (Some r) = true).
Proof.
  unfold GameDef_makeDeck, GameDef_isValidRole, R_includes.
  induction (roles this) as [|x l IH]; simpl.
  - split; [reflexivity|]. split; [reflexivity|]. split; [tauto|discriminate].
  - destruct IH as (IH1 & IH2 & IH3). simpl in IH1, IH2, IH3. split; [|split].
    + destruct (string_dec x r); rewrite IH1; lia.
    + rewrite IH2. lia.
    + rewrite IH3. destruct (String.eqb_spec r x) as [->|Hne]; simpl.
      * split; auto.
      * split; [intros [H|[H|[H|H]]]; congruence|auto].
Qed.

(** ** Where the machine rests, and with what context *)

Lemma reachable_rest (c0 : Context) (st : MachineState) :
  reachable c0 st ->
  selectTransition (always (GameMachine (value st))) (context st) nullEvent = Ok None.
Proof.
  intros Hr. destruct Hr as [|st e st' _ Ht].
  - reflexivity.
  - eapply transition_rest. exact Ht.
Qed.

Lemma transition_invariant (Inv : StateName -> Context -> Prop) :
  (forall s c ev t st' lg,
      Inv s c -> selected s c ev t -> microstep t c ev = Ok (st', lg) ->
      Inv (value st') (context st')) ->
  forall st ev st',
    Inv (value st) (context st) -> transition st ev = Ok st' ->
    Inv (value st') (context st').
Proof.
  intros Hedge st ev st' HI. unfold transition.
  destruct (transitionLog st ev) as [[st1 lg]|] eqn:Ht; simpl; [|discriminate].
  intros [= <-].
  apply (@transitionLog_invariant unit (fun g _ => g) (fun s c _ => Inv s c))
    with (g := tt) in Ht; auto.
  intros s c g e t st2 lg2. apply Hedge.
Qed.

Lemma rest_not_transient (s : StateName) (c : Context) :
  selectTransition (always (GameMachine s)) c nullEvent = Ok None ->
  transientState s = false.
Proof.
  intros Ht.
  destruct s; try reflexivity;
    cbn [GameMachine always selectTransition cond] in Ht;
    split_guards Ht; discriminate.
Qed.

(** X5: a transition never ends in ExecRevealOnChallenge,
    ExecCounterReveal, FinishAction or EndOfTurn: the state it returns is one
    in which the machine waits for an event, or GameOver. *)
Theorem transition_rests (st st' : MachineState) (ev : Event) :
  transition st ev = Ok st' -> transientState (value st') = false.
Proof.
  intros Ht. apply transition_rest in Ht.
  eapply rest_not_transient. exact Ht.
Qed.

(** X3: whenever a reachable machine is in StartOfTurn, the action, the
    target, the blocker, the challenger, the revealer and the revealed role
    of the context are all unset. *)
Theorem StartOfTurn_context_reset (c0 : Context) (st : MachineState) :
  reachable c0 st -> value st = StartOfTurn ->
  currentAction (context st) = None /\ target (context st) = None
  /\ blocker (context st) = None /\ challenger (context st) = None
  /\ revealer (context st) = None /\ revealedRole (context st) = None.
Proof.
  intros Hr.
  set (Inv := fun (s : StateName) (c : Context) =>
                s = StartOfTurn ->
                currentAction c = None /\ target c = None /\ blocker c = None
                /\ challenger c = None /\ revealer c = None /\ revealedRole c = None).
  change (Inv (value st) (context st)).
  induction Hr as [|st e st' Hr IH Ht].
  - intros _. simpl. auto 10.
  - eapply transition_invariant; [|exact IH|exact Ht].
    clear. intros s c ev t st' lg _ Hsel Hm.
    apply microstep_inv in Hm. destruct Hm as (Hv & _ & Hu).
    unfold Inv. rewrite Hv. intros Htgt.
    destruct Hsel as [[-> Hsel] | [Hty Hsel]]; apply selectTransition_In in Hsel.
    + destruct s; simpl in Hsel; break_cases; simpl in Htgt; try discriminate.
      simpl in Hu. destruct (advanceTurn c) as [c1|]; simpl in Hu; [|discriminate].
      injection Hu as <-. simpl. auto 10.
    + destruct s, (e_type ev); simpl in Hsel; break_cases; simpl in Htgt;
        discriminate.
Qed.

(** X4: a reachable machine is in GameOver only with exactly one living
    player, and there it stays: every event of a type the machine knows is
    taken without an error and changes nothing. *)
Theorem GameOver_one_living_player (c0 : Context) (st : MachineState) :
  reachable c0 st -> value st = GameOver ->
  length (R_reject Player_isDead (players (context st))) = 1%nat
  /\ forall ev, e_type ev <> UNKNOWN -> transition st ev = Ok st.
Proof.
  intros Hr Hv. split.
  - apply Nat.eqb_eq. change (Game_isOver (context st) = true). revert Hv.
    set (Inv := fun (s : StateName) (c : Context) =>
                  s = GameOver -> Game_isOver c = true).
    change (Inv (value st) (context st)).
    induction Hr as [|st e st' Hr IH Ht].
    + discriminate.
    + eapply transition_invariant; [|exact IH|exact Ht].
      clear. intros s c ev t st' lg _ Hsel Hm.
      apply microstep_inv in Hm. destruct Hm as (Hv & _ & Hu).
      unfold Inv. rewrite Hv. intros Htgt.
      destruct Hsel as [[-> Hsel] | [Hty Hsel]].
      * destruct s; cbn [GameMachine always selectTransition cond] in Hsel;
          split_guards Hsel; try discriminate Hsel;
          injection Hsel as <-; simpl in Htgt; try discriminate.
        simpl in Hu. injection Hu as <-.
        apply evaluateGuard_Ok in Eg. simpl in Eg. congruence.
      * apply selectTransition_In in Hsel.
        destruct s, (e_type ev); simpl in Hsel; break_cases; simpl in Htgt;
          discriminate.
  - intros ev Hty. unfold transition, transitionLog. rewrite Hv.
    destruct st as [v c]. simpl in Hv. subst v.
    destruct (e_type ev); try congruence; reflexivity.
Qed.

(** ** Cards: what the actions do to the deck and the influence *)

Lemma R_adjust_middle {A} (fn : A -> A) (l1 l2 : list A) (x : A) :
  R_adjust (length l1) fn (l1 ++ x :: l2) = l1 ++ fn x :: l2.
Proof.
  induction l1 as [|y l1 IH]; simpl; [reflexivity|]. rewrite IH. reflexivity.
Qed.

Lemma R_update_split {A} (l : list A) (i : Z) (p : A) :
  at_ l i = Some p ->
  exists l1 l2, l = l1 ++ p :: l2
                /\ forall x, R_update (Z.to_nat i) x l = l1 ++ x :: l2.
Proof.
  intros H. destruct (at_Some_split _ _ H) as (l1 & l2 & -> & Hlen).
  exists l1, l2. split; [reflexivity|]. intros x.
  unfold R_update. rewrite <- Hlen. apply R_adjust_middle.
Qed.

Lemma sum_nat_app {A} (f : A -> nat) (l1 l2 : list A) :
  sum_nat f (l1 ++ l2) = (sum_nat f l1 + sum_nat f l2)%nat.
Proof.
  induction l1 as [|x l1 IH]; simpl; [reflexivity|]. rewrite IH. lia.
Qed.

Lemma R_over_Player_lens_players (idx : option Z) (f : Player -> Result Player)
      (c c' : Context) :
  R_over (Player_lens idx) f c = Ok c' ->
  exists l1 p l2 p',
    f p = Ok p' /\ players c = l1 ++ p :: l2 /\ players c' = l1 ++ p' :: l2
    /\ deck c' = deck c /\ seed c' = seed c.
Proof.
  intros H. apply R_over_Player_lens_inv in H.
  destruct H as (i & p & p' & _ & Hat & Hf & ->).
  destruct (R_update_split _ _ Hat) as (l1 & l2 & Hl & Hupd).
  exists l1, p, l2, p'. simpl. rewrite Hupd. auto.
Qed.

Lemma replaceInfluence_players (c c' : Context) :
  replaceInfluence c = Ok c' ->
  exists l1 p l2 p1 r top rest s' k,
    players c = l1 ++ p :: l2
    /\ revealedRole c = Some r
    /\ Player_unrevealRole (Some r) p = Ok p1
    /\ Rand_shuffle (r :: deck c) (seed c) = Ok (top :: rest, s')
    /\ R_findIndex (Influence_equals (Some r) false) (influence p1) = Some k
    /\ deck c' = rest /\ seed c' = s'
    /\ players c'
       = l1 ++ mkPlayer (cash p1)
                 (R_adjust k (fun inf => mkInfluence top (revealed inf)) (influence p1))
            :: l2.
Proof.
  unfold replaceInfluence.
  destruct (R_over _ _ c) as [c1|] eqn:Hover; simpl; [|discriminate].
  intros Hre. apply redealPlayerRole_inv in Hre.
  destruct Hre as (r & i & p2 & top & rest & s' & k & Hr & Hi & Hat2 & Hsh & Hk & ->).
  apply R_over_Player_lens_inv in Hover.
  destruct Hover as (i' & p & p1 & Hi' & Hat & Hun & ->).
  assert (i' = i) by congruence. subst i'.
  simpl in Hat2, Hsh. erewrite at_R_update_same in Hat2; [|exact Hat].
  injection Hat2 as <-.
  destruct (at_Some_split _ _ Hat) as (l1 & l2 & Hl & Hlen).
  exists l1, p, l2, p1, r, top, rest, s', k. simpl.
  rewrite Hr in Hun. repeat split; auto.
  rewrite Hl. unfold R_update. rewrite <- Hlen.
  rewrite R_adjust_middle, R_adjust_middle. reflexivity.
Qed.

Lemma swap_roles (r top : Role) (l : list Influence) :
  forall k,
    R_findIndex (Influence_equals (Some r) false) l = Some k ->
    (exists a b,
        map role l = a ++ r :: b
        /\ map role (R_adjust k (fun inf => mkInfluence top (revealed inf)) l)
           = a ++ top :: b)
    /\ length (R_reject faceUp (R_adjust k (fun inf => mkInfluence top (revealed inf)) l))
       = length (R_reject faceUp l).
Proof.
  induction l as [|[r' b'] l IH]; intros k; [discriminate|].
  cbn [R_findIndex].
  destruct (Influence_equals (Some r) false (mkInfluence r' b')) eqn:E.
  - intros [= <-]. simpl in E. apply andb_prop in E. destruct E as [E1 E2].
    apply String.eqb_eq in E1. subst r'. split.
    + exists [], (map role l). simpl. auto.
    + simpl. unfold faceUp. simpl. destruct b'; reflexivity.
  - destruct (R_findIndex _ l) as [j|]; [|discriminate]. intros [= <-].
    destruct (IH j eq_refl) as [(a & b & Ha & Hb) Hc]. split.
    + exists (r' :: a), b. simpl. rewrite Ha, Hb. auto.
    + unfold faceUp in *. simpl. destruct b'; simpl; rewrite Hc; reflexivity.
Qed.

Lemma rolesInPlay_players (c c' : Context) (l1 l2 : list Player) (p p' : Player) :
  players c = l1 ++ p :: l2 -> players c' = l1 ++ p' :: l2 -> deck c' = deck c ->
  map role (influence p') = map role (influence p) ->
  rolesInPlay c' = rolesInPlay c.
Proof.
  intros H1 H2 H3 H4. unfold rolesInPlay. rewrite H1, H2, H3.
  rewrite !flat_map_app. simpl. rewrite H4. reflexivity.
Qed.

Lemma unrevealedCount_players (c : Context) (l1 l2 : list Player) (p : Player) :
  players c = l1 ++ p :: l2 ->
  unrevealedCount c
  = (sum_nat Player_countInf l1 + Player_countInf p + sum_nat Player_countInf l2)%nat.
Proof.
  intros H. unfold unrevealedCount. rewrite H, sum_nat_app. simpl. lia.
Qed.

Lemma unrevealedCount_replace (c c' : Context) (l1 l2 : list Player) (p p' : Player) :
  players c = l1 ++ p :: l2 -> players c' = l1 ++ p' :: l2 ->
  (unrevealedCount c' + Player_countInf p = unrevealedCount c + Player_countInf p')%nat.
Proof.
  intros H1 H2.
  rewrite (unrevealedCount_players _ _ _ _ H1), (unrevealedCount_players _ _ _ _ H2).
  lia.
Qed.

Lemma swap_Permutation {A} (r top : A) (deck rest X Y : list A) :
  Permutation (r :: deck) (top :: rest) ->
  Permutation (rest ++ X ++ top :: Y) (deck ++ X ++ r :: Y).
Proof.
  intros H.
  apply Permutation_trans with ((top :: rest) ++ (X ++ Y)).
  - simpl. rewrite app_assoc. rewrite app_assoc.
    apply Permutation_sym. apply Permutation_middle.
  - apply Permutation_trans with ((r :: deck) ++ (X ++ Y)).
    + apply Permutation_app_tail. apply Permutation_sym. exact H.
    + simpl. rewrite app_assoc. rewrite (app_assoc deck X (r :: Y)).
      apply Permutation_middle.
Qed.

(** What each action does to the deck, to the roles in play and to the
    number of unrevealed cards. *)
Lemma execAction_cards_detail (a : ActionName) (c c' : Context) (ev : Event) :
  execAction a c ev = Ok c' ->
  length (deck c') = length (deck c)
  /\ Permutation (rolesInPlay c') (rolesInPlay c)
  /\ match a with
     | RevealInfluence => S (unrevealedCount c') = unrevealedCount c
     | ReplaceInfluence => unrevealedCount c' = S (unrevealedCount c)
     | _ => unrevealedCount c' = unrevealedCount c
     end.
Proof.
  assert (Hcash : forall d c1,
             R_over activePlayerLens (fun p => Ok (Player_adjustCash d p)) c = Ok c1 ->
             length (deck c1) = length (deck c)
             /\ Permutation (rolesInPlay c1) (rolesInPlay c)
             /\ unrevealedCount c1 = unrevealedCount c).
  { intros d c1 Hover.
    apply (@R_over_Player_lens_players (Some (whoseTurn c))) in Hover.
    destruct Hover as (l1 & p & l2 & p' & [= <-] & H1 & H2 & H3 & _).
    split; [congruence|]. split.
    - erewrite rolesInPlay_players; eauto.
    - rewrite (unrevealedCount_players _ _ _ _ H1),
        (unrevealedCount_players _ _ _ _ H2). reflexivity. }
  destruct a; simpl; try (intros [= <-]; auto; fail).
  - (* advanceTurn *)
    unfold advanceTurn. destruct (players c) eqn:E; [discriminate|].
    intros [= <-]. unfold rolesInPlay, unrevealedCount. simpl. auto.
  - (* applyAction *)
    unfold applyAction, assign, Game_applyAction.
    repeat match goal with
           | |- context [if ?b then _ else _] => destruct b
           end;
      try (destruct (R_over activePlayerLens _ c) as [c1|] eqn:Hover; simpl;
           [|discriminate]; intros [= <-]; eapply Hcash; exact Hover);
      simpl; intros [= <-]; auto.
  - (* revealInfluence *)
    unfold revealInfluence.
    match goal with |- (r <- ?m ;; _) = _ -> _ => destruct m as [r|]; simpl; [|discriminate] end.
    destruct (R_over _ _ c) as [c1|] eqn:Hover; simpl; [|discriminate].
    intros [= <-]. apply R_over_Player_lens_players in Hover.
    destruct Hover as (l1 & p & l2 & p' & Hf & H1 & H2 & H3 & _).
    unfold Player_revealRole in Hf.
    destruct (R_findIndex _ (influence p)) as [k|] eqn:Hk; [|discriminate].
    injection Hf as <-. destruct (reveal_count _ _ Hk) as [Hc Hroles].
    split; [simpl; congruence|]. split.
    + erewrite (@rolesInPlay_players c); eauto.
    + pose proof (unrevealedCount_replace _ _ _ _ _ _ H1 H2) as Hsum.
      match type of Hsum with
      | context [Player_countInf ?q] =>
        assert (Hq : S (Player_countInf q) = Player_countInf p) by exact Hc
      end.
      unfold unrevealedCount in *. simpl. lia.
  - (* replaceInfluence *)
    intros H. apply replaceInfluence_players in H.
    destruct H as (l1 & p & l2 & p1 & r & top & rest & s' & k
                   & H1 & Hr & Hun & Hsh & Hk & Hd & _ & H2).
    apply Rand_shuffle_fuel_Permutation in Hsh.
    unfold Player_unrevealRole in Hun.
    destruct (R_findIndex _ (influence p)) as [j|] eqn:Hj; [|discriminate].
    injection Hun as <-. simpl in Hk, H2.
    destruct (unreveal_count _ _ Hj) as [Hc Hroles].
    destruct (@swap_roles r top _ _ Hk) as [(a & b & Ha & Hb) Hc'].
    split; [|split].
    + rewrite Hd. apply Permutation_length in Hsh. simpl in Hsh. lia.
    + unfold rolesInPlay. rewrite H1, H2, Hd, !flat_map_app. simpl.
      rewrite Hb. rewrite <- Hroles, Ha.
      rewrite <- !app_assoc. simpl.
      rewrite (app_assoc (flat_map _ l1) a), (app_assoc (flat_map _ l1) a).
      apply swap_Permutation. exact Hsh.
    + pose proof (unrevealedCount_replace _ _ _ _ _ _ H1 H2) as Hsum.
      match type of Hsum with
      | context [Player_countInf (mkPlayer ?x ?y)] =>
        assert (Hq : Player_countInf (mkPlayer x y) = S (Player_countInf p))
          by (unfold Player_countInf; simpl; fold faceUp; lia)
      end.
      lia.
  - (* payActionCost *)
    unfold payActionCost.
    destruct (GameDef_getCost _ _) as [cost|]; simpl; [|discriminate].
    apply Hcash.
Qed.

Lemma controlStep_size_def (ev : Event) (acts : list ActionName) :
  forall k, k_size (fold_left (controlStep ev) acts k) = k_size k
            /\ k_def (fold_left (controlStep ev) acts k) = k_def k.
Proof.
  induction acts as [|a acts IH]; intros k; simpl; [auto|].
  destruct (IH (controlStep ev k a)) as [H1 H2]. rewrite H1, H2.
  destruct a; simpl; auto.
Qed.

Lemma updateContext_cards_detail (ev : Event) (acts : list ActionName) :
  forall c c',
    updateContext acts c ev = Ok c' ->
    length (deck c') = length (deck c)
    /\ Permutation (rolesInPlay c') (rolesInPlay c)
    /\ (unrevealedCount c' + revealsOf acts
        = unrevealedCount c + replacesOf acts)%nat.
Proof.
  induction acts as [|a acts IH]; intros c c'; simpl.
  - intros [= <-]. auto.
  - destruct (execAction a c ev) as [c1|] eqn:Ha; simpl; [|discriminate].
    intros H. apply IH in H. destruct H as (H1 & H2 & H3).
    apply execAction_cards_detail in Ha. destruct Ha as (G1 & G2 & G3).
    split; [congruence|]. split; [eapply Permutation_trans; eauto|].
    unfold revealsOf, replacesOf in *. destruct a; simpl in *; lia.
Qed.

(** X7: no transition changes the rulebook, the number of players or the
    number of cards in the deck: a role that leaves the deck is replaced by
    the role that was put back. *)
Theorem sizes_constant (st st' : MachineState) (ev : Event) :
  transition st ev = Ok st' ->
  def (context st') = def (context st)
  /\ length (players (context st')) = length (players (context st))
  /\ length (deck (context st')) = length (deck (context st)).
Proof.
  intros Ht.
  apply (@transition_invariant
           (fun _ c => def c = def (context st)
                       /\ length (players c) = length (players (context st))
                       /\ length (deck c) = length (deck (context st))))
    with (st := st) (ev := ev); auto.
  clear. intros s c ev t st' lg (H1 & H2 & H3) _ Hm.
  apply microstep_inv in Hm. destruct Hm as (_ & _ & Hu).
  pose proof (updateContext_control _ _ _ Hu) as Hk.
  apply updateContext_cards_detail in Hu. destruct Hu as (Hd & _).
  destruct (controlStep_size_def ev (actions t ++ entry (GameMachine (t_target t)))
                                 (control c)) as [Hs Hdef].
  rewrite <- Hk in Hs, Hdef. simpl in Hs, Hdef.
  repeat split; congruence.
Qed.

(** X8: the roles of the deck and of all influence cards together are the
    same roles, each as many times, in every reachable state as in the
    initial context, and every transition keeps them: no role is made or
    lost, revealed or not. *)
Theorem roles_conserved (c0 : Context) (st : MachineState) :
  reachable c0 st ->
  Permutation (rolesInPlay (context st)) (rolesInPlay c0)
  /\ forall ev st', transition st ev = Ok st' ->
                    Permutation (rolesInPlay (context st')) (rolesInPlay (context st)).
Proof.
  assert (Hstep : forall st ev st',
             transition st ev = Ok st' ->
             Permutation (rolesInPlay (context st')) (rolesInPlay (context st))).
  { intros st1 ev st2 Ht.
    apply (@transition_invariant
             (fun _ c => Permutation (rolesInPlay c) (rolesInPlay (context st1))))
      with (st := st1) (ev := ev); auto.
    clear. intros s c ev t st' lg HI _ Hm.
    apply microstep_inv in Hm. destruct Hm as (_ & _ & Hu).
    apply updateContext_cards_detail in Hu. destruct Hu as (_ & Hp & _).
    eapply Permutation_trans; eauto. }
  intros Hr. split; [|apply Hstep].
  induction Hr as [|st e st' Hr IH Ht].
  - apply Permutation_refl.
  - eapply Permutation_trans; [apply (Hstep _ _ _ Ht)|exact IH].
Qed.

(** X9: a transition from a state the machine rests in never raises the
    number of unrevealed influence cards: a card once revealed is lost,
    unless it was shown to win a challenge, and then it is replaced in the
    same transition.  With the deck as long as before, deck plus unrevealed
    influence never goes up. *)
Theorem unrevealed_never_increases (st st' : MachineState) (ev : Event) :
  transientState (value st) = false ->
  transition st ev = Ok st' ->
  (unrevealedCount (context st') <= unrevealedCount (context st))%nat
  /\ (deckPlusUnrevealed (context st') <= deckPlusUnrevealed (context st))%nat.
Proof.
  intros Hrest Ht.
  set (owed := fun s : StateName =>
                 match s with ExecRevealOnChallenge => 1%nat | _ => 0%nat end).
  assert (H : (unrevealedCount (context st') + owed (value st')
               <= unrevealedCount (context st))%nat
              /\ length (deck (context st')) = length (deck (context st))).
  { apply (@transition_invariant
             (fun s c => (unrevealedCount c + owed s <= unrevealedCount (context st))%nat
                         /\ length (deck c) = length (deck (context st))))
      with (st := st) (ev := ev); auto.
    - clear Ht Hrest. intros s c e t st2 lg [HI Hd] Hsel Hm.
      apply microstep_inv in Hm. destruct Hm as (Hv & _ & Hu).
      apply updateContext_cards_detail in Hu. destruct Hu as (Hd' & _ & Hc).
      rewrite Hv. split; [|congruence].
      destruct Hsel as [[-> Hsel] | [Hty Hsel]]; apply selectTransition_In in Hsel.
      + destruct s; simpl in Hsel; break_cases;
          unfold revealsOf, replacesOf in Hc; simpl in *; lia.
      + destruct s, (e_type e); simpl in Hsel; break_cases;
          unfold revealsOf, replacesOf in Hc; simpl in *; lia.
    - split; [|reflexivity]. destruct (value st); simpl in *; try lia; discriminate. }
  destruct H as [H Hd]. apply transition_rest in Ht. apply rest_not_transient in Ht.
  assert (H0 : owed (value st') = 0%nat)
    by (destruct (value st'); simpl in *; try reflexivity; discriminate).
  rewrite H0 in H. unfold deckPlusUnrevealed. lia.
Qed.

(** ** A REVEAL that the guard accepts *)

Lemma playerHasRole_findIndex (r : Role) (l : list Influence) :
  existsb (fun inf => Bool.eqb (revealed inf) false && String.eqb (role inf) r) l = true ->
  exists k, R_findIndex (Influence_equals (Some r) false) l = Some k.
Proof.
  induction l as [|[r' b] l IH]; simpl; [discriminate|].
  destruct (String.eqb_spec r r') as [<-|Hne]; simpl.
  - destruct b; simpl.
    + intros H. destruct (IH H) as [k ->]. simpl. eauto.
    + eauto.
  - destruct (String.eqb_spec r' r) as [->|_]; [congruence|].
    rewrite andb_false_r. simpl. intros H. destruct (IH H) as [k ->]. simpl. eauto.
Qed.

Lemma find_unrevealed_findIndex (l : list Influence) (inf : Influence) :
  find (fun inf => negb (revealed inf)) l = Some inf ->
  exists k, R_findIndex (Influence_equals (Some (role inf)) false) l = Some k.
Proof.
  induction l as [|[r' b] l IH]; simpl; [discriminate|].
  destruct b; simpl.
  - intros H. rewrite andb_false_r. destruct (IH H) as [k ->]. simpl. eauto.
  - intros [= <-]. simpl. rewrite String.eqb_refl. simpl. eauto.
Qed.

(** X11: when [assertCanReveal] accepts a REVEAL event, [revealInfluence]
    with that event does not throw: it reveals one card of the revealer,
    the number of unrevealed cards goes down by one, and the role it records
    is the role of the event unless that is the empty string (which
    JavaScript takes for no role: then the first unrevealed role is
    revealed). *)
Theorem accepted_reveal_succeeds (c : Context) (ev : Event) :
  assertCanReveal c ev = Ok true ->
  exists c' r,
    revealInfluence c ev = Ok c'
    /\ revealedRole c' = Some r
    /\ (e_role ev <> Some "" -> e_role ev = Some r)
    /\ S (unrevealedCount c') = unrevealedCount c
    /\ deck c' = deck c.
Proof.
  unfold assertCanReveal.
  destruct (assertValidPlayer_cases c ev) as [[-> Hv]| ->]; simpl; [|discriminate].
  destruct (opt_eqb (e_player ev) (revealer c)) eqn:Hrev; simpl; [|discriminate].
  destruct (GameDef_isValidRole (def c) (e_role ev)) eqn:Hrole; simpl; [|discriminate].
  destruct (validIdx_view Hv) as (i & p & Hp & Hat & _).
  unfold Game_playerHasRole. rewrite Hp. simpl. rewrite Hat. simpl.
  destruct (existsb _ (influence p)) eqn:Hheld; simpl; [|discriminate].
  intros _.
  assert (Hr : revealer c = Some i).
  { rewrite Hp in Hrev. destruct (revealer c) as [j|]; simpl in Hrev; [|discriminate].
    apply Z.eqb_eq in Hrev. congruence. }
  destruct (e_role ev) as [r|] eqn:Er;
    [|unfold GameDef_isValidRole in Hrole; discriminate].
  destruct (playerHasRole_findIndex _ _ Hheld) as [k Hk].
  assert (Hgo : forall r' k',
             R_findIndex (Influence_equals (Some r') false) (influence p) = Some k' ->
             exists c',
               R_over (Player_lens (revealer c)) (Player_revealRole (Some r')) c = Ok c'
               /\ S (unrevealedCount c') = unrevealedCount c /\ deck c' = deck c).
  { intros r' k' Hk'. unfold R_over. rewrite Hr. simpl. rewrite Hat. simpl.
    unfold Player_revealRole. rewrite Hk'. simpl. eexists. split; [reflexivity|].
    destruct (R_update_split _ _ Hat) as (l1 & l2 & Hl & Hupd).
    destruct (reveal_count _ _ Hk') as [Hc _]. split; [|reflexivity].
    unfold unrevealedCount. simpl. rewrite Hupd, Hl, !sum_nat_app. simpl.
    match goal with
    | |- context [Player_countInf (mkPlayer ?x ?y)] =>
      assert (Hq : S (Player_countInf (mkPlayer x y)) = Player_countInf p) by exact Hc
    end.
    lia. }
  unfold revealInfluence. cbv zeta. rewrite Er.
  set (over := R_over (Player_lens (revealer c))) in *.
  rewrite Hr. cbn [view Player_lens bindR]. rewrite Hat. cbn [bindR].
  unfold Role in *.
  destruct (String.eqb_spec r "") as [->|Hne]; cbn [bindR].
  - unfold Player_getFirstRole.
    destruct (find _ (influence p)) as [inf|] eqn:Hfind.
    + destruct (find_unrevealed_findIndex _ Hfind) as [k' Hk'].
      destruct (Hgo _ _ Hk') as (c' & Hc' & Hcount & Hdeck).
      cbn [option_map]. eexists _, _.
      change (@Some string) with (@Some Role) in *.
      rewrite Hc'. cbn [bindR].
      split; [reflexivity|]. simpl. repeat split; auto. congruence.
    + exfalso. clear -Hheld Hfind.
      induction (influence p) as [|[r' b] l IH]; simpl in *; [discriminate|].
      destruct b; simpl in *; [auto|discriminate].
  - destruct (Hgo _ _ Hk) as (c' & Hc' & Hcount & Hdeck).
    eexists _, _. rewrite Hc'. cbn [bindR].
    split; [reflexivity|]. simpl. repeat split; auto.
Qed.

(** ** Cash *)

Lemma at_map {A B} (f : A -> B) (l : list A) (i : Z) :
  at_ (map f l) i = option_map f (at_ l i).
Proof.
  unfold at_. destruct (i <? 0); [reflexivity|]. apply nth_error_map.
Qed.

Lemma cashNonNegative_ext (c c' : Context) :
  map cash (players c') = map cash (players c) ->
  cashNonNegative c -> cashNonNegative c'.
Proof.
  unfold cashNonNegative. intros H Hc.
  apply Forall_map. rewrite H. apply Forall_map. exact Hc.
Qed.

Lemma canAfford_ext (c c' : Context) :
  map cash (players c') = map cash (players c) ->
  def c' = def c -> currentAction c' = currentAction c -> whoseTurn c' = whoseTurn c ->
  canAfford c -> canAfford c'.
Proof.
  intros Hcash Hd Ha Hw (cost & p & Hcost & Hat & Hle). unfold canAfford.
  rewrite Hd, Ha, Hw.
  assert (H : at_ (map cash (players c')) (whoseTurn c) = Some (cash p)).
  { rewrite Hcash, at_map, Hat. reflexivity. }
  rewrite at_map in H. destruct (at_ (players c') (whoseTurn c)) as [p'|]; [|discriminate].
  injection H as H. exists cost, p'. repeat split; auto. lia.
Qed.

Lemma execAction_quiet (a : ActionName) (c c' : Context) (ev : Event) :
  quiet [a] = true -> execAction a c ev = Ok c' ->
  map cash (players c') = map cash (players c).
Proof.
  destruct a; simpl; try discriminate; intros _; try (intros [= <-]; reflexivity).
  - unfold advanceTurn. destruct (players c) eqn:E; [discriminate|].
    intros [= <-]. simpl. rewrite E. reflexivity.
  - unfold revealInfluence.
    match goal with |- (r <- ?m ;; _) = _ -> _ => destruct m as [r|]; simpl; [|discriminate] end.
    destruct (R_over _ _ c) as [c1|] eqn:Hover; simpl; [|discriminate].
    intros [= <-]. apply R_over_Player_lens_players in Hover.
    destruct Hover as (l1 & p & l2 & p' & Hf & H1 & H2 & _).
    unfold Player_revealRole in Hf. destruct (R_findIndex _ _); [|discriminate].
    injection Hf as <-. simpl. rewrite H1, H2, !map_app. reflexivity.
  - intros H. apply replaceInfluence_players in H.
    destruct H as (l1 & p & l2 & p1 & r & top & rest & s' & k
                   & H1 & _ & Hun & _ & _ & _ & _ & H2).
    unfold Player_unrevealRole in Hun. destruct (R_findIndex _ _); [|discriminate].
    injection Hun as <-. rewrite H1, H2, !map_app. reflexivity.
Qed.

Lemma updateContext_quiet (ev : Event) (acts : list ActionName) :
  forall c c',
    quiet acts = true -> updateContext acts c ev = Ok c' ->
    map cash (players c') = map cash (players c).
Proof.
  induction acts as [|a acts IH]; intros c c'; simpl.
  - intros _ [= <-]. reflexivity.
  - intros Hq. apply andb_prop in Hq. destruct Hq as [Ha Hq].
    destruct (execAction a c ev) as [c1|] eqn:Hex; simpl; [|discriminate].
    intros H. apply IH in H; [|exact Hq].
    apply execAction_quiet in Hex; [congruence|]. simpl. rewrite Ha. reflexivity.
Qed.

Lemma Forall_middle {A} (P : A -> Prop) (l1 l2 : list A) (x y : A) :
  Forall P (l1 ++ x :: l2) -> P y -> Forall P (l1 ++ y :: l2).
Proof.
  intros H Hy. apply Forall_app in H. destruct H as [H1 H2].
  inversion H2; subst. apply Forall_app. split; [exact H1|]. constructor; assumption.
Qed.

Lemma adjustCash_cash (d : Z) (c c' : Context) :
  R_over activePlayerLens (fun p => Ok (Player_adjustCash d p)) c = Ok c' ->
  (forall p, at_ (players c) (whoseTurn c) = Some p -> 0 <= d + cash p) ->
  cashNonNegative c -> cashNonNegative c'.
Proof.
  intros Hover Hd Hc. apply R_over_activePlayerLens_inv in Hover.
  destruct Hover as (p & p' & Hat & [= <-] & ->).
  unfold cashNonNegative in *. simpl.
  destruct (at_Some_split _ _ Hat) as (l1 & l2 & Hl & Hlen).
  unfold R_update. rewrite Hl in Hc |- *. rewrite <- Hlen, R_adjust_middle.
  eapply Forall_middle; [exact Hc|]. simpl. apply Hd. exact Hat.
Qed.

Lemma applyAction_cash (c c' : Context) :
  applyAction c = Ok c' -> cashNonNegative c -> cashNonNegative c'.
Proof.
  intros H Hc.
  assert (Hpos : forall p, at_ (players c) (whoseTurn c) = Some p -> 0 <= cash p).
  { intros p Hat. unfold cashNonNegative in Hc. rewrite Forall_forall in Hc.
    apply Hc. apply at_nth_error in Hat. eapply nth_error_In. exact Hat. }
  revert H. unfold applyAction, assign, Game_applyAction.
  repeat match goal with
         | |- context [if ?b then _ else _] => destruct b
         end;
    try (destruct (R_over activePlayerLens _ c) as [c1|] eqn:Hover; simpl;
         [|discriminate]; intros [= <-];
         eapply adjustCash_cash; [exact Hover| |exact Hc];
         intros p Hat; specialize (Hpos p Hat); lia);
    simpl; intros [= <-]; exact Hc.
Qed.

Lemma payActionCost_cash (c c' : Context) :
  payActionCost c = Ok c' -> canAfford c -> cashNonNegative c -> cashNonNegative c'.
Proof.
  unfold payActionCost. intros H (cost & p & Hcost & Hat & Hle) Hc.
  rewrite Hcost in H. simpl in H.
  eapply adjustCash_cash; [exact H| |exact Hc].
  intros p' Hat'. rewrite Hat in Hat'. injection Hat' as <-. lia.
Qed.

Lemma assertCanStartAction_afford (c : Context) (ev : Event) (b : bool) :
  assertCanStartAction c ev = Ok b -> canAfford (setCurrentAction c ev).
Proof.
  unfold assertCanStartAction.
  destruct (assertValidPlayer c ev) as [b0|]; simpl; [|discriminate].
  destruct (GameDef_isValidAction (def c) (e_action ev)); simpl; [|discriminate].
  destruct (opt_eqb (e_player ev) (Some (whoseTurn c))) eqn:Hp; simpl; [|discriminate].
  destruct (GameDef_isTargeted (def c) (e_action ev)) as [tg|]; simpl; [|discriminate].
  match goal with
  | |- (_ <- ?m ;; _) = _ -> _ => destruct m; simpl; [|discriminate]
  end.
  unfold Game_playerCanAffordAction.
  destruct (GameDef_getCost (def c) (e_action ev)) as [cost|] eqn:Hcost; simpl;
    [|discriminate].
  destruct (e_player ev) as [i|]; simpl in Hp; [|discriminate].
  apply Z.eqb_eq in Hp. subst i. simpl.
  destruct (at_ (players c) (whoseTurn c)) as [p|] eqn:Hat; simpl; [|discriminate].
  destruct (Z.leb_spec cost (cash p)); simpl; [|discriminate].
  intros _. exists cost, p. simpl. auto.
Qed.

Ltac cash_steps Hu :=
  repeat match type of Hu with
         | bindR (applyAction ?x) _ = _ =>
           let E := fresh "Happ" in
           destruct (applyAction x) eqn:E; cbn [bindR] in Hu; [|discriminate Hu];
           generalize (@applyAction_cash _ _ E); clear E; intro E
         | bindR (payActionCost ?x) _ = _ =>
           let E := fresh "Hpay" in
           destruct (payActionCost x) eqn:E; cbn [bindR] in Hu; [|discriminate Hu];
           generalize (@payActionCost_cash _ _ E); clear E; intro E
         end;
  try (injection Hu as Hu; rewrite <- Hu).

Lemma CashInv_microstep :
  forall s c ev t st' lg,
    CashInv s c -> selected s c ev t -> microstep t c ev = Ok (st', lg) ->
    CashInv (value st') (context st').
Proof.
  intros s c ev t st' lg [Hc HI] Hsel Hm.
  apply microstep_inv in Hm. destruct Hm as (Hv & _ & Hu).
  rewrite Hv. unfold CashInv.
  pose proof (updateContext_control _ _ _ Hu) as Hk.
  pose proof (fun Hq => updateContext_quiet _ _ _ Hq Hu) as Hquiet.
  assert (Hext : quiet (actions t ++ entry (GameMachine (t_target t))) = true ->
                 k_currentAction (fold_left (controlStep ev)
                    (actions t ++ entry (GameMachine (t_target t))) (control c))
                 = currentAction c ->
                 k_whoseTurn (fold_left (controlStep ev)
                    (actions t ++ entry (GameMachine (t_target t))) (control c))
                 = whoseTurn c ->
                 canAfford c -> canAfford (context st')).
  { intros Hq Ha Hw Haff. rewrite <- Hk in Ha, Hw. simpl in Ha, Hw.
    destruct (controlStep_size_def ev (actions t ++ entry (GameMachine (t_target t)))
                                   (control c)) as [_ Hdef].
    rewrite <- Hk in Hdef. simpl in Hdef.
    eapply canAfford_ext;
      [apply Hquiet; exact Hq | exact Hdef | exact Ha | exact Hw | exact Haff]. }
  assert (Hblk : k_blocker (fold_left (controlStep ev)
                    (actions t ++ entry (GameMachine (t_target t))) (control c))
                 = blocker (context st')).
  { rewrite <- Hk. reflexivity. }
  destruct Hsel as [[-> Hsel] | [Hty Hsel]].
  - destruct s; cbn [GameMachine always selectTransition cond] in Hsel;
      split_guards Hsel; try discriminate Hsel;
      injection Hsel as <-; cbn in Hquiet, Hext, Hblk |- *.
    all: try (split; [eapply cashNonNegative_ext; [apply Hquiet; reflexivity|exact Hc]
                     | try exact I;
                       try (intros Hb; apply Hext; auto; apply HI; congruence)]; fail).
    all: cbn [updateContext execAction bindR app actions entry GameMachine t_target]
           in Hu; cash_steps Hu.
    + split; [|exact I]. apply Happ. exact Hc.
    + split; [|exact I]. apply Happ. exact Hc.
    + split; [|exact I]. apply Hpay; [|exact Hc].
      apply evaluateGuard_Ok in Eg. simpl in Eg. injection Eg as Eg.
      unfold ifActionWasBlocked in Eg. destruct (blocker c) eqn:Eb; [discriminate|].
      apply HI. reflexivity.
    + split; [|exact I]. apply Happ. exact Hc.
  - destruct s; destruct (e_type ev);
      cbn [GameMachine on candidates filter map fst snd EventType_eqb
           selectTransition cond] in Hsel;
      try discriminate Hsel; try congruence;
      split_guards Hsel; try discriminate Hsel;
      injection Hsel as <-; cbn in Hquiet, Hext, Hblk |- *.
    all: try (split; [eapply cashNonNegative_ext; [apply Hquiet; reflexivity|exact Hc]
                     | try exact I;
                       try (intros Hb; apply Hext; auto; apply HI; congruence)]; fail).
    all: cbn [updateContext execAction bindR app actions entry GameMachine t_target]
           in Hu; cash_steps Hu.
    all: apply evaluateGuard_Ok in Eg; cbn [evalGuard] in Eg.
    + split; [exact Hc|]. eapply assertCanStartAction_afford. exact Eg.
    + split; [apply Hpay; [exact HI|exact Hc]|].
      simpl. eapply assertCanBlock_player. exact Eg.
    + split; [|exact I]. apply Happ. apply Hpay; [exact HI|exact Hc].
    + split; [exact Hc|]. intros Hb. exfalso. apply HI. exact Hb.
    + split; [exact Hc|]. simpl. eapply assertCanBlock_player. exact Eg.
    + split; [|exact I]. apply Happ. exact Hc.
Qed.

(** X2: no player's cash is ever negative.  From a context in which every
    player's cash is non-negative, every context the machine can reach has
    that property: an action is only started when the player whose turn it is
    can afford it, and its cost is deducted at most once before it is
    applied. *)
Theorem cash_never_negative (c0 : Context) (st : MachineState) :
  reachable c0 st -> cashNonNegative c0 -> cashNonNegative (context st).
Proof.
  intros Hreach Hc0.
  assert (H : CashInv (value st) (context st)).
  { induction Hreach as [|st e st' _ IH Ht].
    - split; [exact Hc0|exact I].
    - eapply transition_invariant; [exact CashInv_microstep|exact IH|exact Ht]. }
  exact (proj1 H).
Qed.

(** ** Lenses and the deck *)

Lemma with_deck_eta (c : Context) : with_deck (deck c) c = c.
Proof. destruct c. reflexivity. Qed.

Lemma with_players_eta (c : Context) : with_players (players c) c = c.
Proof. destruct c. reflexivity. Qed.

Lemma R_adjust_other {A} (fn : A -> A) (l : list A) :
  forall n m, n <> m -> nth_error (R_adjust n fn l) m = nth_error l m.
Proof.
  induction l as [|x l IH]; intros [|n] [|m] H; simpl; try reflexivity; try congruence.
  apply IH. congruence.
Qed.

Lemma R_adjust_twice {A} (f g : A -> A) (l : list A) :
  forall n, R_adjust n g (R_adjust n f l) = R_adjust n (fun x => g (f x)) l.
Proof.
  induction l as [|x l IH]; intros [|n]; simpl; try reflexivity.
  rewrite IH. reflexivity.
Qed.

(** X20: [Player.lens(idx)], for an index of a player, is a lens: what is
    set is what is viewed, setting what is viewed changes nothing, a second
    set overrides the first, and the other players are not touched. *)
Theorem Player_lens_laws (c : Context) (i : Z) (p p' : Player) :
  0 <= i < Z.of_nat (length (players c)) ->
  view (Player_lens (Some i)) (set (Player_lens (Some i)) p c) = Ok p
  /\ (forall p0, view (Player_lens (Some i)) c = Ok p0 ->
                 set (Player_lens (Some i)) p0 c = c)
  /\ set (Player_lens (Some i)) p' (set (Player_lens (Some i)) p c)
     = set (Player_lens (Some i)) p' c
  /\ (forall j, j <> i ->
                view (Player_lens (Some j)) (set (Player_lens (Some i)) p c)
                = view (Player_lens (Some j)) c).
Proof.
  intros Hi. destruct (@at_in_range _ _ _ Hi) as [q Hq]. repeat split.
  - simpl. erewrite at_R_update_same; eauto.
  - intros p0. simpl. rewrite Hq. intros [= <-].
    destruct (@R_update_split _ _ _ _ Hq) as (l1 & l2 & Hl & Hup).
    rewrite Hup, <- Hl. apply with_players_eta.
  - simpl. unfold R_update. rewrite R_adjust_twice. reflexivity.
  - intros j Hj. simpl. unfold at_. destruct (Z.ltb_spec j 0); [reflexivity|].
    unfold R_update. rewrite R_adjust_other; [reflexivity|]. lia.
Qed.

(** X19: [Game.popDeck_s] after [Game.pushDeck_s(role)] returns [role] and
    leaves the context exactly as it was. *)
Theorem pushDeck_popDeck_round_trip (r : Role) (c : Context) :
  chain (Game_pushDeck_s (Some r)) (fun _ => Game_popDeck_s) c = Ok (r, c).
Proof.
  unfold chain, Game_pushDeck_s, Game_popDeck_s, liftDeck, processing, chain,
    State_get, State_map, chain, State_put, State_of.
  simpl. destruct c. reflexivity.
Qed.

(** X17: [Game.shuffleDeck_s] always returns; it replaces the deck by a
    permutation of it, moves the seed on by one draw for each card but the
    last, and changes nothing else of the context. *)
Theorem Game_shuffleDeck_s_spec (Hr : randUint_uint32) (c : Context) :
  exists deck',
    Game_shuffleDeck_s c
    = Ok (tt, with_deck deck'
                (with_seed (compose_n (pred (length (deck c))) Rand__nextSeed (seed c)) c))
    /\ Permutation (deck c) deck'.
Proof.
  destruct (Rand_shuffle_fuel_total Hr (deck c) (seed c) (Nat.le_refl _))
    as (l' & seed' & H1 & H2).
  exists l'. split; [|eapply Rand_shuffle_fuel_Permutation; exact H1].
  apply Rand_shuffle_fuel_seed in H1. subst seed'.
  unfold Game_shuffleDeck_s, liftDeck, liftRand, processing, chain,
    State_get, State_map, chain, State_put, State_of.
  simpl. rewrite H2. reflexivity.
Qed.
(** ** Whose turn it is *)

Lemma microstep_turn (s : StateName) (c : Context) (ev : Event) (t : Transition)
      (st' : MachineState) (lg : list LogItem) :
  selected s c ev t -> microstep t c ev = Ok (st', lg) ->
  length (players (context st')) = length (players c)
  /\ (whoseTurn (context st') = whoseTurn c
      \/ (value st' = StartOfTurn
          /\ whoseTurn (context st')
             = Z.rem (whoseTurn c + 1) (Z.of_nat (length (players c))))).
Proof.
  intros Hsel Hm. apply microstep_inv in Hm. destruct Hm as (Hv & _ & Hu).
  apply updateContext_control in Hu.
  assert (Hw : whoseTurn (context st') = k_whoseTurn (control (context st')))
    by reflexivity.
  assert (Hn : length (players (context st')) = k_size (control (context st')))
    by reflexivity.
  rewrite Hu in Hw, Hn. rewrite Hv. clear Hu Hv. split.
  - rewrite Hn.
    destruct (controlStep_size_def ev (actions t ++ entry (GameMachine (t_target t)))
                                   (control c)) as [Hs _].
    rewrite Hs. reflexivity.
  - rewrite Hw. clear Hw Hn. destruct Hsel as [[-> Hsel] | [Hty Hsel]].
    + destruct s; cbn [GameMachine always selectTransition cond] in Hsel;
        split_guards Hsel; try discriminate Hsel;
        injection Hsel as <-; cbn; auto.
    + destruct s; destruct (e_type ev);
        cbn [GameMachine on candidates filter map fst snd EventType_eqb
             selectTransition cond] in Hsel;
        try discriminate Hsel; try congruence;
        split_guards Hsel; try discriminate Hsel;
        injection Hsel as <-; cbn; auto.
Qed.

Lemma resolveTransient_turn (fuel : nat) :
  forall st st' lg,
    resolveTransient fuel st = Ok (st', lg) ->
    length (players (context st')) = length (players (context st))
    /\ (whoseTurn (context st') = whoseTurn (context st)
        \/ (value st' = StartOfTurn
            /\ whoseTurn (context st')
               = Z.rem (whoseTurn (context st) + 1)
                       (Z.of_nat (length (players (context st)))))).
Proof.
  induction fuel as [|fuel IH]; intros st st' lg; simpl; [discriminate|].
  destruct (selectTransition _ _ _) as [[t|]|] eqn:Hsel; simpl; try discriminate.
  - destruct (microstep t (context st) nullEvent) as [[st1 log1]|] eqn:Hm;
      simpl; [|discriminate].
    destruct (resolveTransient fuel st1) as [[st2 log2]|] eqn:Hr; simpl; [|discriminate].
    intros [= <- <-].
    apply (@microstep_turn (value st)) in Hm; [|left; auto].
    destruct Hm as [Hn [Hw | [Hs Hw]]].
    + apply IH in Hr. rewrite Hn, Hw in Hr. exact Hr.
    + destruct fuel as [|fuel]; simpl in Hr; [discriminate|].
      rewrite Hs in Hr. simpl in Hr. injection Hr as <- _. auto.
  - intros [= <- <-]. auto.
Qed.

(** X21: the turn passes only at the end of a turn and only to the next
    seat.  After a transition either [whoseTurn] is what it was, or the
    machine is in StartOfTurn and [whoseTurn] is the remainder of the old
    value plus one by the number of players. *)
Theorem turn_passes_to_next_seat (st st' : MachineState) (ev : Event) :
  transition st ev = Ok st' ->
  whoseTurn (context st') = whoseTurn (context st)
  \/ (value st' = StartOfTurn
      /\ whoseTurn (context st')
         = Z.rem (whoseTurn (context st) + 1)
                 (Z.of_nat (length (players (context st))))).
Proof.
  unfold transition.
  destruct (transitionLog st ev) as [[st1 lg]|] eqn:Ht; simpl; [|discriminate].
  intros [= <-]. revert Ht.
  assert (Hgen : e_type ev <> UNKNOWN ->
    (sel <- selectTransition (candidates (GameMachine (value st)) (e_type ev))
                             (context st) ev ;;
     match sel with
     | None => resolveTransient transient_fuel st
     | Some t =>
       ' (st1, log1) <- microstep t (context st) ev ;;
       ' (st2, log2) <- resolveTransient transient_fuel st1 ;;
       Ok (st2, log1 ++ log2)
     end) = Ok (st1, lg) ->
    whoseTurn (context st1) = whoseTurn (context st)
    \/ (value st1 = StartOfTurn
        /\ whoseTurn (context st1)
           = Z.rem (whoseTurn (context st) + 1)
                   (Z.of_nat (length (players (context st)))))).
  { intros Hty.
    destruct (selectTransition _ _ _) as [[t|]|] eqn:Hsel; cbn [bindR]; try (intros Hx; discriminate Hx).
    - destruct (microstep t (context st) ev) as [[st2 log1]|] eqn:Hm;
        cbn [bindR]; [|intros Hx; discriminate Hx].
      destruct (resolveTransient transient_fuel st2) as [[st3 log2]|] eqn:Hr;
        cbn [bindR]; [|intros Hx; discriminate Hx].
      intros [= <- <-].
      apply (@microstep_turn (value st)) in Hm; [|right; auto].
      destruct Hm as [Hn [Hw | [Hs Hw]]].
      + apply resolveTransient_turn in Hr. rewrite Hn, Hw in Hr. apply Hr.
      + unfold transient_fuel in Hr. simpl in Hr.
        rewrite Hs in Hr. simpl in Hr. injection Hr as <- _. auto.
    - intros Hr. apply resolveTransient_turn in Hr. apply Hr. }
  unfold transitionLog.
  destruct (e_type ev) eqn:Ety; try (apply Hgen; discriminate). discriminate.
Qed.

(** ** Numbers that are no index *)



End Engine.

(* ================================================================== *)
(** * The properties at sample inputs *)

Lemma sample_randUint_uint32 : randUint_uint32 sample_randUint.
Proof.
  intros seed. unfold sample_randUint, UINT32_MAX.
  pose proof (Z.mod_pos_bound (nth 0 seed 0 * 1103515245 + 12345) (2 ^ 32)) as H.
  lia.
Defined.

Lemma Rand_shuffle_permutation_witness :
  exists l' seed',
    Rand_shuffle sample_randUint ["duke"; "assassin"; "captain"; "contessa"] sample_seed
    = Ok (l', seed')
    /\ Permutation ["duke"; "assassin"; "captain"; "contessa"] l'.
Proof.
  destruct (Rand_shuffle_permutation sample_randUint_uint32 sample_seed
              ["duke"; "assassin"; "captain"; "contessa"])
    as (l' & seed' & H1 & H2 & _).
  exists l', seed'. split; assumption.
Defined.

(** C1 as stated fails: after a correct challenge of a tax the revealed
    card stays with its player and the deck is as it was, so the deck
    length plus the unrevealed influence is one less than initially. *)
Lemma deckPlusUnrevealed_not_constant :
  ~ (forall st, reachable sample_randUint sample_game2 st ->
                deckPlusUnrevealed (context st)
                = deckPlusUnrevealed (context (initialState sample_game2))).
Proof.
  intros H.
  destruct (run sample_randUint (initialState sample_game2)
                [ACTION_ "tax" 0; CHALLENGE_ 1; REVEAL_ "captain" 0])
    as [st|] eqn:Hrun; [|vm_compute in Hrun; discriminate].
  assert (Hreach : reachable sample_randUint sample_game2 st)
    by (eapply run_reachable; [apply reach_init|exact Hrun]).
  specialize (H st Hreach).
  vm_compute in Hrun. injection Hrun as <-.
  vm_compute in H. discriminate.
Qed.

Lemma deckPlusInfluence_constant_witness :
  exists st,
    run sample_randUint (initialState sample_game2)
        [ACTION_ "tax" 0; CHALLENGE_ 1; REVEAL_ "duke" 0; REVEAL_ "duke" 1] = Ok st
    /\ deckPlusInfluence (context st) = deckPlusInfluence sample_game2.
Proof.
  destruct (run sample_randUint (initialState sample_game2)
                [ACTION_ "tax" 0; CHALLENGE_ 1; REVEAL_ "duke" 0; REVEAL_ "duke" 1])
    as [st|] eqn:Hrun; [|vm_compute in Hrun; discriminate].
  exists st. split; [reflexivity|].
  apply (@deckPlusInfluence_constant sample_randUint sample_game2 st).
  eapply run_reachable; [apply reach_init|exact Hrun].
Defined.

(** C9 as stated fails at its end: after an ACTION coup from a player with
    cash 7 the machine is in StartOfTurn with a context like any other;
    the coup has cost nothing and taken no influence. *)
Lemma coup_leaves_context :
  transition sample_randUint (initialState sample_rich) (ACTION_on "coup" 0 1)
  = Ok (mkState StartOfTurn (with_whoseTurn 1 (resetContext sample_rich))).
Proof. vm_compute. reflexivity. Qed.

Lemma applyAction_unapplied_witness :
  exists st' lg,
    transitionLog sample_randUint (initialState sample_rich) (ACTION_on "coup" 0 1)
    = Ok (st', lg)
    /\ In (Ran ApplyAction) lg
    /\ players (context st') = players sample_rich.
Proof.
  destruct (@applyAction_unapplied sample_randUint (initialState sample_rich)
              (ACTION_on "coup" 0 1))
    as (_ & st' & lg & H1 & H2 & _ & H3 & _);
    [reflexivity | reflexivity | reflexivity | vm_compute; reflexivity |].
  exists st', lg. auto.
Defined.

(** C3 on the code: with three players, the second one dead, the turn
    passes from the first player to the dead one. *)
Lemma advanceTurn_reaches_dead_player :
  exists st,
    run sample_randUint (initialState sample_game3)
        (sample_events3 ++ [ACTION_ "income" 0]) = Ok st
    /\ value st = StartOfTurn
    /\ whoseTurn (context st) = 1
    /\ Game_playerHasNInf (Some 1) 0 (context st) = Ok true
    /\ Game_isOver (context st) = false.
Proof.
  eexists. split; [vm_compute; reflexivity|]. vm_compute. auto.
Qed.

(** C10: the guards ask of the sender no more than an index into
    [players]; in a reachable state the second player, who is dead, sends
    a BLOCK, a CHALLENGE and an ALLOW, and the machine takes each. *)
Theorem dead_player_accepted :
  (forall c ev,
      assertValidPlayer c ev = Ok true
      <-> exists i, e_player ev = Some i /\ 0 <= i < Z.of_nat (length (players c)))
  /\ exists st,
      reachable sample_randUint sample_game3 st
      /\ Game_playerHasNInf (Some 1) 0 (context st) = Ok true
      /\ (exists st1 st2,
             transition sample_randUint st (ACTION_ "foreign-aid" 0) = Ok st1
             /\ transition sample_randUint st1 (BLOCK_ "duke" 1) = Ok st2
             /\ value st2 = Block /\ blocker (context st2) = Some 1)
      /\ (exists st1 st2,
             transition sample_randUint st (ACTION_ "tax" 0) = Ok st1
             /\ transition sample_randUint st1 (CHALLENGE_ 1) = Ok st2
             /\ value st2 = Challenge /\ challenger (context st2) = Some 1)
      /\ (exists st1 st2,
             transition sample_randUint st (ACTION_ "tax" 0) = Ok st1
             /\ transition sample_randUint st1 (ALLOW_ 1) = Ok st2
             /\ value st2 = StartOfTurn
             /\ Game_playerHasCash (Some 0) 7 (context st2) = Ok true).
Proof.
  split; [apply assertValidPlayer_iff|].
  destruct (run sample_randUint (initialState sample_game3) sample_events3)
    as [st|] eqn:Hrun; [|vm_compute in Hrun; discriminate].
  exists st. split; [eapply run_reachable; [apply reach_init|exact Hrun]|].
  vm_compute in Hrun. injection Hrun as <-.
  split; [vm_compute; reflexivity|].
  repeat split; eexists _, _;
    (split; [vm_compute; reflexivity|]); (split; [vm_compute; reflexivity|]);
    vm_compute; auto.
Qed.

Lemma ExecRevealOnChallenge_branches_witness :
  exists st' lg',
    transitionLog sample_randUint (mkState Challenge sample_challenged) (REVEAL_ "duke" 0)
    = Ok (st', [Entered ExecRevealOnChallenge; Ran RevealInfluence]
               ++ Entered ChallengeIncorrect :: lg').
Proof.
  destruct (@ExecRevealOnChallenge_branches sample_randUint sample_revealed true)
    as (t & _ & Htgt & _ & _ & _ & _ & Hin); [vm_compute; reflexivity|].
  destruct (transitionLog sample_randUint (mkState Challenge sample_challenged)
                          (REVEAL_ "duke" 0)) as [[st' lg]|] eqn:Ht;
    [|vm_compute in Ht; discriminate].
  destruct (Hin (mkState Challenge sample_challenged) (REVEAL_ "duke" 0)
                (mkTransition ExecRevealOnChallenge (Some AssertCanReveal) [])
                [Entered ExecRevealOnChallenge; Ran RevealInfluence]) as [_ Hlog];
    [discriminate | vm_compute; reflexivity | vm_compute; reflexivity |].
  destruct (Hlog st' lg Ht) as [lg' ->]. rewrite Htgt.
  exists st', lg'. reflexivity.
Defined.


Lemma guard_rejection_witness :
  transition sample_randUint (initialState sample_game2) (ACTION_on "assassinate" 0 1)
  = Err (IllegalEvent (CannotAffordAction (Some 0) (Some "assassinate")))
  /\ send sample_randUint (initialState sample_game2) (ACTION_on "assassinate" 0 1)
     = initialState sample_game2.
Proof.
  destruct (@guard_rejection sample_randUint (initialState sample_game2)
              (ACTION_on "assassinate" 0 1)
              (mkTransition WaitForResponse (Some AssertCanStartAction) [])
              AssertCanStartAction
              (CannotAffordAction (Some 0) (Some "assassinate")))
    as (_ & H1 & H2);
    [left; reflexivity | reflexivity | vm_compute; reflexivity |].
  split; assumption.
Defined.

Lemma run_deterministic_witness :
  run sample_randUint (initialState sample_game2)
      [ACTION_ "tax" 0; CHALLENGE_ 1; REVEAL_ "duke" 0]
  = run sample_randUint
        (initialState (with_revealer (Some 1) (with_currentAction (Some "tax") sample_game2)))
        [ACTION_ "tax" 0; CHALLENGE_ 1; REVEAL_ "duke" 0].
Proof.
  destruct (@run_deterministic sample_randUint sample_game2
              (with_revealer (Some 1) (with_currentAction (Some "tax") sample_game2))
              [ACTION_ "tax" 0; CHALLENGE_ 1; REVEAL_ "duke" 0])
    as (H & _); [repeat split|].
  exact H.
Defined.

Lemma payActionCost_at_most_once_witness :
  exists st lg,
    runLog sample_randUint (initialState sample_game2) sample_events2 = Ok (st, lg)
    /\ value st = Block
    /\ In (Ran PayActionCost) lg
    /\ paidAtMostOnce ([Entered StartOfTurn; Ran ResetContext] ++ lg).
Proof.
  destruct (runLog sample_randUint (initialState sample_game2) sample_events2)
    as [[st lg]|] eqn:Hrun; [|vm_compute in Hrun; discriminate].
  exists st, lg. split; [reflexivity|].
  assert (Hpay : paidAtMostOnce ([Entered StartOfTurn; Ran ResetContext] ++ lg)).
  { apply (@payActionCost_at_most_once sample_randUint sample_game2 st).
    eapply runLog_trace; [apply trace_init|exact Hrun]. }
  vm_compute in Hrun. injection Hrun as <- <-.
  split; [reflexivity|].
  split; [simpl; repeat (try (left; reflexivity); right)|exact Hpay].
Defined.


(** ** Further properties at sample inputs *)

Lemma transition_defined_witness :
  exists st,
    run sample_randUint (initialState sample_game2) sample_events2 = Ok st
    /\ defined (transition sample_randUint st (ALLOW_ 1)).
Proof.
  destruct (run sample_randUint (initialState sample_game2) sample_events2)
    as [st|] eqn:Hrun; [|vm_compute in Hrun; discriminate].
  exists st. split; [reflexivity|].
  apply (@transition_defined sample_randUint sample_randUint_uint32 sample_game2 st
           (ALLOW_ 1)).
  - simpl. lia.
  - eapply run_reachable; [apply reach_init|exact Hrun].
Defined.

Lemma cash_never_negative_witness :
  exists st,
    run sample_randUint (initialState sample_game2) sample_events2 = Ok st
    /\ cashNonNegative (context st).
Proof.
  destruct (run sample_randUint (initialState sample_game2) sample_events2)
    as [st|] eqn:Hrun; [|vm_compute in Hrun; discriminate].
  exists st. split; [reflexivity|].
  apply (@cash_never_negative sample_randUint sample_game2 st).
  - eapply run_reachable; [apply reach_init|exact Hrun].
  - unfold cashNonNegative. simpl. repeat constructor; simpl; lia.
Defined.

Lemma StartOfTurn_context_reset_witness :
  exists st,
    run sample_randUint (initialState sample_game2)
        [ACTION_ "tax" 0; CHALLENGE_ 1; REVEAL_ "duke" 0; REVEAL_ "duke" 1] = Ok st
    /\ value st = StartOfTurn
    /\ currentAction (context st) = None /\ challenger (context st) = None.
Proof.
  destruct (run sample_randUint (initialState sample_game2)
                [ACTION_ "tax" 0; CHALLENGE_ 1; REVEAL_ "duke" 0; REVEAL_ "duke" 1])
    as [st|] eqn:Hrun; [|vm_compute in Hrun; discriminate].
  exists st. split; [reflexivity|].
  assert (Hv : value st = StartOfTurn)
    by (vm_compute in Hrun; injection Hrun as <-; reflexivity).
  split; [exact Hv|].
  destruct (@StartOfTurn_context_reset sample_randUint sample_game2 st)
    as (H1 & _ & _ & H4 & _).
  - eapply run_reachable; [apply reach_init|exact Hrun].
  - exact Hv.
  - split; assumption.
Defined.

Lemma GameOver_one_living_player_witness :
  exists st,
    run sample_randUint (initialState sample_game_noduke) sample_events_over = Ok st
    /\ value st = GameOver
    /\ length (R_reject Player_isDead (players (context st))) = 1%nat
    /\ transition sample_randUint st (ACTION_ "income" 0) = Ok st.
Proof.
  destruct (run sample_randUint (initialState sample_game_noduke) sample_events_over)
    as [st|] eqn:Hrun; [|vm_compute in Hrun; discriminate].
  exists st. split; [reflexivity|].
  assert (Hv : value st = GameOver)
    by (vm_compute in Hrun; injection Hrun as <-; reflexivity).
  split; [exact Hv|].
  destruct (@GameOver_one_living_player sample_randUint sample_game_noduke st) as [H1 H2].
  - eapply run_reachable; [apply reach_init|exact Hrun].
  - exact Hv.
  - split; [exact H1|]. apply H2. discriminate.
Defined.

Lemma transition_rests_witness :
  exists st',
    transition sample_randUint (initialState sample_game2) (ACTION_ "tax" 0) = Ok st'
    /\ transientState (value st') = false.
Proof.
  destruct (transition sample_randUint (initialState sample_game2) (ACTION_ "tax" 0))
    as [st'|] eqn:Ht; [|vm_compute in Ht; discriminate].
  exists st'. split; [reflexivity|].
  exact (@transition_rests sample_randUint (initialState sample_game2) st'
           (ACTION_ "tax" 0) Ht).
Defined.

Lemma sizes_constant_witness :
  exists st',
    transition sample_randUint (initialState sample_game2) (ACTION_ "income" 0) = Ok st'
    /\ length (players (context st')) = 2%nat
    /\ length (deck (context st')) = 15%nat.
Proof.
  destruct (transition sample_randUint (initialState sample_game2) (ACTION_ "income" 0))
    as [st'|] eqn:Ht; [|vm_compute in Ht; discriminate].
  exists st'. split; [reflexivity|].
  destruct (@sizes_constant sample_randUint (initialState sample_game2) st'
              (ACTION_ "income" 0) Ht) as (_ & H2 & H3).
  split; [exact H2|exact H3].
Defined.

Lemma roles_conserved_witness :
  exists st,
    run sample_randUint (initialState sample_game2)
        [ACTION_ "tax" 0; CHALLENGE_ 1; REVEAL_ "duke" 0; REVEAL_ "duke" 1] = Ok st
    /\ Permutation (rolesInPlay (context st)) (rolesInPlay sample_game2).
Proof.
  destruct (run sample_randUint (initialState sample_game2)
                [ACTION_ "tax" 0; CHALLENGE_ 1; REVEAL_ "duke" 0; REVEAL_ "duke" 1])
    as [st|] eqn:Hrun; [|vm_compute in Hrun; discriminate].
  exists st. split; [reflexivity|].
  apply (@roles_conserved sample_randUint sample_game2 st).
  eapply run_reachable; [apply reach_init|exact Hrun].
Defined.

Lemma unrevealed_never_increases_witness :
  exists st',
    transition sample_randUint (initialState sample_game2) (ACTION_ "tax" 0) = Ok st'
    /\ (unrevealedCount (context st') <= 4)%nat.
Proof.
  destruct (transition sample_randUint (initialState sample_game2) (ACTION_ "tax" 0))
    as [st'|] eqn:Ht; [|vm_compute in Ht; discriminate].
  exists st'. split; [reflexivity|].
  destruct (@unrevealed_never_increases sample_randUint (initialState sample_game2) st'
              (ACTION_ "tax" 0)) as [H _].
  - reflexivity.
  - exact Ht.
  - exact H.
Defined.

Lemma reveal_unreveal_round_trip_witness :
  exists p',
    Player_revealRole (Some "duke") (mkPlayer 2 [card "duke"; card "captain"]) = Ok p'
    /\ Player_unrevealRole (Some "duke") p' = Ok (mkPlayer 2 [card "duke"; card "captain"]).
Proof.
  destruct (Player_revealRole (Some "duke") (mkPlayer 2 [card "duke"; card "captain"]))
    as [p'|] eqn:Hrev; [|vm_compute in Hrev; discriminate].
  exists p'. split; [reflexivity|].
  destruct (@reveal_unreveal_round_trip (Some "duke")
              (mkPlayer 2 [card "duke"; card "captain"]) p' Hrev)
    as (_ & p'' & H1 & _ & _ & _ & H5).
  rewrite H1. f_equal. apply H5. reflexivity.
Defined.

Lemma accepted_reveal_succeeds_witness :
  exists c',
    revealInfluence (with_revealer (Some 0) sample_game2) (REVEAL_ "duke" 0) = Ok c'
    /\ revealedRole c' = Some "duke".
Proof.
  destruct (@accepted_reveal_succeeds (with_revealer (Some 0) sample_game2)
              (REVEAL_ "duke" 0))
    as (c' & r & H1 & H2 & H3 & _).
  - vm_compute. reflexivity.
  - exists c'. split; [exact H1|]. rewrite H2. symmetry. apply H3. discriminate.
Defined.

Lemma Rand_makeSeed_uint32_witness :
  uint32_seed (Rand_makeSeed sample_randUint 42 None).
Proof.
  apply (@Rand_makeSeed_uint32 sample_randUint sample_randUint_uint32 42 None).
  - lia.
  - intros k Hk. discriminate Hk.
Defined.

Lemma Rand_random_in_range_witness :
  exists i,
    Rand_random_rounded sample_randUint binary64 0 5 sample_seed
    = Ok (i, Rand__nextSeed sample_randUint sample_seed)
    /\ 0 <= i <= 5.
Proof.
  destruct (@Rand_random_in_range sample_randUint sample_randUint_uint32 0 5 sample_seed)
    as (i & H1 & H2 & _).
  - vm_compute. discriminate.
  - lia.
  - vm_compute. discriminate.
  - exists i. split; assumption.
Defined.

Lemma Rand_shuffle_seed_witness :
  exists l' seed',
    Rand_shuffle sample_randUint ["duke"; "assassin"; "captain"; "contessa"] sample_seed
    = Ok (l', seed')
    /\ seed' = compose_n 3 (Rand__nextSeed sample_randUint) sample_seed.
Proof.
  destruct (Rand_shuffle sample_randUint ["duke"; "assassin"; "captain"; "contessa"]
                         sample_seed)
    as [[l' seed']|] eqn:Hs; [|vm_compute in Hs; discriminate].
  exists l', seed'. split; [reflexivity|].
  exact (proj1 (@Rand_shuffle_seed sample_randUint _ _ l' sample_seed seed' Hs)).
Defined.

Lemma Game_shuffleDeck_s_spec_witness :
  exists deck' c',
    Game_shuffleDeck_s sample_randUint sample_game2 = Ok (tt, c')
    /\ deck c' = deck' /\ players c' = players sample_game2
    /\ Permutation (deck sample_game2) deck'.
Proof.
  destruct (@Game_shuffleDeck_s_spec sample_randUint sample_randUint_uint32 sample_game2)
    as (deck' & H1 & H2).
  exists deck'. eexists. split; [exact H1|]. repeat split. exact H2.
Defined.

Lemma Player_lens_laws_witness :
  view (Player_lens (Some 1))
       (set (Player_lens (Some 1)) (mkPlayer 9 []) sample_game2)
  = Ok (mkPlayer 9 []).
Proof.
  apply (@Player_lens_laws sample_game2 1 (mkPlayer 9 []) (mkPlayer 9 [])).
  simpl. lia.
Defined.

Lemma turn_passes_to_next_seat_witness :
  exists st',
    transition sample_randUint (initialState sample_game2) (ACTION_ "income" 0) = Ok st'
    /\ (whoseTurn (context st') = 0
        \/ (value st' = StartOfTurn /\ whoseTurn (context st') = 1)).
Proof.
  destruct (transition sample_randUint (initialState sample_game2) (ACTION_ "income" 0))
    as [st'|] eqn:Ht; [|vm_compute in Ht; discriminate].
  exists st'. split; [reflexivity|].
  exact (@turn_passes_to_next_seat sample_randUint (initialState sample_game2) st'
           (ACTION_ "income" 0) Ht).
Defined.

